(** * nextjs-chatgpt-demo: the chat-stream consumer, the composer and the
      message renderer, embedded from the TypeScript sources.

    Layout: the host functions the sources call (strings, TextDecoder,
    TextEncoder, JSON) in [Module JS]; then one module per source file;
    then the lemmas and the theorems about them. *)

From Stdlib Require Import List NArith ZArith Lia Bool.
From Stdlib Require Import Strings.String Strings.Ascii Strings.Byte.
Import ListNotations.

Local Open Scope N_scope.
Local Abbreviation length := List.length.
Local Abbreviation concat := List.concat.

(* ------------------------------------------------------------------ *)
(** ** Host functions (ECMAScript and WHATWG Encoding) *)

Module JS.

(** A JavaScript string is a sequence of UTF-16 code units. *)
Definition code_unit := N.
Definition jsstring := list code_unit.

(** ASCII text of the sources, as code units. *)
Definition lit (s : string) : jsstring :=
  map N_of_ascii (list_ascii_of_string s).

(** The same, with every apostrophe standing for a double quote (U+0022),
    to write JSON text. *)
Definition jlit (s : string) : jsstring :=
  map (fun c => if c =? 39 then 34 else c) (lit s).

Definition LF : code_unit := 10.

Fixpoint str_eqb (a b : jsstring) : bool :=
  match a, b with
  | [], [] => true
  | x :: a', y :: b' => (x =? y) && str_eqb a' b'
  | _, _ => false
  end.

(** [s.startsWith(p)] *)
Fixpoint startsWith (s p : jsstring) {struct p} : bool :=
  match p with
  | [] => true
  | x :: p' =>
      match s with
      | y :: s' => (x =? y) && startsWith s' p'
      | [] => false
      end
  end.

(** [s.indexOf(c)] for a one-unit search string: the first position of
    [c], or -1. *)
Fixpoint indexOf (s : jsstring) (c : code_unit) : Z :=
  match s with
  | [] => (-1)%Z
  | x :: s' =>
      if x =? c then 0%Z
      else let i := indexOf s' c in
           if (i <? 0)%Z then (-1)%Z else (i + 1)%Z
  end.
Arguments indexOf s c%_N.

Definition clamp (len i : Z) : nat := Z.to_nat (Z.max 0 (Z.min i len)).

(** [s.substring(a, b)]: both ends clamped to [0, length], swapped when
    out of order. [None] for [b] is the one-argument call. *)
Definition substring {A} (s : list A) (a : Z) (b : option Z) : list A :=
  let len := Z.of_nat (length s) in
  let i := clamp len a in
  let j := match b with Some b => clamp len b | None => length s end in
  firstn (Nat.max i j - Nat.min i j) (skipn (Nat.min i j) s).

(** [s.slice(a, b)] on strings and arrays: a negative index counts from
    the end; empty when the ends are out of order. *)
Definition slice {A} (s : list A) (a : Z) (b : option Z) : list A :=
  let len := Z.of_nat (length s) in
  let rel i := if (i <? 0)%Z then Z.to_nat (Z.max 0 (len + i))
               else Z.to_nat (Z.min i len) in
  let i := rel a in
  let j := match b with Some b => rel b | None => length s end in
  firstn (j - i) (skipn i s).

(** WhiteSpace and LineTerminator code points, the ones [trim] strips. *)
Definition is_space (c : code_unit) : bool :=
  (c =? 9) || (c =? 10) || (c =? 11) || (c =? 12) || (c =? 13) || (c =? 32)
  || (c =? 160) || (c =? 5760) || ((8192 <=? c) && (c <=? 8202))
  || (c =? 8232) || (c =? 8233) || (c =? 8239) || (c =? 8287)
  || (c =? 12288) || (c =? 65279).

Fixpoint trimStart (s : jsstring) : jsstring :=
  match s with
  | c :: s' => if is_space c then trimStart s' else s
  | [] => []
  end.

Definition trimEnd (s : jsstring) : jsstring := rev (trimStart (rev s)).

(** [s.trim()] *)
Definition trim (s : jsstring) : jsstring := trimEnd (trimStart s).

(** Decimal digits of a non-negative integer, as in [String(n)]. *)
Fixpoint digits_fuel (fuel : nat) (n : N) (acc : jsstring) : jsstring :=
  match fuel with
  | O => acc
  | S f =>
      let acc' := (48 + n mod 10) :: acc in
      if n <? 10 then acc' else digits_fuel f (n / 10) acc'
  end.

Definition Number_toString (n : N) : jsstring :=
  digits_fuel (S (N.to_nat (N.log2 n))) n [].

(* .................................................................. *)
(** *** TextDecoder('utf-8').decode(bytes), without the stream option

    The UTF-8 decoder of the Encoding Standard, error mode replacement:
    the state is the code point under construction, the bytes seen and
    needed, and the bounds of the next continuation byte. *)

Record utf8_state := Utf8
  { u_cp : N; u_seen : N; u_needed : N; u_lower : N; u_upper : N }.

Definition utf8_init : utf8_state := Utf8 0 0 0 128 191.

(** A byte read while no sequence is open. *)
Definition utf8_lead (v : N) : utf8_state * list N :=
  if v <=? 127 then (utf8_init, [v])
  else if (194 <=? v) && (v <=? 223) then
    (Utf8 (N.land v 31) 0 1 128 191, [])
  else if (224 <=? v) && (v <=? 239) then
    (Utf8 (N.land v 15) 0 2
          (if v =? 224 then 160 else 128)
          (if v =? 237 then 159 else 191), [])
  else if (240 <=? v) && (v <=? 244) then
    (Utf8 (N.land v 7) 0 3
          (if v =? 240 then 144 else 128)
          (if v =? 244 then 143 else 191), [])
  else (utf8_init, [65533]).

(** The decoded code points. A byte outside the bounds ends the open
    sequence with U+FFFD and is read again as a lead byte; the end of the
    input inside a sequence gives U+FFFD. *)
Fixpoint utf8_decode (st : utf8_state) (bs : list byte) : list N :=
  match bs with
  | [] => if u_needed st =? 0 then [] else [65533]
  | b :: rest =>
      let v := Byte.to_N b in
      if u_needed st =? 0 then
        let '(st', out) := utf8_lead v in out ++ utf8_decode st' rest
      else if (v <? u_lower st) || (u_upper st <? v) then
        let '(st', out) := utf8_lead v in
        65533 :: out ++ utf8_decode st' rest
      else
        let cp := N.lor (N.shiftl (u_cp st) 6) (N.land v 63) in
        if u_seen st + 1 =? u_needed st then cp :: utf8_decode utf8_init rest
        else utf8_decode (Utf8 cp (u_seen st + 1) (u_needed st) 128 191) rest
  end.

(** A code point as UTF-16 code units. *)
Definition utf16_units (cp : N) : jsstring :=
  if cp <? 65536 then [cp]
  else let c := cp - 65536 in [55296 + N.shiftr c 10; 56320 + N.land c 1023].

(** ignoreBOM is false: a leading U+FEFF of the output is dropped. *)
Definition strip_bom (cps : list N) : list N :=
  match cps with
  | c :: r => if c =? 65279 then r else cps
  | [] => []
  end.

(** One call of [decoder.decode(value)]. Without [{stream: true}] every
    call starts from the initial state and flushes at the end of its
    input. *)
Definition TextDecoder_decode (value : list byte) : jsstring :=
  flat_map utf16_units (strip_bom (utf8_decode utf8_init value)).

(* .................................................................. *)
(** *** TextEncoder.encode(string) *)

Definition is_lead_surrogate (c : N) : bool := (55296 <=? c) && (c <=? 56319).
Definition is_trail_surrogate (c : N) : bool := (56320 <=? c) && (c <=? 57343).

Definition byte_of_N (n : N) : byte :=
  match Byte.of_N (n mod 256) with Some b => b | None => x00 end.

Definition utf8_bytes (cp : N) : list byte :=
  if cp <? 128 then [byte_of_N cp]
  else if cp <? 2048 then
    [byte_of_N (192 + N.shiftr cp 6); byte_of_N (128 + N.land cp 63)]
  else if cp <? 65536 then
    [byte_of_N (224 + N.shiftr cp 12);
     byte_of_N (128 + N.land (N.shiftr cp 6) 63);
     byte_of_N (128 + N.land cp 63)]
  else
    [byte_of_N (240 + N.shiftr cp 18);
     byte_of_N (128 + N.land (N.shiftr cp 12) 63);
     byte_of_N (128 + N.land (N.shiftr cp 6) 63);
     byte_of_N (128 + N.land cp 63)].

(** Surrogate pairs are joined; a lone surrogate is encoded as U+FFFD. *)
Fixpoint TextEncoder_encode (s : jsstring) : list byte :=
  match s with
  | [] => []
  | c :: r =>
      if is_lead_surrogate c then
        match r with
        | d :: r' =>
            if is_trail_surrogate d then
              utf8_bytes (65536 + (c - 55296) * 1024 + (d - 56320))
                ++ TextEncoder_encode r'
            else utf8_bytes 65533 ++ TextEncoder_encode r
        | [] => utf8_bytes 65533
        end
      else if is_trail_surrogate c then utf8_bytes 65533 ++ TextEncoder_encode r
      else utf8_bytes c ++ TextEncoder_encode r
  end.

(** Text and bytes within ASCII. *)
Definition ascii_text (s : jsstring) : Prop := Forall (fun c => c < 128) s.

Definition ascii_bytes (bs : list byte) : Prop :=
  Forall (fun b => Byte.to_N b < 128) bs.

(* .................................................................. *)
(** *** JSON values, JSON.parse and JSON.stringify *)

(** A number is kept as the decimal it was written as,
    (-1)^neg * mant * 10^exp10; the double it denotes is the one nearest
    to that value. *)
#[local] Unset Elimination Schemes.
Inductive json :=
| JNull
| JBool (b : bool)
| JNum (neg : bool) (mant : N) (exp10 : Z)
| JStr (s : jsstring)
| JArr (items : list json)
| JObj (props : list (jsstring * json)).
#[local] Set Elimination Schemes.

(** A property key that is an array index: the canonical decimal of an
    integer below 2^32 - 1. *)
Definition is_digit (c : code_unit) : bool := (48 <=? c) && (c <=? 57).

Fixpoint digits_value (s : jsstring) (acc : N) : N :=
  match s with
  | [] => acc
  | c :: r => digits_value r (10 * acc + (c - 48))
  end.

Definition array_index (k : jsstring) : option N :=
  match k with
  | [] => None
  | c :: r =>
      if forallb is_digit k && (negb (c =? 48) || match r with [] => true | _ => false end)
         && (length k <=? 10)%nat && (digits_value k 0 <? 4294967295)
      then Some (digits_value k 0) else None
  end.

(** CreateDataProperty on an ordinary object, the properties kept in
    enumeration order: array indices ascending, then the other keys in
    creation order. An existing key keeps its place. *)
Fixpoint has_key (k : jsstring) (props : list (jsstring * json)) : bool :=
  match props with
  | [] => false
  | (k', _) :: r => str_eqb k k' || has_key k r
  end.

Fixpoint replace_key (k : jsstring) (v : json) (props : list (jsstring * json)) :=
  match props with
  | [] => []
  | (k', v') :: r =>
      if str_eqb k k' then (k', v) :: r else (k', v') :: replace_key k v r
  end.

Fixpoint insert_index (i : N) (k : jsstring) (v : json)
    (props : list (jsstring * json)) :=
  match props with
  | [] => [(k, v)]
  | (k', v') :: r =>
      match array_index k' with
      | Some j => if j <? i then (k', v') :: insert_index i k v r
                  else (k, v) :: props
      | None => (k, v) :: props
      end
  end.

Definition define_property (k : jsstring) (v : json)
    (props : list (jsstring * json)) :=
  if has_key k props then replace_key k v props
  else match array_index k with
       | Some i => insert_index i k v props
       | None => props ++ [(k, v)]
       end.

(** Own property lookup. *)
Fixpoint get_own (k : jsstring) (props : list (jsstring * json)) : option json :=
  match props with
  | [] => None
  | (k', v) :: r => if str_eqb k k' then Some v else get_own k r
  end.

(** JSON white space: tab, line feed, carriage return, space. *)
Definition is_json_ws (c : code_unit) : bool :=
  (c =? 9) || (c =? 10) || (c =? 13) || (c =? 32).

Fixpoint skip_ws (s : jsstring) : jsstring :=
  match s with
  | c :: r => if is_json_ws c then skip_ws r else s
  | [] => []
  end.

Definition hex_value (c : code_unit) : option N :=
  if is_digit c then Some (c - 48)
  else if (65 <=? c) && (c <=? 70) then Some (c - 55)
  else if (97 <=? c) && (c <=? 102) then Some (c - 87)
  else None.

Definition hex4 (a b c d : code_unit) : option code_unit :=
  match hex_value a, hex_value b, hex_value c, hex_value d with
  | Some a, Some b, Some c, Some d => Some (((a * 16 + b) * 16 + c) * 16 + d)
  | _, _, _, _ => None
  end.

Definition simple_escape (e : code_unit) : option code_unit :=
  if e =? 34 then Some 34          (* quotation mark *)
  else if e =? 92 then Some 92     (* reverse solidus *)
  else if e =? 47 then Some 47     (* solidus *)
  else if e =? 98 then Some 8      (* b: backspace *)
  else if e =? 102 then Some 12    (* f: form feed *)
  else if e =? 110 then Some 10    (* n: line feed *)
  else if e =? 114 then Some 13    (* r: carriage return *)
  else if e =? 116 then Some 9     (* t: tab *)
  else None.

Definition cons_char (c : code_unit) (r : option (jsstring * jsstring)) :=
  match r with
  | Some (s, rest) => Some (c :: s, rest)
  | None => None
  end.

(** The characters of a string after its opening quote, up to the closing
    one: the value and the input that follows. *)
Fixpoint parse_chars (s : jsstring) : option (jsstring * jsstring) :=
  match s with
  | [] => None
  | c :: r =>
      if c =? 34 then Some ([], r)
      else if c =? 92 then
        match r with
        | [] => None
        | e :: r1 =>
            if e =? 117 then
              match r1 with
              | h1 :: h2 :: h3 :: h4 :: r2 =>
                  match hex4 h1 h2 h3 h4 with
                  | Some u => cons_char u (parse_chars r2)
                  | None => None
                  end
              | _ => None
              end
            else match simple_escape e with
                 | Some u => cons_char u (parse_chars r1)
                 | None => None
                 end
        end
      else if c <? 32 then None
      else cons_char c (parse_chars r)
  end.

Fixpoint take_digits (s : jsstring) : jsstring * jsstring :=
  match s with
  | c :: r => if is_digit c then let '(d, rest) := take_digits r in (c :: d, rest)
              else ([], s)
  | [] => ([], [])
  end.

(** An optional minus sign; the integer part, 0 or a digit 1-9 followed
    by digits; an optional fraction, a point and at least one digit; an
    optional exponent, e or E, an optional sign and at least one digit. *)
Definition parse_number (s : jsstring) : option (json * jsstring) :=
  let '(neg, s1) := match s with
                    | c :: r => if c =? 45 then (true, r) else (false, s)
                    | [] => (false, s)
                    end in
  let int_part :=
    match s1 with
    | c :: r => if c =? 48 then Some ([48], r)
                else if is_digit c then Some (take_digits s1)
                else None
    | [] => None
    end in
  match int_part with
  | None => None
  | Some (ds, s2) =>
      let frac :=
        match s2 with
        | c :: r => if c =? 46 then
                      match take_digits r with
                      | ([], _) => None
                      | (fs, rest) => Some (fs, rest)
                      end
                    else Some ([], s2)
        | [] => Some ([], s2)
        end in
      match frac with
      | None => None
      | Some (fs, s3) =>
          let expo :=
            match s3 with
            | c :: r =>
                if (c =? 101) || (c =? 69) then
                  let '(eneg, r1) := match r with
                                     | c1 :: r' => if c1 =? 45 then (true, r')
                                                   else if c1 =? 43 then (false, r')
                                                   else (false, r)
                                     | [] => (false, r)
                                     end in
                  match take_digits r1 with
                  | ([], _) => None
                  | (es, rest) =>
                      let e := Z.of_N (digits_value es 0) in
                      Some ((if eneg then - e else e)%Z, rest)
                  end
                else Some (0%Z, s3)
            | [] => Some (0%Z, s3)
            end in
          match expo with
          | None => None
          | Some (e, s4) =>
              Some (JNum neg (digits_value (ds ++ fs) 0)
                         (e - Z.of_nat (length fs))%Z, s4)
          end
      end
  end.

Definition parse_keyword (kw : jsstring) (v : json) (s : jsstring) :=
  if startsWith s kw then Some (v, skipn (length kw) s) else None.

(** A JSON value at the head of [s], and the input that follows it. Each
    call reads at least one code unit before the next one, so a fuel of
    the input's length plus one is never used up. *)
Fixpoint parse_value (fuel : nat) (s : jsstring) : option (json * jsstring) :=
  match fuel with
  | O => None
  | S f =>
      match skip_ws s with
      | [] => None
      | c :: r =>
          if c =? 123 then                       (* { *)
            match skip_ws r with
            | c1 :: r1 => if c1 =? 125 then Some (JObj [], r1)
                          else parse_members f (skip_ws r) []
            | [] => None
            end
          else if c =? 91 then                   (* [ *)
            match skip_ws r with
            | c1 :: r1 => if c1 =? 93 then Some (JArr [], r1)
                          else parse_elements f r []
            | [] => None
            end
          else if c =? 34 then
            match parse_chars r with
            | Some (str, rest) => Some (JStr str, rest)
            | None => None
            end
          else if c =? 116 then parse_keyword (lit "true") (JBool true) (c :: r)
          else if c =? 102 then parse_keyword (lit "false") (JBool false) (c :: r)
          else if c =? 110 then parse_keyword (lit "null") JNull (c :: r)
          else parse_number (c :: r)
      end
  end
with parse_members (fuel : nat) (s : jsstring) (acc : list (jsstring * json))
    : option (json * jsstring) :=
  match fuel with
  | O => None
  | S f =>
      match skip_ws s with
      | [] => None
      | q :: r =>
          if q =? 34 then
            match parse_chars r with
            | None => None
            | Some (k, r1) =>
                match skip_ws r1 with
                | [] => None
                | colon :: r2 =>
                    if colon =? 58 then
                      match parse_value f r2 with
                      | None => None
                      | Some (v, r3) =>
                          match skip_ws r3 with
                          | [] => None
                          | d :: r4 =>
                              if d =? 44 then
                                parse_members f r4 (define_property k v acc)
                              else if d =? 125 then
                                Some (JObj (define_property k v acc), r4)
                              else None
                          end
                      end
                    else None
                end
            end
          else None
      end
  end
with parse_elements (fuel : nat) (s : jsstring) (acc : list json)
    : option (json * jsstring) :=
  match fuel with
  | O => None
  | S f =>
      match parse_value f s with
      | None => None
      | Some (v, r1) =>
          match skip_ws r1 with
          | [] => None
          | d :: r2 =>
              if d =? 44 then parse_elements f r2 (acc ++ [v])
              else if d =? 93 then Some (JArr (acc ++ [v]), r2)
              else None
          end
      end
  end.

(** [JSON.parse(text)]; [None] when it throws SyntaxError. *)
Definition JSON_parse (text : jsstring) : option json :=
  match parse_value (S (length text)) text with
  | Some (v, rest) => match skip_ws rest with [] => Some v | _ => None end
  | None => None
  end.

(** ToBoolean of the double a decimal denotes: false exactly when it
    rounds to zero, that is when mant * 10^exp10 <= 2^-1075. *)
Definition rounds_to_zero (mant : N) (exp10 : Z) : bool :=
  (mant =? 0)
  || ((exp10 <? 0)%Z
      && (Z.of_N mant * 2 ^ 1075 <=? 10 ^ (- exp10))%Z).

(** A value read from a property: [None] is [undefined]. *)
Definition jsvalue := option json.

(** ToBoolean *)
Definition truthy (v : jsvalue) : bool :=
  match v with
  | None => false
  | Some JNull => false
  | Some (JBool b) => b
  | Some (JNum _ m e) => negb (rounds_to_zero m e)
  | Some (JStr s) => negb (str_eqb s [])
  | Some (JArr _) => true
  | Some (JObj _) => true
  end.

(** [v.model] for a value [v] that JSON.parse returned: the own property
    of an object, [undefined] on the other values, and a TypeError
    (outer [None]) on [null]. *)
Definition get_model (v : json) : option jsvalue :=
  match v with
  | JNull => None
  | JObj props => Some (get_own (lit "model") props)
  | _ => Some None
  end.

(** Hexadecimal digit, lower case. *)
Definition hex_digit (n : N) : code_unit := if n <? 10 then 48 + n else 87 + n.

Definition unicode_escape (c : code_unit) : jsstring :=
  [92; 117; hex_digit (N.shiftr c 12 mod 16); hex_digit (N.shiftr c 8 mod 16);
   hex_digit (N.shiftr c 4 mod 16); hex_digit (c mod 16)].

(** QuoteJSONString, without the enclosing quotes. *)
Fixpoint quote_chars (s : jsstring) : jsstring :=
  match s with
  | [] => []
  | c :: r =>
      if c =? 8 then lit "\b" ++ quote_chars r
      else if c =? 9 then lit "\t" ++ quote_chars r
      else if c =? 10 then lit "\n" ++ quote_chars r
      else if c =? 12 then lit "\f" ++ quote_chars r
      else if c =? 13 then lit "\r" ++ quote_chars r
      else if c =? 34 then [92; 34] ++ quote_chars r
      else if c =? 92 then [92; 92] ++ quote_chars r
      else if c <? 32 then unicode_escape c ++ quote_chars r
      else if is_lead_surrogate c then
        match r with
        | d :: r' => if is_trail_surrogate d then c :: d :: quote_chars r'
                     else unicode_escape c ++ quote_chars r
        | [] => unicode_escape c
        end
      else if is_trail_surrogate c then unicode_escape c ++ quote_chars r
      else c :: quote_chars r
  end.

Definition quote (s : jsstring) : jsstring := 34 :: quote_chars s ++ [34].

Fixpoint join_comma (parts : list jsstring) : jsstring :=
  match parts with
  | [] => []
  | [p] => p
  | p :: r => p ++ 44 :: join_comma r
  end.

Section Stringify.

(** What JSON.stringify writes for a number: the shortest decimal that
    reads back as its double, or null when the double is infinite. The
    digits are the host's; they are a parameter here. *)
Variable number_text : bool -> N -> Z -> jsstring.

(** [JSON.stringify(v)] for a value that JSON.parse returned, no
    indentation. *)
Fixpoint JSON_stringify (v : json) : jsstring :=
  match v with
  | JNull => lit "null"
  | JBool true => lit "true"
  | JBool false => lit "false"
  | JNum neg m e => number_text neg m e
  | JStr s => quote s
  | JArr items => 91 :: join_comma (map JSON_stringify items) ++ [93]
  | JObj props =>
      123 :: join_comma
               (map (fun kv => quote (fst kv) ++ 58 :: JSON_stringify (snd kv))
                    props) ++ [125]
  end.

End Stringify.

End JS.

Import JS.

(* ------------------------------------------------------------------ *)
(** ** components/ChatMessage.tsx: messages and the code-fence parser *)

Module ChatMessage.

Inductive Role := system | user | assistant.

Inductive Icon := SmartToyTwoToneIcon | Face6Icon | SmartToyOutlinedIcon.

(** [interface UiMessage]. The declared type of [model] is string; the
    stream consumer stores whatever value the parsed preamble holds. *)
Record UiMessage := mkUiMessage
  { uid : jsstring;
    sender : jsstring;
    role : Role;
    text : jsstring;
    model : jsvalue;
    avatar : Icon }.

Definition set_text (m : UiMessage) (t : jsstring) : UiMessage :=
  mkUiMessage (uid m) (sender m) (role m) t (model m) (avatar m).

Definition set_model (m : UiMessage) (v : jsvalue) : UiMessage :=
  mkUiMessage (uid m) (sender m) (role m) (text m) v (avatar m).

(** [type MessageBlock]: [content] of a code block is the highlighted
    markup. *)
Inductive MessageBlock :=
| TextBlock (content : jsstring)
| CodeBlock (content code language : jsstring).

(** *** A backtracking matcher for the regular expressions of the file

    The results of a pattern on an input are the ways it can match a
    prefix, in the order a backtracking engine tries them; each gives the
    captures and the input left. The first result is the match. *)

Inductive regex :=
| Unit (p : code_unit -> bool)             (* one code unit of a class *)
| EndOfInput                               (* $ without the m flag *)
| Seq (a b : regex)
| Alt (a b : regex)
| Opt (a : regex)                          (* a? *)
| AtLeast (n : nat) (p : code_unit -> bool) (* p{n,}, greedy *)
| LazyStar (p : code_unit -> bool)         (* p*? *)
| Group (i : nat) (a : regex).             (* capture group i *)

Definition captures := list (nat * jsstring).

Fixpoint capture (i : nat) (c : captures) : option jsstring :=
  match c with
  | [] => None
  | (j, s) :: r => if Nat.eqb i j then Some s else capture i r
  end.

(** The inputs left after a run of [p], the longest run first. *)
Fixpoint runs (p : code_unit -> bool) (s : jsstring) : list jsstring :=
  match s with
  | c :: r => if p c then runs p r ++ [s] else [s]
  | [] => [s]
  end.

Definition consumed (s s' : jsstring) : jsstring :=
  firstn (length s - length s') s.

Fixpoint matches (r : regex) (s : jsstring) (c : captures)
    : list (captures * jsstring) :=
  match r with
  | Unit p =>
      match s with
      | x :: s' => if p x then [(c, s')] else []
      | [] => []
      end
  | EndOfInput => match s with [] => [(c, s)] | _ => [] end
  | Seq a b => flat_map (fun m => matches b (snd m) (fst m)) (matches a s c)
  | Alt a b => matches a s c ++ matches b s c
  | Opt a => matches a s c ++ [(c, s)]
  | AtLeast n p =>
      map (pair c)
          (filter (fun s' => (n <=? length s - length s')%nat) (runs p s))
  | LazyStar p => map (pair c) (rev (runs p s))
  | Group i a =>
      map (fun m => ((i, consumed s (snd m)) :: fst m, snd m)) (matches a s c)
  end.

(** [re.exec] from the head of [s]: the offset of the leftmost match, its
    captures and the input left after it. *)
Fixpoint exec (re : regex) (s : jsstring) (offset : nat)
    : option (nat * captures * jsstring) :=
  match hd_error (matches re s []) with
  | Some (c, s') => Some (offset, c, s')
  | None =>
      match s with
      | [] => None
      | _ :: r => exec re r (S offset)
      end
  end.

Definition backtick (c : code_unit) : bool := c =? 96.

(** \w *)
Definition word (c : code_unit) : bool :=
  ((65 <=? c) && (c <=? 90)) || ((97 <=? c) && (c <=? 122))
  || is_digit c || (c =? 95).

Definition line_feed (c : code_unit) : bool := c =? 10.

(** [\s\S] *)
Definition any (c : code_unit) : bool := true.

(** [/`{3,}(\w+)?\n([\s\S]*?)(`{3,}|$)/g] *)
Definition codeBlockRegex : regex :=
  Seq (AtLeast 3 backtick)
  (Seq (Opt (Group 1 (AtLeast 1 word)))
  (Seq (Unit line_feed)
  (Seq (Group 2 (LazyStar any))
       (Group 3 (Alt (AtLeast 3 backtick) EndOfInput))))).

Definition typescript : jsstring := lit "typescript".

Section Parse.

(** [Prism.highlight(code, grammar, language)], the grammar being the
    one of the language or else the one of typescript. *)
Variable highlight : jsstring -> jsstring -> jsstring.

(** The loop of [parseAndHighlightCodeBlocks] on the text from
    [lastIndex] on. [None]: the loop does not end within the fuel, or
    [match[2]] is undefined. *)
Fixpoint parse_loop (fuel : nat) (rest : jsstring) : option (list MessageBlock) :=
  match fuel with
  | O => None
  | S f =>
      match exec codeBlockRegex rest 0 with
      | Some (index, c, rest') =>
          let language :=
            match capture 1 c with
            | Some (x :: l) => x :: l
            | _ => typescript
            end in
          match capture 2 c with
          | Some m2 =>
              let codeBlock := trim m2 in
              let highlightedCode := highlight codeBlock language in
              match parse_loop f rest' with
              | Some blocks =>
                  Some (TextBlock (firstn index rest)
                        :: CodeBlock highlightedCode codeBlock language
                        :: blocks)
              | None => None
              end
          | None => None
          end
      | None =>
          Some (match rest with
                | [] => []
                | _ :: _ => [TextBlock rest]
                end)
      end
  end.

Definition parseAndHighlightCodeBlocks (text : jsstring) :=
  parse_loop (S (length text)) text.

End Parse.

(** The shape of a result of the parser: pairs of a text block and a code
    block with a language, then at most one text block, which is not
    empty. *)
Fixpoint alternating (blocks : list MessageBlock) : bool :=
  match blocks with
  | [] => true
  | TextBlock content :: rest =>
      match rest with
      | [] => match content with [] => false | _ :: _ => true end
      | CodeBlock _ _ language :: rest' =>
          match language with [] => false | _ :: _ => alternating rest' end
      | TextBlock _ :: _ => false
      end
  | CodeBlock _ _ _ :: _ => false
  end.

(** A code block holds the highlighted markup of its own code, and its
    code is what [trim] returned. *)
Definition highlighted (highlight : jsstring -> jsstring -> jsstring)
    (b : MessageBlock) : Prop :=
  match b with
  | TextBlock _ => True
  | CodeBlock content code language =>
      content = highlight code language /\ exists m, code = trim m
  end.

(** *** Fenced texts, for the statements about the parser *)

(** The text does not open with a code unit of the class. *)
Definition not_leading (p : code_unit -> bool) (s : jsstring) : Prop :=
  match s with
  | x :: _ => p x = false
  | [] => True
  end.

(** A text without a backtick. *)
Definition plain (s : jsstring) : Prop :=
  Forall (fun x => backtick x = false) s.

Definition backticks (n : nat) : jsstring := repeat 96 n.

(** A fence as it stands in a text: the text before it, an opening run
    of three backticks and [fence_opening] more, a language tag that may
    be empty, a line feed, the body, and a closing run of three backticks
    and [fence_closing] more. *)
Record Fence := mkFence
  { fence_before : jsstring;
    fence_opening : nat;
    fence_tag : jsstring;
    fence_body : jsstring;
    fence_closing : nat }.

Definition fence_text (f : Fence) : jsstring :=
  fence_before f
  ++ (backticks (3 + fence_opening f) ++ fence_tag f
      ++ LF :: fence_body f ++ backticks (3 + fence_closing f)).

(** The text made of fences, one after the other, and a last text. *)
Definition fenced (fences : list Fence) (last : jsstring) : jsstring :=
  concat (map fence_text fences) ++ last.

(** The text before a fence and its body hold no backtick, and its tag
    is made of word characters. *)
Definition fence_ok (f : Fence) : Prop :=
  plain (fence_before f)
  /\ Forall (fun x => word x = true) (fence_tag f)
  /\ plain (fence_body f).

(** The two blocks expected of a fence: the text before it, and the code
    in the language of its tag, or in typescript when it has none. *)
Definition fence_blocks (highlight : jsstring -> jsstring -> jsstring)
    (f : Fence) : list MessageBlock :=
  let language :=
    match fence_tag f with
    | [] => lit "typescript"
    | _ :: _ => fence_tag f
    end in
  [TextBlock (fence_before f);
   CodeBlock (highlight (trim (fence_body f)) language) (trim (fence_body f))
             language].

End ChatMessage.

Import ChatMessage.

(* ------------------------------------------------------------------ *)
(** ** components/Composer.tsx: the send history *)

Module Composer.

(** The browser's storage as this component sees it: absent (no
    [localStorage] object), or the item stored under
    'app-composer-history', an array of strings written by
    [appendMessageToHistory]. *)
Inductive localStorage :=
| Undefined
| Item (stored : option (list jsstring)).

Definition loadMessagesFromHistory (ls : localStorage) : list jsstring :=
  match ls with
  | Undefined => []
  | Item None => []
  | Item (Some l) => l
  end.

Definition defaultMaxMessages : Z := 20.

(** The filter of [appendMessageToHistory]: [m.trim() !== optimizedText]. *)
Definition differs (optimizedText m : jsstring) : bool :=
  negb (str_eqb (trim m) optimizedText).

Definition appendMessageToHistory (composeText : jsstring) (maxMessages : Z)
    (ls : localStorage) : localStorage :=
  match ls with
  | Undefined => Undefined
  | Item _ =>
      let optimizedText := trim composeText in
      let composedMessages :=
        filter (differs optimizedText) (loadMessagesFromHistory ls) in
      let composedMessages := composeText :: composedMessages in   (* unshift *)
      Item (Some (slice composedMessages 0 (Some maxMessages)))
  end.

(** A history as [appendMessageToHistory] leaves it: no two entries
    equal after trimming, and at most twenty of them. *)
Definition history_ok (h : list jsstring) : Prop :=
  NoDup (map trim h) /\ (length h <= 20)%nat.

Definition clearMessageHistory (ls : localStorage) : localStorage :=
  match ls with
  | Undefined => Undefined
  | Item _ => Item None
  end.

End Composer.

(* ------------------------------------------------------------------ *)
(** ** pages/api/chat.ts: the relay's answer to a failed upstream request *)

Module Relay.

(** What [OpenAIStream] reads of the upstream response: [json] is the
    result of [res.json()], [None] when that promise rejects. *)
Record Response := mkResponse
  { status : N;
    statusText : jsstring;
    json : option JS.json }.

Definition ok (res : Response) : bool :=
  (200 <=? status res) && (status res <=? 299).

(** How the stream handed to the client ends. *)
Inductive ending := Closed | Errored.

Section OpenAIStream.

Variable number_text : bool -> N -> Z -> jsstring.

(** The re-streaming of the server-sent events of a successful
    response (the rest of [start], past the error branch): the chunks
    it enqueues and how it ends. *)
Variable restream : Response -> list (list byte) * ending.

Definition error_message (res : Response) : jsstring :=
  let errorPayload :=
    match json res with
    | Some v => v
    | None => JObj []
    end in
  lit "OpenAI API error: " ++ Number_toString (status res) ++ lit " "
    ++ statusText res ++ lit " " ++ JSON_stringify number_text errorPayload.

(** [start(controller)]: the chunks enqueued, in order, and the end of
    the stream. [res] is [None] when the upstream fetch itself failed
    (its [catch] handler returns nothing); reading [res.ok] then throws. *)
Definition OpenAIStream (res : option Response) : list (list byte) * ending :=
  match res with
  | None => ([], Errored)
  | Some res =>
      if negb (ok res) then
        ([TextEncoder_encode (error_message res)], Closed)
      else restream res
  end.

End OpenAIStream.

(** The scenario of an overloaded upstream: 503 Service Unavailable with
    the body [{error: overloaded}]. *)
Definition service_unavailable : Response :=
  mkResponse 503 (lit "Service Unavailable")
             (Some (JObj [(lit "error", JStr (lit "overloaded"))])).

End Relay.

(* ------------------------------------------------------------------ *)
(** ** pages/index.tsx: the conversation and the stream consumer *)

Module Conversation.

Import Composer.

Definition MessageDefaults (r : Role) : jsstring * Icon :=
  match r with
  | system => (lit "Bot", SmartToyTwoToneIcon)
  | user => (lit "You", Face6Icon)
  | assistant => (lit "Bot", SmartToyOutlinedIcon)
  end.

(** [createUiMessage(role, text)]; [uid] is what
    [Math.random().toString(36).substring(2, 15)] gave. *)
Definition createUiMessage (uid : jsstring) (r : Role) (text : jsstring)
    : UiMessage :=
  mkUiMessage uid (fst (MessageDefaults r)) r text (Some (JStr []))
              (snd (MessageDefaults r)).

(** What one pass of the loop did about the preamble. *)
Inductive attempt := NoAttempt | ParseFailed | Parsed.

(** One pass of the [while] loop of [getBotMessageStreaming] on the
    pending message, for a chunk [value] (lines 83-100). *)
Definition receive (newBotMessage : UiMessage) (value : list byte)
    : UiMessage * attempt :=
  let messageText := TextDecoder_decode value in
  let m := set_text newBotMessage (text newBotMessage ++ messageText) in
  if negb (truthy (model m)) && startsWith (text m) (lit "{") then
    let endOfJson := indexOf (text m) 125 in
    if (endOfJson >? 0)%Z then
      let json := substring (text m) 0 (Some (endOfJson + 1)%Z) in
      match JSON_parse json with
      | Some parsed =>
          match get_model parsed with
          | Some v =>
              (set_text (set_model m v)
                        (substring (text m) (endOfJson + 1) None), Parsed)
          | None => (m, ParseFailed)
          end
      | None => (m, ParseFailed)
      end
    else (m, NoAttempt)
  else (m, NoAttempt).

(** The pending message after the chunks of a whole stream, and what each
    pass did. *)
Fixpoint receive_all (m : UiMessage) (chunks : list (list byte))
    : UiMessage * list attempt :=
  match chunks with
  | [] => (m, [])
  | value :: rest =>
      let '(m1, a) := receive m value in
      let '(m2, l) := receive_all m1 rest in
      (m2, a :: l)
  end.

(** *** The page's state

    Messages are objects: the conversation holds references into a heap,
    and the consumer updates its message in place. *)

Definition ref := nat.

Fixpoint set_nth {A} (i : nat) (x : A) (l : list A) : list A :=
  match l, i with
  | [], _ => []
  | _ :: r, O => x :: r
  | y :: r, S j => y :: set_nth j x r
  end.

Fixpoint remove_nth {A} (i : nat) (l : list A) : list A :=
  match l, i with
  | [], _ => []
  | _ :: r, O => r
  | y :: r, S j => y :: remove_nth j r
  end.

(** A call of [getBotMessageStreaming] whose promise is not settled:
    awaiting [fetch], or in the read loop with its [newBotMessage]. *)
Inductive request := Fetching | Reading (newBotMessage : ref).

Record App := mkApp
  { heap : list UiMessage;
    messages : list ref;               (* useState<UiMessage[]> *)
    disableCompose : bool;
    composeText : jsstring;            (* the Composer's text *)
    storage : localStorage;
    posted : list (list UiMessage);    (* the messages of each POST /api/chat *)
    pending : list request }.

Definition init (ls : localStorage) : App :=
  mkApp [] [] false [] ls [] [].

Definition same_uid (h : list UiMessage) (a b : ref) : bool :=
  match nth_error h a, nth_error h b with
  | Some x, Some y => str_eqb (uid x) (uid y)
  | _, _ => false
  end.

(** The updater passed to [setMessages] after each chunk (lines 102-105). *)
Definition show (h : list UiMessage) (newBotMessage : ref) (l : list ref)
    : list ref :=
  match find (fun message => same_uid h message newBotMessage) l with
  | None => l ++ [newBotMessage]
  | Some _ => l
  end.

(** The message a reference points to. *)
Definition deref (h : list UiMessage) (r : ref) : list UiMessage :=
  match nth_error h r with
  | Some m => [m]
  | None => []
  end.

(** The conversation as rendered. *)
Definition view (st : App) : list UiMessage :=
  flat_map (deref (heap st)) (messages st).

(** [handleComposerSendMessage(text)] *)
Definition handleComposerSendMessage (uid text : jsstring) (st : App) : App :=
  let r := length (heap st) in
  let h := heap st ++ [createUiMessage uid user text] in
  let conversation := messages st ++ [r] in
  mkApp h conversation true (composeText st) (storage st)
        (posted st ++ [flat_map (deref h) conversation])
        (pending st ++ [Fetching]).

(** [handleSendClicked()] of the Composer. *)
Definition handleSendClicked (uid : jsstring) (st : App) : App :=
  let text := trim (composeText st) in
  match text with
  | [] => st
  | _ :: _ =>
      let st1 := mkApp (heap st) (messages st) (disableCompose st) []
                       (storage st) (posted st) (pending st) in
      let st2 := handleComposerSendMessage uid text st1 in
      mkApp (heap st2) (messages st2) (disableCompose st2) (composeText st2)
            (appendMessageToHistory text defaultMaxMessages (storage st2))
            (posted st2) (pending st2)
  end.

(** The promise of request [i] is fulfilled: its [then] handler runs. *)
Definition fulfilled (i : nat) (st : App) : App :=
  mkApp (heap st) (messages st) false (composeText st) (storage st)
        (posted st) (remove_nth i (pending st)).

Inductive event :=
| Change (value : jsstring)        (* the textarea's onChange, a pasted
                                      history entry, a dictated text *)
| ClickSend (uid : jsstring)       (* a click on the send button *)
| KeyDown (key : jsstring) (shiftKey : bool) (uid : jsstring)
| ListClear                        (* handleListClear *)
| FetchResolved (i : nat) (hasBody : bool) (uid : jsstring)
| ReadValue (i : nat) (value : list byte)
| ReadDone (i : nat)
| Rejected (i : nat).              (* fetch or read rejects *)

Definition step (st : App) (e : event) : App :=
  match e with
  | Change value =>
      mkApp (heap st) (messages st) (disableCompose st) value (storage st)
            (posted st) (pending st)
  | ClickSend uid =>
      (* the button is disabled while disableSend holds *)
      if disableCompose st then st else handleSendClicked uid st
  | KeyDown key shiftKey uid =>
      (* handleKeyPress; the key's own effect on the text is a Change *)
      if str_eqb key (lit "Enter") && negb shiftKey then
        if negb (disableCompose st) then handleSendClicked uid st else st
      else st
  | ListClear =>
      mkApp (heap st) [] (disableCompose st) (composeText st) (storage st)
            (posted st) (pending st)
  | FetchResolved i hasBody uid =>
      match nth_error (pending st) i with
      | Some Fetching =>
          if hasBody then
            mkApp (heap st ++ [createUiMessage uid assistant []])
                  (messages st) (disableCompose st) (composeText st)
                  (storage st) (posted st)
                  (set_nth i (Reading (length (heap st))) (pending st))
          else fulfilled i st
      | _ => st
      end
  | ReadValue i value =>
      match nth_error (pending st) i with
      | Some (Reading r) =>
          match nth_error (heap st) r with
          | Some m =>
              let h := set_nth r (fst (receive m value)) (heap st) in
              mkApp h (show h r (messages st)) (disableCompose st)
                    (composeText st) (storage st) (posted st) (pending st)
          | None => st
          end
      | _ => st
      end
  | ReadDone i =>
      match nth_error (pending st) i with
      | Some (Reading _) => fulfilled i st
      | _ => st
      end
  | Rejected i =>
      mkApp (heap st) (messages st) (disableCompose st) (composeText st)
            (storage st) (posted st) (remove_nth i (pending st))
  end.

Definition run (st : App) (evs : list event) : App := fold_left step evs st.

(** *** Notions the statements about the consumer use *)

(** The text the loop appends over a whole stream, chunk by chunk. *)
Definition decoded (chunks : list (list byte)) : jsstring :=
  concat (map TextDecoder_decode chunks).

(** The cut the loop makes in an accumulated text that opens with a brace
    and holds a closing one: the text through the first closing brace, and
    the text after it. *)
Definition preamble (t : jsstring) : option (jsstring * jsstring) :=
  if startsWith t (lit "{") then
    let endOfJson := indexOf t 125 in
    if (endOfJson >? 0)%Z then
      Some (substring t 0 (Some (endOfJson + 1)%Z),
            substring t (endOfJson + 1) None)
    else None
  else None.

(** The model value the cut text yields when it parses, with the text
    after the cut. *)
Definition metadata (t : jsstring) : option (jsvalue * jsstring) :=
  match preamble t with
  | Some (p, rest) =>
      match JSON_parse p with
      | Some parsed =>
          match get_model parsed with
          | Some v => Some (v, rest)
          | None => None
          end
      | None => None
      end
  | None => None
  end.

(** A stream text whose cut, if it parses, yields a truthy model. *)
Definition settled (t : jsstring) : bool :=
  match metadata t with
  | Some (v, _) => truthy v
  | None => true
  end.

(** The message a stream text leaves behind when its preamble, if any,
    is read once. *)
Definition outcome (m : UiMessage) (t : jsstring) : UiMessage :=
  match metadata t with
  | Some (v, rest) => set_text (set_model m v) rest
  | None => set_text m t
  end.

Definition is_parsed (a : attempt) : bool :=
  match a with Parsed => true | _ => false end.

Definition is_failed (a : attempt) : bool :=
  match a with ParseFailed => true | _ => false end.

Definition is_none (a : attempt) : bool :=
  match a with NoAttempt => true | _ => false end.

(** The identifiers drawn for new messages are new: the one an event
    carries is not the uid of a message created before. *)
Definition fresh (st : App) (e : event) : Prop :=
  match e with
  | ClickSend u | KeyDown _ _ u | FetchResolved _ _ u =>
      ~ In u (map uid (heap st))
  | _ => True
  end.

Fixpoint fresh_run (st : App) (evs : list event) : Prop :=
  match evs with
  | [] => True
  | e :: rest => fresh st e /\ fresh_run (step st e) rest
  end.

(** The references of a state are in order: those shown and those of the
    pending requests point into the heap, no message is shown twice, and
    no two messages share a uid. *)
Definition request_ok (h : list UiMessage) (q : request) : Prop :=
  match q with
  | Fetching => True
  | Reading r => (r < length h)%nat
  end.

Definition well_formed (st : App) : Prop :=
  Forall (fun r => (r < length (heap st))%nat) (messages st)
  /\ NoDup (messages st)
  /\ NoDup (map uid (heap st))
  /\ Forall (request_ok (heap st)) (pending st).

(** No request is pending, or one is and sending is disabled. *)
Definition single_flight (st : App) : Prop :=
  pending st = []
  \/ (length (pending st) = 1%nat /\ disableCompose st = true).

End Conversation.

(* ------------------------------------------------------------------ *)
(** ** components/ChatMessage.tsx: the ChatMessage component *)

Module Render.

(** [prettyModel(model)] on a string. *)
Definition prettyModel (model : jsstring) : jsstring :=
  if startsWith model (lit "gpt-4") then lit "gpt-4"
  else if startsWith model (lit "gpt-3.5-turbo") then lit "3.5-turbo"
  else model.

(** [prettyModel(message.model)] on the value the message holds: reading
    [startsWith] of undefined or null, or calling it on a value that is
    not a string, throws TypeError ([None]). *)
Definition prettyModel_of (model : jsvalue) : option jsstring :=
  match model with
  | Some (JStr s) => Some (prettyModel s)
  | _ => None
  end.

(** [s.split('\n')] *)
Fixpoint split_lines (s : jsstring) : list jsstring :=
  match s with
  | [] => [[]]
  | c :: r =>
      if c =? 10 then [] :: split_lines r
      else match split_lines r with
           | line :: lines => (c :: line) :: lines
           | [] => [[c]]
           end
  end.

(** [lines.join('\n')] *)
Fixpoint join_lines (lines : list jsstring) : jsstring :=
  match lines with
  | [] => []
  | [line] => line
  | line :: rest => line ++ LF :: join_lines rest
  end.

(** The truncation of user messages: [collapsedText] and [isCollapsed]. *)
Definition collapse (forceExpanded : bool) (message : UiMessage)
    : jsstring * bool :=
  match role message with
  | user =>
      if negb forceExpanded then
        let lines := split_lines (text message) in
        if (10 <? length lines)%nat then
          (join_lines (slice lines 0 (Some 10%Z)), true)
        else (text message, false)
      else (text message, false)
  | _ => (text message, false)
  end.

(** The backgrounds the component chooses from. *)
Inductive Background := background_body | primary_plainHoverBg | danger_softBg.

Definition background (message : UiMessage) : Background :=
  match role message with
  | system => background_body
  | _ =>
      if str_eqb (sender message) (lit "You") then primary_plainHoverBg
      else match role message with
           | assistant =>
               if startsWith (text message) (lit "Error: ")
                  || startsWith (text message) (lit "OpenAI API error: ")
               then danger_softBg else background_body
           | _ => background_body
           end
  end.

(** What the component computes of an assistant or other message before
    it returns its elements: the segments of the shown text, and for an
    assistant message the model label. [None]: the render throws. *)
Definition rendered (highlight : jsstring -> jsstring -> jsstring)
    (forceExpanded : bool) (message : UiMessage)
    : option (list MessageBlock * option jsstring) :=
  match parseAndHighlightCodeBlocks highlight
          (fst (collapse forceExpanded message)) with
  | None => None
  | Some blocks =>
      match role message with
      | assistant =>
          match prettyModel_of (model message) with
          | Some label => Some (blocks, Some label)
          | None => None
          end
      | _ => Some (blocks, None)
      end
  end.

End Render.

(* ------------------------------------------------------------------ *)
(** ** components/Composer.tsx: the history menu *)

Module HistoryMenu.

(** The label of a history entry:
    [text.length > 60 ? text.slice(0, 58) + '...' : text]. *)
Definition label (text : jsstring) : jsstring :=
  if (60 <? length text)%nat then slice text 0 (Some 58%Z) ++ lit "..."
  else text.

End HistoryMenu.

(* ------------------------------------------------------------------ *)
(** ** components/Settings.tsx: the stored key and model *)

Module Settings.

(** The browser's storage as this component sees it: absent, or the items
    under 'app-settings-openai-api-key' and
    'app-settings-openai-gpt-model'. *)
Inductive localStorage :=
| Undefined
| Items (apiKey gptModel : option jsstring).

(** [getItem(key) || fallback] *)
Definition item_or (item : option jsstring) (fallback : jsstring) : jsstring :=
  match item with
  | Some (c :: s) => c :: s
  | _ => fallback
  end.

Definition loadOpenAIApiKey (ls : localStorage) : jsstring :=
  match ls with
  | Undefined => []
  | Items k _ => item_or k []
  end.

Definition defaultModel : jsstring := lit "gpt-4".

Definition loadGptModel (fallback : jsstring) (ls : localStorage) : jsstring :=
  match ls with
  | Undefined => fallback
  | Items _ m => item_or m fallback
  end.

Definition storeOpenAIApiKey (apiKey : jsstring) (ls : localStorage)
    : localStorage :=
  match ls with
  | Undefined => Undefined
  | Items _ m =>
      match apiKey with
      | _ :: _ => Items (Some apiKey) m
      | [] => Items None m
      end
  end.

Definition storeGptModel (gptModel : jsstring) (ls : localStorage)
    : localStorage :=
  match ls with
  | Undefined => Undefined
  | Items k _ =>
      match gptModel with
      | _ :: _ => Items k (Some gptModel)
      | [] => Items k None
      end
  end.

(** [isValidOpenAIApiKey(apiKey)], as a condition. *)
Definition isValidOpenAIApiKey (apiKey : jsstring) : bool :=
  negb (str_eqb apiKey []) && startsWith apiKey (lit "sk-")
  && (40 <? length apiKey)%nat.

(** The dialog: its two state variables, the storage, and whether the
    page shows it. *)
Record Dialog := mkDialog
  { apiKey : jsstring;
    gptModel : jsstring;
    storage : localStorage;
    shown : bool }.

(** The component mounts: both state variables are read from storage. *)
Definition mount (ls : localStorage) (shown : bool) : Dialog :=
  mkDialog (loadOpenAIApiKey ls) (loadGptModel defaultModel ls) ls shown.

Definition handleSaveClicked (d : Dialog) : Dialog :=
  mkDialog (apiKey d) (gptModel d)
           (storeGptModel (gptModel d) (storeOpenAIApiKey (apiKey d) (storage d)))
           false.

Inductive event :=
| ApiKeyChange (value : jsstring)
| GptModelChange (value : option jsstring)
| ApiKeyDown (key : jsstring)
| ClickSave.

Definition step (d : Dialog) (e : event) : Dialog :=
  match e with
  | ApiKeyChange value => mkDialog value (gptModel d) (storage d) (shown d)
  | GptModelChange value =>
      mkDialog (apiKey d)
               (match value with
                | Some (c :: s) => c :: s
                | _ => lit "gpt-4"
                end)
               (storage d) (shown d)
  | ApiKeyDown key =>
      if str_eqb key (lit "Enter") then handleSaveClicked d else d
  | ClickSave =>
      (* the button is disabled unless the key is valid *)
      if isValidOpenAIApiKey (apiKey d) then handleSaveClicked d else d
  end.

Definition run (d : Dialog) (evs : list event) : Dialog := fold_left step evs d.

End Settings.

(* ------------------------------------------------------------------ *)
(** ** pages/api/chat.ts: the re-streaming of server-sent events and the
       route handler *)

Module Chat.

(** What the event-source parser hands to the callback. *)
Inductive sse_event :=
| Event (data : jsstring)
| ReconnectInterval.

(** The state of the stream behind the controller. *)
Inductive stream_state := Readable | Closed | Errored.

(** The stream behind the controller, as the Streams standard keeps it:
    the chunks waiting in the queue, the number of reads waiting for a
    chunk, whether a close was requested, and the state. Two traces are
    kept beside them: the chunks the consumer was handed, and every chunk
    [enqueue] accepted, which the stream itself forgets when it drops its
    queue. *)
Record controller := mkController
  { accepted : list (list byte);
    delivered : list (list byte);
    queue : list (list byte);
    readRequests : nat;
    closeRequested : bool;
    state : stream_state }.

(** The stream [new ReadableStream] makes, before [start] runs. *)
Definition new_stream : controller := mkController [] [] [] 0 false Readable.

(** ReadableStreamDefaultControllerCanCloseOrEnqueue: no close was
    requested and the stream is readable. *)
Definition canCloseOrEnqueue (ctl : controller) : bool :=
  negb (closeRequested ctl)
  && match state ctl with Readable => true | _ => false end.

(** [controller.enqueue(chunk)]; [None]: TypeError. A waiting read takes
    the chunk at once, otherwise it joins the queue. *)
Definition enqueue (chunk : list byte) (ctl : controller) : option controller :=
  if canCloseOrEnqueue ctl then
    Some (match readRequests ctl with
          | S n =>
              mkController (accepted ctl ++ [chunk]) (delivered ctl ++ [chunk])
                           (queue ctl) n (closeRequested ctl) (state ctl)
          | O =>
              mkController (accepted ctl ++ [chunk]) (delivered ctl)
                           (queue ctl ++ [chunk]) 0 (closeRequested ctl)
                           (state ctl)
          end)
  else None.

(** [controller.close()]; [None]: TypeError. The close is requested; the
    stream is closed at once only when no chunk waits in the queue, and
    the waiting reads then end. *)
Definition close (ctl : controller) : option controller :=
  if canCloseOrEnqueue ctl then
    Some (match queue ctl with
          | [] => mkController (accepted ctl) (delivered ctl) [] 0 true Closed
          | _ :: _ =>
              mkController (accepted ctl) (delivered ctl) (queue ctl)
                           (readRequests ctl) true (state ctl)
          end)
  else None.

(** [controller.error(e)]: nothing on a stream that is not readable; a
    readable one, also one whose close is only requested, drops its queue
    and is errored, and the waiting reads are rejected. *)
Definition error (ctl : controller) : controller :=
  match state ctl with
  | Readable =>
      mkController (accepted ctl) (delivered ctl) [] 0 (closeRequested ctl)
                   Errored
  | _ => ctl
  end.

(** A read of the consumer of the response body: it takes the first
    chunk of the queue, and closes the stream when that was the last one
    and a close was requested; with an empty queue it waits. On a closed
    or errored stream it changes nothing. *)
Definition read (ctl : controller) : controller :=
  match state ctl with
  | Readable =>
      match queue ctl with
      | chunk :: rest =>
          mkController (accepted ctl) (delivered ctl ++ [chunk]) rest
                       (readRequests ctl) (closeRequested ctl)
                       (match rest with
                        | [] => if closeRequested ctl then Closed else Readable
                        | _ :: _ => Readable
                        end)
      | [] =>
          mkController (accepted ctl) (delivered ctl) []
                       (S (readRequests ctl)) (closeRequested ctl) Readable
      end
  | _ => ctl
  end.

(** The traces agree with the stream: the chunks handed over and the
    chunks waiting are, in order, the chunks accepted, up to those an
    errored stream dropped; and a read waits only on an empty queue. *)
Definition stream_ok (c : controller) : Prop :=
  (exists dropped,
      accepted c = delivered c ++ queue c ++ dropped
      /\ (state c <> Errored -> dropped = []))
  /\ (queue c <> [] -> readRequests c = 0%nat).

(** [v[0]] for a value read from JSON; outer [None]: TypeError on
    undefined and null. *)
Definition first_of (v : jsvalue) : option jsvalue :=
  match v with
  | None | Some JNull => None
  | Some (JArr items) => Some (hd_error items)
  | Some (JObj props) => Some (get_own (lit "0") props)
  | Some (JStr s) => Some (match s with c :: _ => Some (JStr [c]) | [] => None end)
  | Some _ => Some None
  end.

(** [v.k] for a key that no prototype defines; outer [None]: TypeError on
    undefined and null. *)
Definition member (k : jsstring) (v : jsvalue) : option jsvalue :=
  match v with
  | None | Some JNull => None
  | Some (JObj props) => Some (get_own k props)
  | Some _ => Some None
  end.

(** [v?.k] *)
Definition optional_member (k : jsstring) (v : jsvalue) : jsvalue :=
  match member k v with
  | Some x => x
  | None => None
  end.

(** [json.choices[0].delta]; [None]: TypeError. *)
Definition delta_of (json : JS.json) : option jsvalue :=
  match member (lit "choices") (Some json) with
  | None => None
  | Some choices =>
      match first_of choices with
      | None => None
      | Some choice => member (lit "delta") choice
      end
  end.

Section Restream.

(** The digits JSON.stringify and ToString write for a number. *)
Variable number_text : bool -> N -> Z -> jsstring.
Variable number_string : bool -> N -> Z -> jsstring.

(** ToString of a truthy value read from JSON, the conversion
    [encoder.encode] applies to its argument; [None]: TypeError, for an
    object whose own toString property hides the inherited method. *)
Fixpoint ToString (v : JS.json) : option jsstring :=
  match v with
  | JNull => Some (lit "null")
  | JBool true => Some (lit "true")
  | JBool false => Some (lit "false")
  | JNum neg m e => Some (number_string neg m e)
  | JStr s => Some s
  | JArr items =>
      (fix join (l : list JS.json) : option jsstring :=
         match l with
         | [] => Some []
         | x :: r =>
             let sx := match x with
                       | JNull => Some []
                       | _ => ToString x
                       end in
             match sx, r with
             | None, _ => None
             | Some a, [] => Some a
             | Some a, _ :: _ =>
                 match join r with
                 | Some b => Some (a ++ 44 :: b)
                 | None => None
                 end
             end
         end) items
  | JObj props =>
      if has_key (lit "toString") props then None
      else Some (lit "[object Object]")
  end.

(** [JSON.stringify({model: json.model})] *)
Definition firstPacket (model : jsvalue) : jsstring :=
  match model with
  | Some v => JSON_stringify number_text (JObj [(lit "model", v)])
  | None => JSON_stringify number_text (JObj [])
  end.

(** The state across the calls of the callback: [sentFirstPacket] and the
    controller. *)
Record relay := mkRelay
  { sentFirstPacket : bool;
    ctl : controller }.

(** The body of the [try] block for a parsed chunk; [None]: an exception,
    which the [catch] turns into [controller.error]. The flag is set
    before the first packet is enqueued, so it stays set when enqueueing
    throws. *)
Definition transmit (json : JS.json) (r : relay) : relay * bool :=
  match delta_of json with
  | None => (r, false)
  | Some delta =>
      if truthy (optional_member (lit "role") delta) then (r, true)
      else
        let first :=
          if sentFirstPacket r then Some (ctl r)
          else enqueue (TextEncoder_encode
                          (firstPacket (optional_member (lit "model") (Some json))))
                       (ctl r) in
        match first with
        | None => (mkRelay true (ctl r), false)
        | Some c1 =>
            let content := optional_member (lit "content") delta in
            let text := if truthy content
                        then match content with
                             | Some v => ToString v
                             | None => Some []
                             end
                        else Some [] in
            match text with
            | None => (mkRelay true c1, false)
            | Some t =>
                match enqueue (TextEncoder_encode t) c1 with
                | Some c2 => (mkRelay true c2, true)
                | None => (mkRelay true c1, false)
                end
            end
        end
  end.

(** One call of the callback. The second component is false when the
    call throws, which ends the feeding of the parser. *)
Definition callback (r : relay) (event : sse_event) : relay * bool :=
  match event with
  | ReconnectInterval => (r, true)
  | Event data =>
      if str_eqb data (lit "[DONE]") then
        match close (ctl r) with
        | Some c => (mkRelay (sentFirstPacket r) c, true)
        | None => (r, false)
        end
      else
        match JSON_parse data with
        | None => (mkRelay (sentFirstPacket r) (error (ctl r)), true)
        | Some json =>
            match transmit json r with
            | (r', true) => (r', true)
            | (r', false) =>
                (mkRelay (sentFirstPacket r') (error (ctl r')), true)
            end
        end
  end.

(** What happens to the stream while [start] runs: the parser hands an
    event of the upstream body to the callback, or the consumer reads.
    The consumer runs between the chunks of the body; every
    interleaving is a schedule. *)
Inductive action :=
| Upstream (event : sse_event)
| ReaderRead.

(** A schedule, in order. A call of the callback that throws rejects
    [start]; the stream is then errored if it is still readable, and the
    rest of the body is not read. *)
Fixpoint feed (r : relay) (schedule : list action) : relay :=
  match schedule with
  | [] => r
  | ReaderRead :: rest => feed (mkRelay (sentFirstPacket r) (read (ctl r))) rest
  | Upstream event :: rest =>
      match callback r event with
      | (r', true) => feed r' rest
      | (r', false) => mkRelay (sentFirstPacket r') (error (ctl r'))
      end
  end.

(** The stream of a successful upstream response under a schedule. *)
Definition restream (schedule : list action) : controller :=
  ctl (feed (mkRelay false new_stream) schedule).

(** What the accepted chunks look like: none, or the first packet
    followed by text chunks. *)
Definition first_packet_first (q : list (list byte)) : Prop :=
  q = []
  \/ exists model texts,
       q = TextEncoder_encode (firstPacket model) :: map TextEncoder_encode texts.

(** The state of the callback agrees with the chunks: nothing is accepted
    before the flag is set, and a stream that still accepts chunks when
    the flag is set holds the first packet. *)
Definition relay_ok (r : relay) : Prop :=
  (sentFirstPacket r = false -> accepted (ctl r) = [])
  /\ (sentFirstPacket r = true -> canCloseOrEnqueue (ctl r) = true ->
      accepted (ctl r) <> [])
  /\ first_packet_first (accepted (ctl r)).

End Restream.

(** The body of the request, as the handler destructures it. *)
Record ChatApiInput := mkChatApiInput
  { apiKey : jsvalue;
    messages : list UiMessage;
    model : jsvalue;
    temperature : jsvalue;
    max_tokens : jsvalue }.

(** [interface ChatMessage] of the upstream request. *)
Record ChatMessage := mkChatMessage
  { role : Role;
    content : jsstring }.

(** What the handler does: answer 400 with a text, or call
    [OpenAIStream] with a key and a payload and answer with its stream. *)
Inductive reply :=
| BadRequest (body : jsstring)
| Stream (apiKey : JS.json) (model : JS.json) (messages : list ChatMessage)
         (temperature max_tokens : JS.json).

Definition missing_key : jsstring :=
  lit "Error: missing OpenAI API Key. Add it on the client side (Settings icon) or server side (your deployment).".

Definition or_default (v : jsvalue) (d : JS.json) : JS.json :=
  match v with
  | Some x => x
  | None => d
  end.

(** [handler(req)]; [env] is [process.env.OPENAI_API_KEY]. *)
Definition handler (input : ChatApiInput) (env : option jsstring) : reply :=
  let chatGptInputMessages :=
    map (fun m => mkChatMessage (ChatMessage.role m) (text m)) (messages input) in
  let apiKey :=
    if truthy (apiKey input) then or_default (apiKey input) (JStr [])
    else match env with
         | Some (c :: k) => JStr (c :: k)
         | _ => JStr []
         end in
  if negb (truthy (Some apiKey)) then BadRequest missing_key
  else Stream apiKey
              (or_default (model input) (JStr (lit "gpt-4")))
              chatGptInputMessages
              (or_default (temperature input) (JNum false 5 (-1)))
              (or_default (max_tokens input) (JNum false 2048 0)).

End Chat.

Import Composer Conversation.

(** Sending is disabled and no request is pending. *)
Definition locked (st : App) : Prop :=
  pending st = [] /\ disableCompose st = true.

(** The stored history after a series of sends. *)
Definition history_after (texts : list jsstring) (ls : localStorage)
    : localStorage :=
  fold_left (fun ls T => appendMessageToHistory T defaultMaxMessages ls) texts ls.

(* ================================================================== *)
(** * Lemmas and theorems *)

(** Closed statements about concrete inputs are settled by evaluation. *)
Ltac by_evaluation :=
  repeat match goal with |- _ /\ _ => split end; vm_compute; reflexivity.

(* ------------------------------------------------------------------ *)
(** ** Strings *)

Lemma str_eqb_eq (a b : jsstring) : str_eqb a b = true <-> a = b.
Proof.
  revert b; induction a as [|x a IH]; intros [|y b]; simpl;
    try (split; [discriminate | congruence]); try tauto.
  rewrite andb_true_iff, N.eqb_eq, IH. split.
  - intros [-> ->]; reflexivity.
  - intros E; injection E; auto.
Qed.

Lemma str_eqb_refl (a : jsstring) : str_eqb a a = true.
Proof. apply str_eqb_eq; reflexivity. Qed.

Lemma str_eqb_neq (a b : jsstring) : str_eqb a b = false <-> a <> b.
Proof.
  rewrite <- str_eqb_eq. destruct (str_eqb a b); split; congruence.
Qed.

Lemma indexOf_range (s : jsstring) (c : code_unit) :
  (indexOf s c = -1 \/ 0 <= indexOf s c < Z.of_nat (length s))%Z.
Proof.
  induction s as [|x s IH]; simpl; [left; reflexivity|].
  destruct (x =? c); [right; lia|].
  destruct (indexOf s c <? 0)%Z eqn:E; [left; reflexivity|].
  apply Z.ltb_ge in E. right. lia.
Qed.

Lemma indexOf_app (s d : jsstring) (c : code_unit) :
  (0 <= indexOf s c)%Z -> indexOf (s ++ d) c = indexOf s c.
Proof.
  induction s as [|x s IH]; simpl; [lia|].
  destruct (x =? c); [reflexivity|].
  destruct (indexOf s c <? 0)%Z eqn:E; [lia|].
  intros _. apply Z.ltb_ge in E. rewrite (IH E), (proj2 (Z.ltb_ge _ _) E).
  reflexivity.
Qed.

Lemma substring_prefix {A} (s : list A) (n : Z) :
  (0 <= n)%Z -> substring s 0 (Some n) = firstn (Z.to_nat n) s.
Proof.
  intros Hn. unfold substring, clamp.
  replace (Z.to_nat (Z.max 0 (Z.min 0 (Z.of_nat (length s))))) with 0%nat by lia.
  rewrite Nat.min_0_l, Nat.max_0_l, Nat.sub_0_r. simpl skipn.
  destruct (Z_le_gt_dec n (Z.of_nat (length s))).
  - f_equal. lia.
  - replace (Z.to_nat (Z.max 0 (Z.min n (Z.of_nat (length s))))) with (length s) by lia.
    rewrite !firstn_all2 by lia. reflexivity.
Qed.

Lemma substring_suffix {A} (s : list A) (n : Z) :
  (0 <= n)%Z -> substring s n None = skipn (Z.to_nat n) s.
Proof.
  intros Hn. unfold substring, clamp.
  set (i := Z.to_nat (Z.max 0 (Z.min n (Z.of_nat (length s))))).
  assert (Hi : (i <= length s)%nat) by (unfold i; lia).
  rewrite Nat.min_l, Nat.max_r by exact Hi.
  rewrite firstn_all2 by (rewrite length_skipn; lia).
  destruct (Z_le_gt_dec n (Z.of_nat (length s))).
  - f_equal. unfold i. lia.
  - replace i with (length s) by (unfold i; lia).
    rewrite !skipn_all2 by lia. reflexivity.
Qed.

Lemma startsWith_app (s d p : jsstring) :
  startsWith s p = true -> startsWith (s ++ d) p = true.
Proof.
  revert s; induction p as [|x p IH]; intros s; [reflexivity|].
  destruct s as [|y s]; simpl; [discriminate|].
  rewrite !andb_true_iff. intros [? ?]; auto.
Qed.

(* ------------------------------------------------------------------ *)
(** ** The stream consumer, pass by pass *)

Lemma set_text_set_text (m : UiMessage) (a b : jsstring) :
  set_text (set_text m a) b = set_text m b.
Proof. reflexivity. Qed.

Lemma set_text_same (m : UiMessage) : set_text m (text m) = m.
Proof. destruct m; reflexivity. Qed.

(** One pass, read through [preamble] and [metadata]. *)
Lemma receive_eq (m : UiMessage) (value : list byte) :
  receive m value =
    let t := text m ++ TextDecoder_decode value in
    if truthy (model m) then (set_text m t, NoAttempt)
    else match preamble t with
         | None => (set_text m t, NoAttempt)
         | Some _ =>
             match metadata t with
             | Some (v, rest) => (set_text (set_model m v) rest, Parsed)
             | None => (set_text m t, ParseFailed)
             end
         end.
Proof.
  unfold receive, metadata, preamble. cbn zeta.
  cbn [text model set_text set_model].
  set (t := text m ++ TextDecoder_decode value).
  destruct (truthy (model m)); cbn [negb andb]; [reflexivity|].
  destruct (startsWith t (lit "{")); [|reflexivity].
  destruct (indexOf t 125 >? 0)%Z; [|reflexivity].
  destruct (JSON_parse (substring t 0 (Some (indexOf t 125 + 1)%Z)))
    as [parsed|]; [|reflexivity].
  destruct (get_model parsed); reflexivity.
Qed.

Lemma preamble_app (t d p r : jsstring) :
  preamble t = Some (p, r) -> preamble (t ++ d) = Some (p, r ++ d).
Proof.
  unfold preamble.
  destruct (startsWith t (lit "{")) eqn:Hs; [|discriminate].
  rewrite (startsWith_app _ d _ Hs).
  destruct (indexOf t 125 >? 0)%Z eqn:Hk; [|discriminate].
  apply Z.gtb_lt in Hk.
  destruct (indexOf_range t 125) as [E|[_ Hlt]]; [lia|].
  rewrite indexOf_app by lia.
  rewrite (proj2 (Z.gtb_lt _ _) Hk).
  rewrite !substring_prefix, !substring_suffix by lia.
  intros E; injection E as <- <-.
  rewrite firstn_app, skipn_app.
  replace (Z.to_nat (indexOf t 125 + 1) - length t)%nat with 0%nat by lia.
  simpl. rewrite app_nil_r. reflexivity.
Qed.

Lemma metadata_app (t d p r : jsstring) :
  preamble t = Some (p, r) ->
  metadata (t ++ d) =
    match metadata t with
    | Some (v, r') => Some (v, r' ++ d)
    | None => None
    end.
Proof.
  intros H. unfold metadata. rewrite (preamble_app _ d _ _ H), H.
  destruct (JSON_parse p) as [parsed|]; [|reflexivity].
  destruct (get_model parsed); reflexivity.
Qed.

Lemma metadata_none_prefix (t d : jsstring) :
  metadata (t ++ d) = None -> metadata t = None.
Proof.
  destruct (preamble t) as [[p r]|] eqn:H.
  - rewrite (metadata_app _ d _ _ H).
    destruct (metadata t) as [[v r']|]; [discriminate | reflexivity].
  - intros _. unfold metadata. rewrite H. reflexivity.
Qed.

Lemma metadata_preamble (t : jsstring) (v : jsvalue) (r : jsstring) :
  metadata t = Some (v, r) -> exists p, preamble t = Some (p, r).
Proof.
  unfold metadata. destruct (preamble t) as [[p r']|]; [|discriminate].
  destruct (JSON_parse p) as [parsed|]; [|discriminate].
  destruct (get_model parsed); [|discriminate].
  intros E; injection E as <- <-. eauto.
Qed.

Lemma decoded_cons (value : list byte) (chunks : list (list byte)) :
  decoded (value :: chunks) = TextDecoder_decode value ++ decoded chunks.
Proof. reflexivity. Qed.

(** Once the model is truthy, every pass only appends. *)
Lemma receive_all_truthy (chunks : list (list byte)) (m : UiMessage) :
  truthy (model m) = true ->
  receive_all m chunks =
    (set_text m (text m ++ decoded chunks), repeat NoAttempt (length chunks)).
Proof.
  revert m; induction chunks as [|value chunks IH]; intros m Hm.
  - simpl. unfold decoded. simpl. rewrite app_nil_r, set_text_same. reflexivity.
  - simpl. rewrite receive_eq. cbn zeta. rewrite Hm.
    rewrite IH by exact Hm. simpl.
    rewrite decoded_cons, app_assoc. reflexivity.
Qed.

(** A text whose cut never parses is kept whole. *)
Lemma receive_all_unparsed (chunks : list (list byte)) (m : UiMessage) :
  truthy (model m) = false ->
  metadata (text m ++ decoded chunks) = None ->
  fst (receive_all m chunks) = set_text m (text m ++ decoded chunks)
  /\ forallb (fun a => negb (is_parsed a)) (snd (receive_all m chunks)) = true.
Proof.
  revert m; induction chunks as [|value chunks IH]; intros m Hm Hmd.
  - simpl. unfold decoded. simpl. rewrite app_nil_r, set_text_same. auto.
  - rewrite decoded_cons, app_assoc in Hmd.
    pose proof (metadata_none_prefix _ _ Hmd) as Hmd1.
    simpl. rewrite receive_eq. cbn zeta. rewrite Hm, Hmd1.
    assert (IH' := IH (set_text m (text m ++ TextDecoder_decode value)) Hm Hmd).
    simpl text in IH'. rewrite set_text_set_text in IH'.
    rewrite decoded_cons, app_assoc.
    destruct (preamble (text m ++ TextDecoder_decode value));
      destruct (receive_all _ chunks) as [m2 l]; simpl in *; tauto.
Qed.

(** After a failed parse, every later pass parses the same cut again, and
    fails again. *)
Lemma receive_all_failing (chunks : list (list byte)) (m : UiMessage)
    (p r : jsstring) :
  truthy (model m) = false ->
  preamble (text m) = Some (p, r) ->
  metadata (text m) = None ->
  receive_all m chunks =
    (set_text m (text m ++ decoded chunks), repeat ParseFailed (length chunks)).
Proof.
  revert m r; induction chunks as [|value chunks IH]; intros m r Hm Hp Hmd.
  - simpl. unfold decoded. simpl. rewrite app_nil_r, set_text_same. reflexivity.
  - simpl. rewrite receive_eq. cbn zeta. rewrite Hm.
    rewrite (preamble_app _ (TextDecoder_decode value) _ _ Hp).
    rewrite (metadata_app _ (TextDecoder_decode value) _ _ Hp), Hmd.
    rewrite (IH (set_text m (text m ++ TextDecoder_decode value))
                (r ++ TextDecoder_decode value)); simpl; auto.
    + rewrite decoded_cons, app_assoc. reflexivity.
    + apply preamble_app; exact Hp.
    + rewrite (metadata_app _ (TextDecoder_decode value) _ _ Hp), Hmd. reflexivity.
Qed.

(** A text whose cut parses to a truthy model: one parse, the model set,
    the text after the cut kept. *)
Lemma receive_all_parsed (chunks : list (list byte)) (m : UiMessage)
    (v : jsvalue) (rest : jsstring) :
  truthy (model m) = false ->
  preamble (text m) = None ->
  metadata (text m ++ decoded chunks) = Some (v, rest) ->
  truthy v = true ->
  fst (receive_all m chunks) = set_text (set_model m v) rest
  /\ filter (fun a => negb (is_none a)) (snd (receive_all m chunks)) = [Parsed].
Proof.
  revert m; induction chunks as [|value chunks IH]; intros m Hm Hp Hmd Hv.
  - unfold decoded in Hmd. simpl in Hmd. rewrite app_nil_r in Hmd.
    apply metadata_preamble in Hmd. destruct Hmd as [p Hmd]. congruence.
  - rewrite decoded_cons, app_assoc in Hmd.
    simpl. rewrite receive_eq. cbn zeta. rewrite Hm.
    destruct (preamble (text m ++ TextDecoder_decode value)) as [[p r]|] eqn:Hp1.
    + rewrite (metadata_app _ _ _ _ Hp1) in Hmd.
      destruct (metadata (text m ++ TextDecoder_decode value)) as [[v' r']|];
        [|discriminate].
      injection Hmd as -> <-.
      rewrite receive_all_truthy by exact Hv. simpl.
      split; [reflexivity|].
      induction (length chunks); simpl; auto.
    + assert (IH' := IH (set_text m (text m ++ TextDecoder_decode value)) Hm Hp1 Hmd Hv).
      destruct (receive_all _ chunks) as [m2 l]. simpl in *. exact IH'.
Qed.

(** The closed form: on a settled stream text the consumer leaves
    [outcome], however the text arrives. *)
Lemma receive_all_outcome (chunks : list (list byte)) (m : UiMessage) :
  truthy (model m) = false ->
  text m = [] ->
  settled (decoded chunks) = true ->
  fst (receive_all m chunks) = outcome m (decoded chunks).
Proof.
  intros Hm Ht Hs. unfold settled, outcome in *.
  destruct (metadata (decoded chunks)) as [[v rest]|] eqn:Hmd.
  - apply (receive_all_parsed chunks m v rest); auto.
    + rewrite Ht. reflexivity.
    + rewrite Ht. exact Hmd.
  - destruct (receive_all_unparsed chunks m Hm) as [E _].
    + rewrite Ht. exact Hmd.
    + rewrite E, Ht. reflexivity.
Qed.

(* ------------------------------------------------------------------ *)
(** ** The stream consumer on a whole stream *)

Lemma preamble_exact (P T : jsstring) :
  startsWith P (lit "{") = true ->
  indexOf P 125 = (Z.of_nat (length P) - 1)%Z ->
  preamble (P ++ T) = Some (P, T).
Proof.
  intros Hs Hk.
  assert (Hlen : (2 <= length P)%nat).
  { change (lit "{") with [123] in Hs.
    destruct P as [|c P]; [discriminate|].
    cbn [startsWith] in Hs. rewrite andb_true_r in Hs.
    apply N.eqb_eq in Hs. subst c.
    destruct P; [discriminate | simpl; lia]. }
  assert (Hp : preamble P = Some (P, [])).
  { unfold preamble. rewrite Hs, Hk.
    replace (Z.of_nat (length P) - 1 >? 0)%Z with true
      by (symmetry; apply Z.gtb_lt; lia).
    rewrite substring_prefix, substring_suffix by lia.
    replace (Z.to_nat (Z.of_nat (length P) - 1 + 1)) with (length P) by lia.
    rewrite firstn_all, skipn_all. reflexivity. }
  apply (preamble_app _ T) in Hp. exact Hp.
Qed.

(** C1 (amended): for every stream whose text is an object text P
    followed by a text T, where P opens with a brace, has its only
    closing brace at its end, parses, and has a truthy model member, and
    for every split of the stream into reads that decode to the pieces of
    that text, the consumer makes exactly one parse attempt, which
    succeeds; the pending message's model is P's model member and its
    final text is T. *)
Theorem preamble_then_text (uid : jsstring) (chunks : list (list byte))
    (P T : jsstring) (props : list (jsstring * json)) :
  decoded chunks = TextDecoder_decode (concat chunks) ->
  TextDecoder_decode (concat chunks) = P ++ T ->
  startsWith P (lit "{") = true ->
  indexOf P 125 = (Z.of_nat (length P) - 1)%Z ->
  JSON_parse P = Some (JObj props) ->
  truthy (get_own (lit "model") props) = true ->
  let r := receive_all (createUiMessage uid assistant []) chunks in
  text (fst r) = T
  /\ model (fst r) = get_own (lit "model") props
  /\ filter (fun a => negb (is_none a)) (snd r) = [Parsed].
Proof.
  intros Hal Hst Hs Hk Hparse Hv r.
  assert (Hmd : metadata (decoded chunks) = Some (get_own (lit "model") props, T)).
  { rewrite Hal, Hst. unfold metadata. rewrite (preamble_exact P T Hs Hk), Hparse.
    reflexivity. }
  destruct (receive_all_parsed chunks (createUiMessage uid assistant [])
              (get_own (lit "model") props) T) as [E1 E2]; auto.
  subst r. rewrite E1, E2. auto.
Qed.

Lemma preamble_then_text_witness :
  let r := receive_all (createUiMessage (lit "b1") assistant [])
             [TextEncoder_encode (jlit "{'mod");
              TextEncoder_encode (jlit "el':'gpt-4'}Hel");
              TextEncoder_encode (lit "lo")] in
  text (fst r) = lit "Hello"
  /\ model (fst r) = Some (JStr (lit "gpt-4"))
  /\ filter (fun a => negb (is_none a)) (snd r) = [Parsed].
Proof.
  apply (preamble_then_text (lit "b1")
           [TextEncoder_encode (jlit "{'mod");
            TextEncoder_encode (jlit "el':'gpt-4'}Hel");
            TextEncoder_encode (lit "lo")]
           (jlit "{'model':'gpt-4'}") (lit "Hello")
           [(lit "model", JStr (lit "gpt-4"))]); reflexivity.
Defined.

(** C1, as stated, fails: a stream that opens with a valid object holding
    a nested object is cut at the inner closing brace; the cut does not
    parse, no model is set, and the whole stream stays in the text. *)
Lemma nested_object_is_not_extracted :
  JSON_parse (jlit "{'model':'gpt-4','usage':{}}")
    = Some (JObj [(lit "model", JStr (lit "gpt-4")); (lit "usage", JObj [])])
  /\ receive_all (createUiMessage (lit "b1") assistant [])
       [TextEncoder_encode (jlit "{'model':'gpt-4','usage':{}}Hi")]
     = (set_text (createUiMessage (lit "b1") assistant [])
                 (jlit "{'model':'gpt-4','usage':{}}Hi"),
        [ParseFailed]).
Proof. by_evaluation. Qed.

(** C2 (amended): after a pass that parsed the preamble and set a truthy
    model, no later pass attempts a parse and the text only grows by the
    chunks; after a pass whose parse failed, every later pass parses the
    same cut again and fails again, and the text only grows by the
    chunks: no prefix is removed. *)
Theorem after_the_first_attempt (m m1 : UiMessage) (a : attempt)
    (value : list byte) (rest : list (list byte)) :
  receive m value = (m1, a) ->
  (a = Parsed -> truthy (model m1) = true ->
   receive_all m1 rest
     = (set_text m1 (text m1 ++ decoded rest), repeat NoAttempt (length rest)))
  /\ (a = ParseFailed ->
      receive_all m1 rest
        = (set_text m1 (text m1 ++ decoded rest),
           repeat ParseFailed (length rest))).
Proof.
  intros H. split.
  - intros _ Hv. apply receive_all_truthy; exact Hv.
  - intros ->. rewrite receive_eq in H. cbn zeta in H.
    destruct (truthy (model m)) eqn:Hm; [discriminate|].
    destruct (preamble (text m ++ TextDecoder_decode value)) as [[p r]|] eqn:Hp;
      [|discriminate].
    destruct (metadata (text m ++ TextDecoder_decode value)) as [[v r']|] eqn:Hmd;
      [discriminate|].
    injection H as <-.
    apply (receive_all_failing rest _ p r); simpl; auto.
Qed.

Lemma after_the_first_attempt_witness :
  receive_all (set_text (createUiMessage (lit "b1") assistant []) (lit "{a}"))
              [TextEncoder_encode (lit "b"); TextEncoder_encode (lit "c")]
  = (set_text (createUiMessage (lit "b1") assistant []) (lit "{a}bc"),
     [ParseFailed; ParseFailed]).
Proof.
  exact (proj2 (after_the_first_attempt
                  (createUiMessage (lit "b1") assistant [])
                  (set_text (createUiMessage (lit "b1") assistant []) (lit "{a}"))
                  ParseFailed (TextEncoder_encode (lit "{a}"))
                  [TextEncoder_encode (lit "b"); TextEncoder_encode (lit "c")]
                  eq_refl) eq_refl).
Defined.

(** C2, as stated, fails: the cut that failed to parse is parsed again on
    the next chunk; and after a parse that set no truthy model, a later
    chunk is parsed as metadata and a prefix is removed once more. *)
Lemma parse_is_attempted_again :
  snd (receive_all (createUiMessage (lit "b1") assistant [])
         [TextEncoder_encode (lit "{a}"); TextEncoder_encode (lit "b")])
    = [ParseFailed; ParseFailed]
  /\ receive_all (createUiMessage (lit "b1") assistant [])
       [TextEncoder_encode (lit "{}");
        TextEncoder_encode (jlit "{'model':'x'}hi")]
     = (set_model (set_text (createUiMessage (lit "b1") assistant []) (lit "hi"))
                  (Some (JStr (lit "x"))),
        [Parsed; Parsed]).
Proof. by_evaluation. Qed.

(** C3 (amended): for every byte sequence and every two splits of it into
    reads that decode to the pieces of its text, if the text is settled
    (its cut, when it parses, yields a truthy model) then both runs leave
    the same pending message: same text, same model. *)
Theorem chunking_independent (uid : jsstring) (c1 c2 : list (list byte)) :
  concat c1 = concat c2 ->
  decoded c1 = TextDecoder_decode (concat c1) ->
  decoded c2 = TextDecoder_decode (concat c2) ->
  settled (TextDecoder_decode (concat c1)) = true ->
  fst (receive_all (createUiMessage uid assistant []) c1)
  = fst (receive_all (createUiMessage uid assistant []) c2).
Proof.
  intros Hc H1 H2 Hs.
  rewrite !receive_all_outcome; try reflexivity.
  - rewrite H1, H2, Hc. reflexivity.
  - rewrite H2, <- Hc. exact Hs.
  - rewrite H1. exact Hs.
Qed.

Lemma chunking_independent_witness :
  fst (receive_all (createUiMessage (lit "b1") assistant [])
         [TextEncoder_encode (jlit "{'mod");
          TextEncoder_encode (jlit "el':'gpt-4'}Hel");
          TextEncoder_encode (lit "lo")])
  = fst (receive_all (createUiMessage (lit "b1") assistant [])
           [TextEncoder_encode (jlit "{'model':'gpt-4'}Hello")]).
Proof.
  apply (chunking_independent (lit "b1")
           [TextEncoder_encode (jlit "{'mod");
            TextEncoder_encode (jlit "el':'gpt-4'}Hel");
            TextEncoder_encode (lit "lo")]
           [TextEncoder_encode (jlit "{'model':'gpt-4'}Hello")]); reflexivity.
Defined.

(** C3, as stated, fails: the same bytes, split after an opening object
    without a model, leave another text and another model than unsplit. *)
Lemma chunk_boundary_changes_the_message :
  concat [TextEncoder_encode (lit "{}");
          TextEncoder_encode (jlit "{'model':'x'}hi")]
    = concat [TextEncoder_encode (jlit "{}{'model':'x'}hi")]
  /\ fst (receive_all (createUiMessage (lit "b1") assistant [])
            [TextEncoder_encode (lit "{}");
             TextEncoder_encode (jlit "{'model':'x'}hi")])
     = set_model (set_text (createUiMessage (lit "b1") assistant []) (lit "hi"))
                 (Some (JStr (lit "x")))
  /\ fst (receive_all (createUiMessage (lit "b1") assistant [])
            [TextEncoder_encode (jlit "{}{'model':'x'}hi")])
     = set_model (set_text (createUiMessage (lit "b1") assistant [])
                           (jlit "{'model':'x'}hi"))
                 None.
Proof. by_evaluation. Qed.

(** X1: A stream with no leading object that parses is content as a whole,
    when the reads decode to the pieces of its text: the final text is
    the stream's text, the model is untouched, no parse succeeds. *)
Lemma unparsed_stream_is_content (uid : jsstring) (chunks : list (list byte)) :
  decoded chunks = TextDecoder_decode (concat chunks) ->
  metadata (TextDecoder_decode (concat chunks)) = None ->
  fst (receive_all (createUiMessage uid assistant []) chunks)
    = createUiMessage uid assistant (TextDecoder_decode (concat chunks))
  /\ forallb (fun a => negb (is_parsed a))
             (snd (receive_all (createUiMessage uid assistant []) chunks)) = true.
Proof.
  intros Hal Hmd.
  destruct (receive_all_unparsed chunks (createUiMessage uid assistant []))
    as [E1 E2]; simpl; try reflexivity.
  - rewrite Hal. exact Hmd.
  - rewrite E1, E2, Hal. auto.
Qed.

(** C4 (the code departs from it): the two bytes of U+00E9, read as one
    chunk, are that character; read as one chunk each, both are replaced
    by U+FFFD, so the final text is not the stream's text. The stream has
    no leading object. *)
Lemma split_character_is_replaced :
  TextDecoder_decode (concat [[xc3]; [xa9]]) = [233]
  /\ metadata (TextDecoder_decode (concat [[xc3]; [xa9]])) = None
  /\ receive_all (createUiMessage (lit "b1") assistant []) [[xc3]; [xa9]]
     = (createUiMessage (lit "b1") assistant [65533; 65533],
        [NoAttempt; NoAttempt]).
Proof. by_evaluation. Qed.

(* ------------------------------------------------------------------ *)
(** ** ASCII text through TextEncoder and TextDecoder *)

Lemma to_N_byte_of_N (n : N) : n < 256 -> Byte.to_N (byte_of_N n) = n.
Proof.
  intros H. unfold byte_of_N. rewrite N.mod_small by exact H.
  destruct (Byte.of_N n) as [b|] eqn:E.
  - apply Byte.to_of_N in E. exact E.
  - apply Byte.of_N_None_iff in E. lia.
Qed.

Lemma encode_ascii (s : jsstring) :
  ascii_text s -> TextEncoder_encode s = map byte_of_N s.
Proof.
  induction 1 as [|c s Hc Hs IH]; [reflexivity|].
  cbn [TextEncoder_encode map].
  unfold is_lead_surrogate, is_trail_surrogate.
  replace (55296 <=? c) with false by (symmetry; apply N.leb_gt; lia).
  replace (56320 <=? c) with false by (symmetry; apply N.leb_gt; lia).
  cbn [andb]. unfold utf8_bytes.
  replace (c <? 128) with true by (symmetry; apply N.ltb_lt; lia).
  rewrite IH. reflexivity.
Qed.

Lemma utf8_decode_ascii (bs : list byte) :
  ascii_bytes bs -> utf8_decode utf8_init bs = map Byte.to_N bs.
Proof.
  induction 1 as [|b bs Hb Hbs IH]; [reflexivity|].
  cbn [utf8_decode map]. cbn [u_needed utf8_init]. cbn [N.eqb].
  unfold utf8_lead.
  replace (Byte.to_N b <=? 127) with true by (symmetry; apply N.leb_le; lia).
  rewrite IH. reflexivity.
Qed.

Lemma decode_ascii (bs : list byte) :
  ascii_bytes bs -> TextDecoder_decode bs = map Byte.to_N bs.
Proof.
  intros H. unfold TextDecoder_decode. rewrite (utf8_decode_ascii bs H).
  assert (Hs : strip_bom (map Byte.to_N bs) = map Byte.to_N bs).
  { destruct H as [|b bs Hb Hbs]; [reflexivity|]. cbn [map strip_bom].
    replace (Byte.to_N b =? 65279) with false
      by (symmetry; apply N.eqb_neq; lia). reflexivity. }
  rewrite Hs. clear Hs.
  induction H as [|b bs Hb Hbs IH]; [reflexivity|].
  cbn [map flat_map]. rewrite IH. unfold utf16_units.
  replace (Byte.to_N b <? 65536) with true by (symmetry; apply N.ltb_lt; lia).
  reflexivity.
Qed.

Lemma decoded_ascii (chunks : list (list byte)) :
  ascii_bytes (concat chunks) -> decoded chunks = map Byte.to_N (concat chunks).
Proof.
  unfold decoded, ascii_bytes.
  induction chunks as [|c chunks IH]; [reflexivity|].
  cbn [concat map]. intros H. apply Forall_app in H. destruct H as [Hc Hr].
  rewrite map_app, (decode_ascii c Hc), (IH Hr). reflexivity.
Qed.

(** Any split of the bytes of an ASCII text decodes to that text. *)
Lemma decoded_encode_ascii (s : jsstring) (chunks : list (list byte)) :
  ascii_text s ->
  concat chunks = TextEncoder_encode s ->
  decoded chunks = s.
Proof.
  intros Hs Hc. rewrite (encode_ascii s Hs) in Hc.
  rewrite decoded_ascii; rewrite Hc.
  - rewrite map_map. rewrite <- (map_id s) at 2. apply map_ext_in.
    intros c Hin. apply to_N_byte_of_N.
    unfold ascii_text in Hs. rewrite Forall_forall in Hs.
    specialize (Hs c Hin). lia.
  - unfold ascii_bytes, ascii_text in *. rewrite Forall_map.
    eapply Forall_impl; [|exact Hs]. intros c Hlt. cbn beta in *.
    rewrite to_N_byte_of_N; lia.
Qed.

(* ------------------------------------------------------------------ *)
(** ** The page's state: what every step keeps *)

Lemma length_set_nth {A} (i : nat) (x : A) (l : list A) :
  length (set_nth i x l) = length l.
Proof.
  revert i; induction l as [|y l IH]; intros [|i]; simpl; auto.
Qed.

Lemma nth_error_set_nth_eq {A} (i : nat) (x : A) (l : list A) :
  (i < length l)%nat -> nth_error (set_nth i x l) i = Some x.
Proof.
  revert i; induction l as [|y l IH]; intros [|i]; simpl; intros H;
    try lia; auto. apply IH. lia.
Qed.

Lemma nth_error_set_nth_neq {A} (i j : nat) (x : A) (l : list A) :
  i <> j -> nth_error (set_nth i x l) j = nth_error l j.
Proof.
  revert i j; induction l as [|y l IH]; intros [|i] [|j] H; simpl; auto;
    try congruence.
Qed.

Lemma set_nth_set_nth {A} (i : nat) (x y : A) (l : list A) :
  set_nth i x (set_nth i y l) = set_nth i x l.
Proof.
  revert i; induction l as [|z l IH]; intros [|i]; simpl; auto.
  rewrite IH. reflexivity.
Qed.

Lemma set_nth_last {A} (x y : A) (l : list A) :
  set_nth (length l) x (l ++ [y]) = l ++ [x].
Proof. induction l as [|z l IH]; simpl; [|rewrite IH]; reflexivity. Qed.

Lemma map_set_nth {A B} (f : A -> B) (i : nat) (x y : A) (l : list A) :
  nth_error l i = Some y -> f x = f y -> map f (set_nth i x l) = map f l.
Proof.
  revert i; induction l as [|z l IH]; intros [|i]; simpl; try discriminate.
  - intros E H. injection E as ->. rewrite H. reflexivity.
  - intros E H. rewrite (IH i E H). reflexivity.
Qed.

Lemma Forall_set_nth {A} (P : A -> Prop) (i : nat) (x : A) (l : list A) :
  P x -> Forall P l -> Forall P (set_nth i x l).
Proof.
  intros Hx H. revert i; induction H as [|y l Hy Hl IH]; intros [|i];
    simpl; auto.
Qed.

Lemma Forall_remove_nth {A} (P : A -> Prop) (i : nat) (l : list A) :
  Forall P l -> Forall P (remove_nth i l).
Proof.
  intros H. revert i; induction H as [|y l Hy Hl IH]; intros [|i];
    simpl; auto.
Qed.

Lemma receive_uid (m : UiMessage) (value : list byte) :
  uid (fst (receive m value)) = uid m.
Proof.
  rewrite receive_eq. cbn zeta.
  destruct (truthy (model m)); [reflexivity|].
  destruct (preamble _); [|reflexivity].
  destruct (metadata _) as [[v r]|]; reflexivity.
Qed.

Lemma request_ok_grow (h : list UiMessage) (x : UiMessage) (q : request) :
  request_ok h q -> request_ok (h ++ [x]) q.
Proof. destruct q; simpl; auto. rewrite length_app. simpl. lia. Qed.

Lemma same_uid_refl (h : list UiMessage) (r : ref) (m : UiMessage) :
  nth_error h r = Some m -> same_uid h r r = true.
Proof. intros E. unfold same_uid. rewrite E. apply str_eqb_refl. Qed.

(** In a heap without two equal uids, the same uid means the same
    message. *)
Lemma same_uid_inj (h : list UiMessage) (a b : ref) :
  NoDup (map uid h) -> same_uid h a b = true -> a = b.
Proof.
  intros Hnd. unfold same_uid.
  destruct (nth_error h a) as [x|] eqn:Ea; [|discriminate].
  destruct (nth_error h b) as [y|] eqn:Eb; [|discriminate].
  intros E. apply str_eqb_eq in E.
  rewrite NoDup_nth_error in Hnd. apply Hnd.
  - rewrite length_map. apply nth_error_Some. congruence.
  - rewrite !nth_error_map, Ea, Eb. simpl. congruence.
Qed.

(** What the updater does, under [well_formed]: nothing when the pending
    message is shown, an append when it is not. *)
Lemma show_shown (h : list UiMessage) (r : ref) (l : list ref) (m : UiMessage) :
  nth_error h r = Some m -> In r l -> show h r l = l.
Proof.
  intros E Hin. unfold show.
  destruct (find (fun message => same_uid h message r) l) eqn:F; [reflexivity|].
  pose proof (find_none _ _ F r Hin) as H. cbn beta in H.
  rewrite (same_uid_refl h r m E) in H. discriminate.
Qed.

Lemma show_absent (h : list UiMessage) (r : ref) (l : list ref) :
  NoDup (map uid h) -> ~ In r l -> show h r l = l ++ [r].
Proof.
  intros Hnd Hin. unfold show.
  destruct (find (fun message => same_uid h message r) l) as [x|] eqn:F;
    [|reflexivity].
  apply find_some in F. destruct F as [Hx Hu].
  apply (same_uid_inj h x r Hnd) in Hu. subst x. contradiction.
Qed.

Lemma well_formed_send (uid : jsstring) (st : App) :
  well_formed st -> ~ In uid (map ChatMessage.uid (heap st)) ->
  well_formed (handleSendClicked uid st).
Proof.
  intros (H1 & H2 & H3 & H4) Hf. unfold handleSendClicked.
  destruct (trim (composeText st)) as [|c t]; [repeat split; assumption|].
  unfold well_formed, handleComposerSendMessage. cbn.
  rewrite length_app. cbn. repeat split.
  - apply Forall_app. split.
    + eapply Forall_impl; [|exact H1]. cbn. intros; lia.
    + constructor; [lia | constructor].
  - apply NoDup_app; auto.
    + repeat constructor. intros [].
    + intros r Hin [<-|[]]. rewrite Forall_forall in H1.
      specialize (H1 _ Hin). cbn in H1. lia.
  - rewrite map_app. cbn. apply NoDup_app; auto.
    + repeat constructor. intros [].
    + intros u Hin [<-|[]]. contradiction.
  - apply Forall_app. split; [|repeat constructor].
    eapply Forall_impl; [|exact H4]. intros q. apply request_ok_grow.
Qed.

Lemma step_well_formed (st : App) (e : event) :
  well_formed st -> fresh st e -> well_formed (step st e).
Proof.
  intros W Hf. pose proof W as (H1 & H2 & H3 & H4).
  destruct e as [v|u|k sh u| |i b u|i v|i|i]; cbn [step fresh] in *.
  - exact W.
  - destruct (disableCompose st); [exact W | apply well_formed_send; assumption].
  - destruct (str_eqb k (lit "Enter") && negb sh); [|exact W].
    destruct (negb (disableCompose st));
      [apply well_formed_send; assumption | exact W].
  - repeat split; cbn; auto. constructor.
  - destruct (nth_error (pending st) i) as [[|r]|] eqn:E; try exact W.
    destruct b.
    + unfold well_formed. cbn. rewrite length_app. cbn. repeat split.
      * eapply Forall_impl; [|exact H1]. cbn. intros; lia.
      * exact H2.
      * rewrite map_app. cbn. apply NoDup_app; auto.
        -- repeat constructor. intros [].
        -- intros x Hin [<-|[]]. contradiction.
      * apply Forall_set_nth; [cbn; rewrite length_app; cbn; lia|].
        eapply Forall_impl; [|exact H4]. intros q. apply request_ok_grow.
    + unfold well_formed, fulfilled. cbn. repeat split; auto.
      apply Forall_remove_nth; exact H4.
  - destruct (nth_error (pending st) i) as [[|r]|] eqn:E; try exact W.
    destruct (nth_error (heap st) r) as [m|] eqn:Er; [|exact W].
    assert (Hu : map uid (set_nth r (fst (receive m v)) (heap st))
                 = map uid (heap st)).
    { apply (map_set_nth uid r _ m); [exact Er | apply receive_uid]. }
    assert (Hr : (r < length (heap st))%nat)
      by (apply nth_error_Some; congruence).
    assert (Hp : Forall (request_ok (set_nth r (fst (receive m v)) (heap st)))
                        (pending st)).
    { eapply Forall_impl; [|exact H4]. intros [|q]; cbn; auto.
      rewrite length_set_nth. auto. }
    unfold well_formed. cbn. rewrite length_set_nth, Hu.
    destruct (in_dec Nat.eq_dec r (messages st)) as [Hin|Hin].
    + rewrite (show_shown _ r _ (fst (receive m v)));
        [|apply nth_error_set_nth_eq; exact Hr | exact Hin].
      repeat split; auto.
    + rewrite show_absent; [|rewrite Hu; exact H3 | exact Hin].
      repeat split; auto.
      * apply Forall_app. split; [exact H1 | repeat constructor; exact Hr].
      * apply NoDup_app; auto.
        -- repeat constructor. intros [].
        -- intros x Hx [<-|[]]. contradiction.
  - destruct (nth_error (pending st) i) as [[|r]|] eqn:E; try exact W.
    unfold well_formed, fulfilled. cbn. repeat split; auto.
    apply Forall_remove_nth; exact H4.
  - unfold well_formed. cbn. repeat split; auto.
    apply Forall_remove_nth; exact H4.
Qed.

Lemma init_well_formed (ls : localStorage) : well_formed (init ls).
Proof. repeat split; cbn; constructor. Qed.

Lemma run_well_formed (evs : list event) (st : App) :
  well_formed st -> fresh_run st evs -> well_formed (run st evs).
Proof.
  revert st; induction evs as [|e evs IH]; intros st W Hf; [exact W|].
  destruct Hf as [He Hr]. apply IH; [apply step_well_formed|]; assumption.
Qed.

(* ------------------------------------------------------------------ *)
(** ** The composer: one request at a time *)

Lemma single_flight_send (uid : jsstring) (st : App) :
  disableCompose st = false -> single_flight st ->
  handleSendClicked uid st = st
  \/ (pending (handleSendClicked uid st) = [Fetching]
      /\ disableCompose (handleSendClicked uid st) = true).
Proof.
  intros Hd [Hp|[_ Hp]]; [|congruence].
  unfold handleSendClicked.
  destruct (trim (composeText st)); [left; reflexivity|].
  right. cbn. rewrite Hp. auto.
Qed.

Lemma remove_nth_single {A} (i : nat) (l : list A) (x : A) :
  length l = 1%nat -> nth_error l i = Some x -> remove_nth i l = [].
Proof.
  destruct l as [|y [|z l]]; simpl; try discriminate.
  destruct i as [|[|i]]; simpl; try discriminate. reflexivity.
Qed.

Lemma nth_error_pending (st : App) (i : nat) (q : request) :
  single_flight st -> nth_error (pending st) i = Some q ->
  length (pending st) = 1%nat /\ disableCompose st = true.
Proof.
  intros [Hp|Hp] E; [|exact Hp].
  rewrite Hp in E. destruct i; discriminate.
Qed.

Lemma step_single_flight (st : App) (e : event) :
  single_flight st -> single_flight (step st e).
Proof.
  intros S.
  destruct e as [v|u|k sh u| |i b u|i v|i|i]; cbn [step].
  - exact S.
  - destruct (disableCompose st) eqn:Hd; [exact S|].
    destruct (single_flight_send u st Hd S) as [->|[Hp Hd']]; [exact S|].
    right. rewrite Hp, Hd'. auto.
  - destruct (str_eqb k (lit "Enter") && negb sh); [|exact S].
    destruct (disableCompose st) eqn:Hd; [exact S|]. cbn [negb].
    destruct (single_flight_send u st Hd S) as [->|[Hp Hd']]; [exact S|].
    right. rewrite Hp, Hd'. auto.
  - exact S.
  - destruct (nth_error (pending st) i) as [[|r]|] eqn:E; try exact S.
    destruct (nth_error_pending st i _ S E) as [Hl Hd].
    destruct b.
    + right. cbn. rewrite length_set_nth. auto.
    + left. cbn. apply (remove_nth_single i _ _ Hl E).
  - destruct (nth_error (pending st) i) as [[|r]|] eqn:E; try exact S.
    destruct (nth_error (heap st) r); exact S.
  - destruct (nth_error (pending st) i) as [[|r]|] eqn:E; try exact S.
    destruct (nth_error_pending st i _ S E) as [Hl Hd].
    left. cbn. apply (remove_nth_single i _ _ Hl E).
  - destruct (nth_error (pending st) i) as [q|] eqn:E.
    + destruct (nth_error_pending st i _ S E) as [Hl Hd].
      left. cbn. apply (remove_nth_single i _ _ Hl E).
    + destruct S as [Hp|[Hl Hd]].
      * left. cbn. rewrite Hp. destruct i; reflexivity.
      * right. cbn. split; [|exact Hd].
        destruct (pending st) as [|y [|z l]]; try discriminate.
        destruct i as [|[|i]]; [discriminate | reflexivity | reflexivity].
Qed.

Lemma run_single_flight (evs : list event) (st : App) :
  single_flight st -> single_flight (run st evs).
Proof.
  revert st; induction evs as [|e evs IH]; intros st S; [exact S|].
  apply IH, step_single_flight, S.
Qed.

(** X23: in every state the page reaches, at most one request is pending,
    and sending is disabled while one is; a click on the send button or
    the Enter key then changes nothing; the flag is cleared only by the
    completion of the pending request (the end of its stream, or a
    response without a body), which leaves no request pending; and a send
    of a non-blank text from the idle state disables sending and starts
    exactly one request. *)
Theorem single_request_in_flight (ls : localStorage) (evs : list event) :
  let st := run (init ls) evs in
  (length (pending st) <= 1)%nat
  /\ (forall i q, nth_error (pending st) i = Some q -> disableCompose st = true)
  /\ (disableCompose st = true ->
      forall uid key shiftKey,
        step st (ClickSend uid) = st
        /\ step st (KeyDown key shiftKey uid) = st)
  /\ (disableCompose st = true ->
      forall e, disableCompose (step st e) = false ->
        pending (step st e) = []
        /\ exists i,
             (e = ReadDone i
              /\ exists r, nth_error (pending st) i = Some (Reading r))
             \/ (exists uid, e = FetchResolved i false uid)
                /\ nth_error (pending st) i = Some Fetching)
  /\ (forall i r, nth_error (pending st) i = Some (Reading r) ->
        disableCompose (step st (ReadDone i)) = false
        /\ pending (step st (ReadDone i)) = [])
  /\ (disableCompose st = false ->
      forall uid c t, trim (composeText st) = c :: t ->
        disableCompose (step st (ClickSend uid)) = true
        /\ pending (step st (ClickSend uid)) = [Fetching]
        /\ step st (KeyDown (lit "Enter") false uid) = step st (ClickSend uid)).
Proof.
  intros st.
  assert (S : single_flight st).
  { apply run_single_flight. left. reflexivity. }
  repeat split.
  - destruct S as [->|[-> _]]; simpl; lia.
  - intros i q E. apply (nth_error_pending st i q S E).
  - cbn [step]. rewrite H. reflexivity.
  - cbn [step]. rewrite H. cbn [negb].
    destruct (str_eqb key (lit "Enter") && negb shiftKey); reflexivity.
  - pose proof (step_single_flight st e S) as [Hp|[_ Hd]]; congruence.
  - destruct e as [v|u|k sh u| |i b u|i v|i|i]; cbn [step] in H0;
      try (cbn in H0; congruence).
    + rewrite H in H0. congruence.
    + rewrite H in H0. cbn [negb] in H0.
      destruct (str_eqb k (lit "Enter") && negb sh); congruence.
    + destruct (nth_error (pending st) i) as [[|r]|] eqn:E; try congruence.
      destruct b; [cbn in H0; congruence|].
      exists i. right. split; [exists u; reflexivity | exact E].
    + destruct (nth_error (pending st) i) as [[|r]|] eqn:E; try congruence.
      destruct (nth_error (heap st) r); [cbn in H0|]; congruence.
    + destruct (nth_error (pending st) i) as [[|r]|] eqn:E; try congruence.
      exists i. left. split; [reflexivity | exists r; exact E].
  - cbn [step]. rewrite H. reflexivity.
  - cbn [step]. rewrite H. cbn.
    destruct (nth_error_pending st i _ S H) as [Hl _].
    apply (remove_nth_single i _ _ Hl H).
  - cbn [step]. rewrite H. unfold handleSendClicked. rewrite H0. reflexivity.
  - cbn [step]. rewrite H. unfold handleSendClicked. rewrite H0. cbn.
    destruct S as [->|[_ Hd]]; [reflexivity | congruence].
  - cbn [step]. rewrite H. reflexivity.
Qed.

Lemma single_request_in_flight_witness :
  let st := run (init (Item None)) [Change (lit "hi")] in
  disableCompose (step st (ClickSend (lit "u0"))) = true
  /\ pending (step st (ClickSend (lit "u0"))) = [Fetching]
  /\ step st (KeyDown (lit "Enter") false (lit "u0"))
     = step st (ClickSend (lit "u0")).
Proof.
  intros st.
  pose proof (single_request_in_flight (Item None) [Change (lit "hi")]) as H.
  cbv zeta in H. destruct H as (_ & _ & _ & _ & _ & H).
  apply (H eq_refl (lit "u0") 104 [105]). reflexivity.
Defined.

(** C6: a send whose request fails does not return to idle. When the
    fetch is rejected, and when a read of the body is rejected after a
    first chunk, sending stays disabled with no request pending; a new
    text, a click on the send button and the Enter key then post
    nothing, so the one request posted stays the only one. *)
Theorem failed_send_stays_disabled :
  let sent := [Change (lit "hi"); ClickSend (lit "u0")] in
  let again := [Change (lit "again"); ClickSend (lit "u2");
                KeyDown (lit "Enter") false (lit "u3")] in
  let fetch_fails := run (init (Item None)) (sent ++ [Rejected 0]) in
  let read_fails :=
    run (init (Item None))
        (sent ++ [FetchResolved 0 true (lit "u1");
                  ReadValue 0 (TextEncoder_encode (lit "Hel"));
                  Rejected 0]) in
  (disableCompose fetch_fails = true /\ pending fetch_fails = [])
  /\ (disableCompose read_fails = true /\ pending read_fails = [])
  /\ (disableCompose (run fetch_fails again) = true
      /\ length (posted (run fetch_fails again)) = 1%nat)
  /\ (disableCompose (run read_fails again) = true
      /\ length (posted (run read_fails again)) = 1%nat).
Proof. intros sent again fetch_fails read_fails. by_evaluation. Qed.

(** C10: when the trimmed compose text is empty, a click on the send
    button and the Enter key leave the whole state as it is: no message
    is appended, no request is issued, the history is unchanged and the
    compose text is not cleared. *)
Theorem blank_send_is_noop (st : App) (uid : jsstring) :
  trim (composeText st) = [] ->
  step st (ClickSend uid) = st
  /\ step st (KeyDown (lit "Enter") false uid) = st.
Proof.
  intros H. cbn [step]. unfold handleSendClicked. rewrite H.
  destruct (disableCompose st); auto.
Qed.

Lemma blank_send_is_noop_witness :
  step (run (init (Item None)) [Change (lit "  ")]) (ClickSend (lit "u0"))
    = run (init (Item None)) [Change (lit "  ")]
  /\ step (run (init (Item None)) [Change (lit "  ")])
          (KeyDown (lit "Enter") false (lit "u0"))
     = run (init (Item None)) [Change (lit "  ")].
Proof.
  exact (blank_send_is_noop (run (init (Item None)) [Change (lit "  ")])
                            (lit "u0") eq_refl).
Defined.

(* ------------------------------------------------------------------ *)
(** ** The pending message in the conversation *)

Lemma uid_inj (h : list UiMessage) (a b : ref) (x y : UiMessage) :
  NoDup (map uid h) ->
  nth_error h a = Some x -> nth_error h b = Some y -> uid x = uid y -> a = b.
Proof.
  intros Hnd Ea Eb E. apply (same_uid_inj h a b Hnd).
  unfold same_uid. rewrite Ea, Eb. apply str_eqb_eq. exact E.
Qed.

Lemma view_deref (st : App) : view st = flat_map (deref (heap st)) (messages st).
Proof. reflexivity. Qed.

Lemma in_view (h : list UiMessage) (l : list ref) (m : UiMessage) :
  In m (flat_map (deref h) l) -> exists r, In r l /\ nth_error h r = Some m.
Proof.
  rewrite in_flat_map. intros (r & Hr & Hm). exists r. split; [exact Hr|].
  unfold deref in Hm. destruct (nth_error h r); [|contradiction].
  destruct Hm as [->|[]]. reflexivity.
Qed.

Lemma view_uids_NoDup (h : list UiMessage) (l : list ref) :
  NoDup (map uid h) -> NoDup l -> NoDup (map uid (flat_map (deref h) l)).
Proof.
  intros Hh. induction 1 as [|r l Hr Hl IH]; [constructor|].
  cbn [flat_map]. rewrite map_app. unfold deref at 1.
  destruct (nth_error h r) as [m|] eqn:E; [|exact IH].
  cbn. constructor; [|exact IH].
  rewrite in_map_iff. intros (m' & Hu & Hin).
  apply in_view in Hin. destruct Hin as (r' & Hr' & E').
  assert (r' = r) by (apply (uid_inj h r' r m' m); auto).
  subst r'. contradiction.
Qed.

Lemma show_cases (h : list UiMessage) (r : ref) (l : list ref) :
  show h r l = l \/ show h r l = l ++ [r].
Proof. unfold show. destruct (find _ l); auto. Qed.

(** C7 (amended): provided the uids drawn for new messages are new, in
    every state the page reaches the shown conversation holds no two
    entries with the same uid; a chunk of a pending request leaves the
    list as it is when the pending message is shown, and appends the
    pending message when it is not; and no event but the clearing of the
    list removes a shown message. So the pending message is appended once
    for as long as the list is not cleared. *)
Theorem pending_entry_is_reused (ls : localStorage) (evs : list event) :
  fresh_run (init ls) evs ->
  let st := run (init ls) evs in
  NoDup (map uid (view st))
  /\ (forall i r value, nth_error (pending st) i = Some (Reading r) ->
        (In r (messages st) ->
         messages (step st (ReadValue i value)) = messages st)
        /\ (~ In r (messages st) ->
            messages (step st (ReadValue i value)) = messages st ++ [r]))
  /\ (forall e r, e <> ListClear -> In r (messages st) ->
        In r (messages (step st e))).
Proof.
  intros Hf st.
  assert (W : well_formed st)
    by (apply run_well_formed; [apply init_well_formed | exact Hf]).
  destruct W as (H1 & H2 & H3 & H4).
  split; [|split].
  - rewrite view_deref. apply view_uids_NoDup; assumption.
  - intros i r value E.
    assert (Hr : (r < length (heap st))%nat).
    { rewrite Forall_forall in H4. apply (H4 (Reading r)).
      eapply nth_error_In; exact E. }
    destruct (nth_error (heap st) r) as [m|] eqn:Er;
      [|apply nth_error_None in Er; lia].
    cbn [step]. rewrite E, Er. cbn [messages]. split; intros Hin.
    + apply (show_shown _ r _ (fst (receive m value))); [|exact Hin].
      apply nth_error_set_nth_eq; exact Hr.
    + apply show_absent; [|exact Hin].
      rewrite (map_set_nth uid r _ m); auto using receive_uid.
  - intros e r Hne Hin.
    destruct e as [v|u|k sh u| |i b u|i v|i|i]; cbn [step];
      try exact Hin; try congruence.
    + destruct (disableCompose st); [exact Hin|].
      unfold handleSendClicked. destruct (trim (composeText st)); [exact Hin|].
      cbn. apply in_or_app. auto.
    + destruct (str_eqb k (lit "Enter") && negb sh); [|exact Hin].
      destruct (negb (disableCompose st)); [|exact Hin].
      unfold handleSendClicked. destruct (trim (composeText st)); [exact Hin|].
      cbn. apply in_or_app. auto.
    + destruct (nth_error (pending st) i) as [[|q]|]; try exact Hin.
      destruct b; exact Hin.
    + destruct (nth_error (pending st) i) as [[|q]|]; try exact Hin.
      destruct (nth_error (heap st) q); [|exact Hin]. cbn [messages].
      destruct (show_cases (set_nth q (fst (receive u v)) (heap st)) q
                           (messages st)) as [->| ->];
        [exact Hin | apply in_or_app; auto].
    + destruct (nth_error (pending st) i) as [[|q]|]; exact Hin.
Qed.

Lemma pending_entry_is_reused_witness :
  let st := run (init (Item None))
              [Change (lit "hi"); ClickSend (lit "u0");
               FetchResolved 0 true (lit "u1");
               ReadValue 0 (TextEncoder_encode (lit "Hel"))] in
  NoDup (map uid (view st))
  /\ messages (step st (ReadValue 0 (TextEncoder_encode (lit "lo"))))
     = messages st.
Proof.
  pose proof (pending_entry_is_reused (Item None)
                [Change (lit "hi"); ClickSend (lit "u0");
                 FetchResolved 0 true (lit "u1");
                 ReadValue 0 (TextEncoder_encode (lit "Hel"))]) as H.
  cbn zeta in H.
  assert (Hf : fresh_run (init (Item None))
                 [Change (lit "hi"); ClickSend (lit "u0");
                  FetchResolved 0 true (lit "u1");
                  ReadValue 0 (TextEncoder_encode (lit "Hel"))]).
  { cbn. repeat split; auto. intros [E|[]]. discriminate E. }
  destruct (H Hf) as (Hn & Hs & _).
  split; [exact Hn|].
  apply (proj1 (Hs 0%nat 1%nat (TextEncoder_encode (lit "lo")) eq_refl)).
  right. left. reflexivity.
Defined.

(** C7, as stated, fails: when the list is cleared while the stream is
    being read, the next chunk appends the pending message again. *)
Lemma pending_entry_appended_again :
  let s3 := run (init (Item None))
              [Change (lit "hi"); ClickSend (lit "u0");
               FetchResolved 0 true (lit "u1")] in
  let s4 := step s3 (ReadValue 0 (TextEncoder_encode (lit "Hel"))) in
  let s5 := step s4 ListClear in
  let s6 := step s5 (ReadValue 0 (TextEncoder_encode (lit "lo"))) in
  pending s3 = [Reading 1%nat]
  /\ messages s3 = [0%nat] /\ messages s4 = messages s3 ++ [1%nat]
  /\ messages s5 = [] /\ messages s6 = messages s5 ++ [1%nat].
Proof. cbv zeta. by_evaluation. Qed.

(* ------------------------------------------------------------------ *)
(** ** A whole stream read by the page *)

Lemma preamble_none_prefix (t d : jsstring) :
  preamble (t ++ d) = None -> preamble t = None.
Proof.
  destruct (preamble t) as [[p r]|] eqn:E; [|reflexivity].
  rewrite (preamble_app t d p r E). discriminate.
Qed.

(** A text that never opens a preamble is appended to without any parse
    attempt. *)
Lemma receive_all_plain (chunks : list (list byte)) (m : UiMessage) :
  truthy (model m) = false ->
  preamble (text m ++ decoded chunks) = None ->
  receive_all m chunks =
    (set_text m (text m ++ decoded chunks), repeat NoAttempt (length chunks)).
Proof.
  revert m; induction chunks as [|value chunks IH]; intros m Hm Hp.
  - simpl. unfold decoded. simpl. rewrite app_nil_r, set_text_same. reflexivity.
  - rewrite decoded_cons, app_assoc in Hp.
    simpl. rewrite receive_eq. cbn zeta.
    rewrite Hm, (preamble_none_prefix _ _ Hp).
    rewrite (IH (set_text m (text m ++ TextDecoder_decode value)) Hm Hp).
    simpl. rewrite decoded_cons, app_assoc. reflexivity.
Qed.

Lemma fst_receive_all_cons (m : UiMessage) (value : list byte)
    (chunks : list (list byte)) :
  fst (receive_all m (value :: chunks))
  = fst (receive_all (fst (receive m value)) chunks).
Proof.
  simpl. destruct (receive m value) as [m1 a]. simpl.
  destruct (receive_all m1 chunks) as [m2 l]. reflexivity.
Qed.

Lemma set_nth_same {A} (i : nat) (x : A) (l : list A) :
  nth_error l i = Some x -> set_nth i x l = l.
Proof.
  revert i; induction l as [|y l IH]; intros [|i]; simpl; try discriminate.
  - intros E; injection E as ->; reflexivity.
  - intros E. rewrite (IH i E). reflexivity.
Qed.

Lemma run_app (st : App) (a b : list event) :
  run st (a ++ b) = run (run st a) b.
Proof. apply fold_left_app. Qed.

(** The chunks of the one pending request, its message being shown: only
    that message changes. *)
Lemma run_reads_shown (chunks : list (list byte)) (st : App) (r : ref)
    (m : UiMessage) :
  nth_error (pending st) 0 = Some (Reading r) ->
  nth_error (heap st) r = Some m ->
  In r (messages st) ->
  run st (map (ReadValue 0) chunks)
  = mkApp (set_nth r (fst (receive_all m chunks)) (heap st)) (messages st)
          (disableCompose st) (composeText st) (storage st) (posted st)
          (pending st).
Proof.
  revert st m; induction chunks as [|value chunks IH]; intros st m Hp Hm Hin.
  - simpl. rewrite (set_nth_same r m _ Hm). destruct st; reflexivity.
  - assert (Hr : (r < length (heap st))%nat)
      by (apply nth_error_Some; congruence).
    cbn [map run fold_left]. fold (run (step st (ReadValue 0 value))
                                      (map (ReadValue 0) chunks)).
    cbn [step]. rewrite Hp, Hm.
    rewrite (show_shown _ r _ (fst (receive m value)));
      [|apply nth_error_set_nth_eq; exact Hr | exact Hin].
    rewrite (IH _ (fst (receive m value)));
      cbn [pending heap messages disableCompose composeText storage posted];
      [|exact Hp | apply nth_error_set_nth_eq; exact Hr | exact Hin].
    rewrite set_nth_set_nth, fst_receive_all_cons. reflexivity.
Qed.

Lemma flat_map_deref_grow (h : list UiMessage) (x : UiMessage) (l : list ref) :
  Forall (fun r => (r < length h)%nat) l ->
  flat_map (deref (h ++ [x])) l = flat_map (deref h) l.
Proof.
  induction 1 as [|r l Hr Hl IH]; [reflexivity|].
  cbn [flat_map]. rewrite IH. unfold deref.
  rewrite nth_error_app1 by exact Hr. reflexivity.
Qed.

Lemma error_message_eq (number_text : bool -> N -> Z -> jsstring)
    (res : Relay.Response) :
  Relay.error_message number_text res
  = lit "OpenAI API error: " ++ Number_toString (Relay.status res) ++ lit " "
      ++ Relay.statusText res ++ lit " "
      ++ JSON_stringify number_text
           (match Relay.json res with Some v => v | None => JObj [] end).
Proof. reflexivity. Qed.

Lemma error_message_plain (number_text : bool -> N -> Z -> jsstring)
    (res : Relay.Response) :
  preamble (Relay.error_message number_text res) = None.
Proof. reflexivity. Qed.

(** A request from its response to the end of its stream, the uid of
    its message being new: the conversation gains that message, as the
    passes over the chunks leave it, and sending is enabled again. *)
Lemma run_stream (st : App) (uid : jsstring) (value : list byte)
    (rest : list (list byte)) :
  well_formed st ->
  pending st = [Fetching] ->
  ~ In uid (map ChatMessage.uid (heap st)) ->
  run st (FetchResolved 0 true uid
            :: map (ReadValue 0) (value :: rest) ++ [ReadDone 0])
  = mkApp (heap st ++ [fst (receive_all (createUiMessage uid assistant [])
                                        (value :: rest))])
          (messages st ++ [length (heap st)]) false (composeText st)
          (storage st) (posted st) [].
Proof.
  intros (H1 & H2 & H3 & H4) Hp Hu.
  remember (createUiMessage uid assistant []) as bot eqn:Hbot.
  remember (length (heap st)) as len eqn:Hlen.
  assert (Hnth : forall x, nth_error (heap st ++ [x]) len = Some x).
  { intros x. subst len. rewrite nth_error_app2, Nat.sub_diag; auto. }
  assert (E1 : step st (FetchResolved 0 true uid)
               = mkApp (heap st ++ [bot]) (messages st) (disableCompose st)
                       (composeText st) (storage st) (posted st)
                       [Reading len]).
  { cbn [step]. rewrite Hp. cbn [nth_error set_nth]. subst. reflexivity. }
  assert (E2 : step (step st (FetchResolved 0 true uid)) (ReadValue 0 value)
               = mkApp (heap st ++ [fst (receive bot value)])
                       (messages st ++ [len]) (disableCompose st)
                       (composeText st) (storage st) (posted st)
                       [Reading len]).
  { rewrite E1. cbn [step pending nth_error heap]. rewrite Hnth.
    cbn [messages disableCompose composeText storage posted].
    rewrite Hlen at 1 2. rewrite set_nth_last. 
    rewrite show_absent; [reflexivity| |].
    - rewrite map_app. cbn [map]. rewrite receive_uid.
      apply NoDup_app; auto.
      + repeat constructor. intros [].
      + intros x Hx [<-|[]]. subst bot. contradiction.
    - intros Hin. rewrite Forall_forall in H1. specialize (H1 _ Hin).
      cbn beta in H1. lia. }
  assert (E3 : run (step (step st (FetchResolved 0 true uid))
                         (ReadValue 0 value))
                   (map (ReadValue 0) rest)
               = mkApp (heap st ++ [fst (receive_all bot (value :: rest))])
                       (messages st ++ [len]) (disableCompose st)
                       (composeText st) (storage st) (posted st)
                       [Reading len]).
  { rewrite E2.
    rewrite (run_reads_shown rest _ len (fst (receive bot value)));
      cbn [pending heap messages disableCompose composeText storage posted
           nth_error].
    - rewrite Hlen at 1. rewrite set_nth_last.
      rewrite <- fst_receive_all_cons. reflexivity.
    - reflexivity.
    - apply Hnth.
    - apply in_or_app. right. left. reflexivity. }
  change (run st (FetchResolved 0 true uid
                    :: map (ReadValue 0) (value :: rest) ++ [ReadDone 0]))
    with (run (step (step st (FetchResolved 0 true uid)) (ReadValue 0 value))
              (map (ReadValue 0) rest ++ [ReadDone 0])).
  rewrite run_app, E3. reflexivity.
Qed.

Lemma view_grow (st : App) (x : UiMessage) (d : bool) (q : list request) :
  well_formed st ->
  view (mkApp (heap st ++ [x]) (messages st ++ [length (heap st)]) d
              (composeText st) (storage st) (posted st) q)
  = view st ++ [x].
Proof.
  intros (H1 & _). unfold view. cbn [heap messages].
  rewrite flat_map_app, flat_map_deref_grow by exact H1.
  cbn [flat_map]. unfold deref at 2.
  rewrite nth_error_app2, Nat.sub_diag by auto. reflexivity.
Qed.

(** What the page reads of the relay's error message. *)
Lemma receive_error_message (number_text : bool -> N -> Z -> jsstring)
    (res : Relay.Response) (uid : jsstring) (chunks : list (list byte)) :
  ascii_text (Relay.error_message number_text res) ->
  concat chunks = TextEncoder_encode (Relay.error_message number_text res) ->
  receive_all (createUiMessage uid assistant []) chunks
  = (createUiMessage uid assistant (Relay.error_message number_text res),
     repeat NoAttempt (length chunks))
  /\ chunks <> [].
Proof.
  intros Hascii Hc.
  assert (Hd : decoded chunks = Relay.error_message number_text res)
    by (apply decoded_encode_ascii; assumption).
  split.
  - rewrite receive_all_plain.
    + cbn [text createUiMessage app]. rewrite Hd. reflexivity.
    + reflexivity.
    + cbn [text createUiMessage app]. rewrite Hd. apply error_message_plain.
  - intros ->. change (decoded []) with (@nil code_unit) in Hd.
    rewrite error_message_eq in Hd. discriminate Hd.
Qed.

Lemma error_stream_shown
    (number_text : bool -> N -> Z -> jsstring)
    (restream : Relay.Response -> list (list byte) * Relay.ending)
    (res : Relay.Response) (st : App) (uid : jsstring)
    (chunks : list (list byte)) :
  well_formed st ->
  pending st = [Fetching] ->
  ~ In uid (map ChatMessage.uid (heap st)) ->
  Relay.ok res = false ->
  ascii_text (Relay.error_message number_text res) ->
  concat chunks
    = concat (fst (Relay.OpenAIStream number_text restream (Some res))) ->
  Relay.OpenAIStream number_text restream (Some res)
    = ([TextEncoder_encode (Relay.error_message number_text res)], Relay.Closed)
  /\ run st (FetchResolved 0 true uid
               :: map (ReadValue 0) chunks ++ [ReadDone 0])
     = mkApp (heap st ++ [createUiMessage uid assistant
                            (Relay.error_message number_text res)])
             (messages st ++ [length (heap st)]) false (composeText st)
             (storage st) (posted st) []
  /\ snd (receive_all (createUiMessage uid assistant []) chunks)
     = repeat NoAttempt (length chunks).
Proof.
  intros W Hp Hu Hok Hascii Hc.
  assert (Hstream : Relay.OpenAIStream number_text restream (Some res)
                    = ([TextEncoder_encode (Relay.error_message number_text res)],
                       Relay.Closed)).
  { unfold Relay.OpenAIStream. rewrite Hok. reflexivity. }
  rewrite Hstream in Hc.
  assert (Hc' : concat chunks
                = TextEncoder_encode (Relay.error_message number_text res)).
  { rewrite Hc. apply app_nil_r. }
  destruct (receive_error_message number_text res uid chunks Hascii Hc')
    as [Hall Hne].
  destruct chunks as [|value rest]; [congruence|].
  split; [exact Hstream|]. split.
  - rewrite (run_stream st uid value rest W Hp Hu), Hall. reflexivity.
  - rewrite Hall. reflexivity.
Qed.


Lemma ascii_text_forallb (s : jsstring) :
  forallb (fun c => c <? 128) s = true -> ascii_text s.
Proof.
  intros H. apply Forall_forall. intros c Hin. apply N.ltb_lt.
  rewrite forallb_forall in H. apply H. exact Hin.
Qed.


(* ------------------------------------------------------------------ *)
(** ** The send history *)

Lemma slice_prefix {A} (l : list A) (n : Z) :
  (0 <= n)%Z -> slice l 0 (Some n) = firstn (Z.to_nat n) l.
Proof.
  intros Hn. unfold slice. cbn [Z.ltb Z.compare].
  replace (n <? 0)%Z with false by (symmetry; apply Z.ltb_ge; lia).
  replace (Z.to_nat (Z.min 0 (Z.of_nat (length l)))) with 0%nat by lia.
  rewrite Nat.sub_0_r. cbn [skipn].
  destruct (Z_le_gt_dec n (Z.of_nat (length l))).
  - f_equal. lia.
  - replace (Z.to_nat (Z.min n (Z.of_nat (length l)))) with (length l) by lia.
    rewrite !firstn_all2 by lia. reflexivity.
Qed.

Lemma appended_history (T : jsstring) (stored : option (list jsstring)) :
  loadMessagesFromHistory
    (appendMessageToHistory T defaultMaxMessages (Item stored))
  = firstn 20 (T :: filter (differs (trim T))
                           (loadMessagesFromHistory (Item stored))).
Proof.
  unfold appendMessageToHistory. cbn [loadMessagesFromHistory].
  rewrite slice_prefix by (unfold defaultMaxMessages; lia). reflexivity.
Qed.

Lemma filter_differs_absent (t : jsstring) (h : list jsstring) :
  ~ In t (map trim h) -> filter (differs t) h = h.
Proof.
  induction h as [|a h IH]; [reflexivity|]. cbn [map filter]. intros Hn.
  unfold differs at 1.
  destruct (str_eqb (trim a) t) eqn:E.
  - apply str_eqb_eq in E. exfalso. apply Hn. left. exact E.
  - cbn [negb]. rewrite IH; [reflexivity|]. intros Hin. apply Hn. right. exact Hin.
Qed.

Lemma filter_differs_present (t : jsstring) (h : list jsstring) :
  NoDup (map trim h) -> In t (map trim h) ->
  S (length (filter (differs t) h)) = length h.
Proof.
  induction h as [|a h IH]; cbn [map filter]; [intros _ []|].
  intros Hnd Hin. inversion Hnd as [|x l Hx Hl]; subst.
  unfold differs at 1.
  destruct (str_eqb (trim a) t) eqn:E.
  - apply str_eqb_eq in E. subst t. cbn [negb].
    rewrite filter_differs_absent by exact Hx. reflexivity.
  - apply str_eqb_neq in E. cbn [negb length].
    destruct Hin as [Hin|Hin]; [contradiction|].
    rewrite (IH Hl Hin). reflexivity.
Qed.

Lemma filter_differs_trims (t : jsstring) (h : list jsstring) :
  ~ In t (map trim (filter (differs t) h)).
Proof.
  rewrite in_map_iff. intros (m & Hm & Hin).
  apply filter_In in Hin. destruct Hin as [_ Hd].
  unfold differs in Hd. rewrite Hm, str_eqb_refl in Hd. discriminate.
Qed.

(** Filtering a history keeps its trimmed entries distinct. *)
Lemma filter_keeps_distinct (keep : jsstring -> bool) (h : list jsstring) :
  NoDup (map trim h) -> NoDup (map trim (filter keep h)).
Proof.
  intros Hnd. induction h as [|m h IH]; cbn [map filter]; [exact Hnd|].
  inversion Hnd as [|x l' Hx Hl]; subst.
  destruct (keep m); [|auto]. cbn [map]. constructor; [|auto].
  intros Hin. apply Hx. rewrite in_map_iff in *.
  destruct Hin as (y & Hy & Hin). exists y. split; [exact Hy|].
  apply filter_In in Hin. tauto.
Qed.

Lemma In_firstn {A} (n : nat) (l : list A) (x : A) :
  In x (firstn n l) -> In x l.
Proof.
  intros H. rewrite <- (firstn_skipn n l). apply in_or_app. left. exact H.
Qed.

Lemma NoDup_firstn {A} (n : nat) (l : list A) : NoDup l -> NoDup (firstn n l).
Proof.
  revert n; induction l as [|a l IH]; intros [|n] Hnd; cbn; try constructor.
  - inversion Hnd; subst. intros Hin. apply In_firstn in Hin. contradiction.
  - inversion Hnd; subst. auto.
Qed.



(* ------------------------------------------------------------------ *)
(** ** The code-fence parser *)

Lemma runs_shorter (p : code_unit -> bool) (s s' : jsstring) :
  In s' (runs p s) -> (length s' <= length s)%nat.
Proof.
  induction s as [|x s IH]; cbn [runs].
  - intros [<-|[]]. lia.
  - destruct (p x).
    + intros H. apply in_app_or in H. destruct H as [H|[<-|[]]].
      * specialize (IH H). cbn [length]. lia.
      * lia.
    + intros [<-|[]]. lia.
Qed.

Lemma runs_end (p : code_unit -> bool) (s : jsstring) :
  (forall c, p c = true) -> In [] (runs p s).
Proof.
  intros Hp. induction s as [|x s IH]; cbn [runs]; [left; reflexivity|].
  rewrite Hp. apply in_or_app. left. exact IH.
Qed.

Lemma matches_shorter (r : regex) (s s' : jsstring) (c c' : captures) :
  In (c', s') (matches r s c) -> (length s' <= length s)%nat.
Proof.
  revert s s' c c'; induction r as [p| |a IHa b IHb|a IHa b IHb|a IHa|n p|p|i a IHa];
    intros s s' c c'; cbn [matches].
  - destruct s as [|x s]; [intros []|]. destruct (p x); [|intros []].
    intros [E|[]]. injection E as <- <-. cbn [length]. lia.
  - destruct s; [|intros []]. intros [E|[]]. injection E as <- <-. lia.
  - rewrite in_flat_map. intros ([c1 s1] & H1 & H2). cbn [fst snd] in H2.
    specialize (IHa _ _ _ _ H1). specialize (IHb _ _ _ _ H2). lia.
  - intros H. apply in_app_or in H. destruct H as [H|H]; eauto.
  - intros H. apply in_app_or in H. destruct H as [H|[E|[]]]; eauto.
    injection E as <- <-. lia.
  - rewrite in_map_iff. intros (x & E & H). injection E as <- <-.
    apply filter_In in H. destruct H as [H _]. apply (runs_shorter _ _ _ H).
  - rewrite in_map_iff. intros (x & E & H). injection E as <- <-.
    apply in_rev in H. apply (runs_shorter _ _ _ H).
  - rewrite in_map_iff. intros ([c1 s1] & E & H). cbn [fst snd] in E.
    injection E as <- <-. eauto.
Qed.

Lemma matches_Seq (a b : regex) (s : jsstring) (c : captures) :
  matches (Seq a b) s c
  = flat_map (fun m => matches b (snd m) (fst m)) (matches a s c).
Proof. reflexivity. Qed.

Lemma matches_Group (i : nat) (a : regex) (s : jsstring) (c : captures) :
  matches (Group i a) s c
  = map (fun m => ((i, consumed s (snd m)) :: fst m, snd m)) (matches a s c).
Proof. reflexivity. Qed.

Lemma atleast_consumes (n : nat) (p : code_unit -> bool) (s s' : jsstring)
    (c c' : captures) :
  In (c', s') (matches (AtLeast n p) s c) ->
  (length s' + n <= length s)%nat /\ c' = c.
Proof.
  cbn [matches]. rewrite in_map_iff. intros (x & E & H). injection E as <- <-.
  apply filter_In in H. destruct H as [H Hn]. apply Nat.leb_le in Hn.
  apply runs_shorter in H. split; [lia | reflexivity].
Qed.

(** What the closing part of the fence pattern leaves of the captures. *)
Lemma closing_captures (s s' : jsstring) (c c' : captures) :
  In (c', s') (matches (Alt (AtLeast 3 backtick) EndOfInput) s c) -> c' = c.
Proof.
  cbn [matches]. intros H. apply in_app_or in H. destruct H as [H|H].
  - rewrite in_map_iff in H. destruct H as (y & E & _). congruence.
  - destruct s; [|destruct H]. destruct H as [E|[]]. congruence.
Qed.

(** Every match of the fence pattern reads at least one code unit and
    sets the second capture. *)
Lemma fence_match (s s' : jsstring) (c c' : captures) :
  In (c', s') (matches codeBlockRegex s c) ->
  (length s' < length s)%nat /\ exists m2, capture 2 c' = Some m2.
Proof.
  unfold codeBlockRegex.
  rewrite matches_Seq, in_flat_map. intros ([c1 s1] & H1 & H).
  cbn [fst snd] in H. apply atleast_consumes in H1. destruct H1 as [H1 _].
  rewrite matches_Seq, in_flat_map in H. destruct H as ([c2 s2] & H2 & H).
  cbn [fst snd] in H. apply matches_shorter in H2.
  rewrite matches_Seq, in_flat_map in H. destruct H as ([c3 s3] & H3 & H).
  cbn [fst snd] in H. apply matches_shorter in H3.
  rewrite matches_Seq, in_flat_map in H. destruct H as ([c4 s4] & H4 & H).
  cbn [fst snd] in H.
  rewrite matches_Group, in_map_iff in H4. destruct H4 as ([c5 s5] & E & H4).
  cbn [fst snd] in E. injection E as <- <-.
  apply matches_shorter in H4.
  rewrite matches_Group, in_map_iff in H. destruct H as ([c6 s6] & E & H).
  cbn [fst snd] in E. injection E as <- <-.
  pose proof H as H6. apply matches_shorter in H6.
  apply closing_captures in H. subst c6.
  split; [lia|]. cbn. eauto.
Qed.

Lemma exec_fence (s : jsstring) (offset : nat) (index : nat) (c : captures)
    (s' : jsstring) :
  exec codeBlockRegex s offset = Some (index, c, s') ->
  (length s' < length s)%nat /\ exists m2, capture 2 c = Some m2.
Proof.
  revert offset; induction s as [|x s IH]; intros offset; cbn [exec].
  - destruct (hd_error (matches codeBlockRegex [] [])) as [[c1 s1]|] eqn:E;
      [|discriminate].
    intros E'. injection E' as <- <- <-.
    apply (fence_match [] s1 [] c1).
    destruct (matches codeBlockRegex [] []); [discriminate|].
    injection E as ->. left. reflexivity.
  - destruct (hd_error (matches codeBlockRegex (x :: s) [])) as [[c1 s1]|] eqn:E.
    + intros E'. injection E' as <- <- <-.
      apply (fence_match (x :: s) s1 [] c1).
      destruct (matches codeBlockRegex (x :: s) []); [discriminate|].
      injection E as ->. left. reflexivity.
    + intros H. apply IH in H. cbn [length]. destruct H as [H1 H2].
      split; [lia | exact H2].
Qed.

(** The loop ends within its fuel. *)
Lemma parse_loop_total (highlight : jsstring -> jsstring -> jsstring)
    (fuel : nat) (rest : jsstring) :
  (length rest < fuel)%nat ->
  exists blocks, parse_loop highlight fuel rest = Some blocks.
Proof.
  revert rest; induction fuel as [|f IH]; intros rest Hlt; [lia|].
  cbn [parse_loop].
  destruct (exec codeBlockRegex rest 0) as [[[index c] rest']|] eqn:E;
    [|eauto].
  apply exec_fence in E. destruct E as [Hl [m2 ->]].
  destruct (IH rest') as [blocks ->]; [lia|]. eauto.
Qed.

Lemma hd_flat_map {A B} (f : A -> list B) (l : list A) (x : A) (y : B) :
  In x l -> In y (f x) ->
  exists x' y', hd_error (flat_map f l) = Some y' /\ In x' l /\ In y' (f x').
Proof.
  induction l as [|a l IH]; [intros []|].
  intros Hx Hy. cbn [flat_map].
  destruct (f a) as [|b fb] eqn:E.
  - destruct Hx as [->|Hx]; [rewrite E in Hy; destruct Hy|].
    destruct (IH Hx Hy) as (x' & y' & H1 & H2 & H3).
    exists x', y'. cbn [app]. repeat split; [exact H1 | right; exact H2 | exact H3].
  - exists a, b. cbn [app hd_error]. rewrite E.
    repeat split; left; reflexivity.
Qed.

Lemma no_fence_here (s : jsstring) (c : captures) :
  match s with x :: _ => backtick x = false | [] => True end ->
  matches codeBlockRegex s c = [].
Proof.
  intros H. unfold codeBlockRegex. rewrite matches_Seq.
  assert (E : matches (AtLeast 3 backtick) s c = []).
  { cbn [matches]. destruct s as [|x s]; cbn [runs].
    - reflexivity.
    - rewrite H. cbn [filter]. rewrite Nat.sub_diag. reflexivity. }
  rewrite E. reflexivity.
Qed.

Lemma exec_no_backtick (s : jsstring) (offset : nat) :
  Forall (fun x => backtick x = false) s ->
  exec codeBlockRegex s offset = None.
Proof.
  intros H. revert offset. induction H as [|x s Hx Hs IH]; intros offset;
    cbn [exec]; rewrite no_fence_here; auto.
  cbn [hd_error]. apply IH.
Qed.

(** *** The first match of the fence pattern in a fenced text *)

Lemma runs_whole (p : code_unit -> bool) (a r : jsstring) :
  Forall (fun x => p x = true) a -> not_leading p r ->
  exists l, runs p (a ++ r) = r :: l.
Proof.
  intros Ha Hr. induction Ha as [|y a Hy Ha IH].
  - destruct r as [|x r]; cbn [app runs]; [eauto|].
    cbn in Hr. rewrite Hr. eauto.
  - cbn [app runs]. rewrite Hy. destruct IH as [l ->]. cbn [app]. eauto.
Qed.

Lemma firstn_prefix (a r : jsstring) : firstn (length a) (a ++ r) = a.
Proof.
  rewrite <- (Nat.add_0_r (length a)), firstn_app_2. cbn [firstn].
  apply app_nil_r.
Qed.

Lemma consumed_app (a r : jsstring) : consumed (a ++ r) r = a.
Proof.
  unfold consumed. rewrite length_app.
  replace (length a + length r - length r)%nat with (length a + 0)%nat by lia.
  rewrite firstn_app_2. cbn [firstn]. apply app_nil_r.
Qed.

(** A greedy run reads the whole run first. *)
Lemma atleast_whole (n : nat) (p : code_unit -> bool) (a r : jsstring)
    (c : captures) :
  (n <= length a)%nat -> Forall (fun x => p x = true) a -> not_leading p r ->
  exists l, matches (AtLeast n p) (a ++ r) c = (c, r) :: l.
Proof.
  intros Hn Ha Hr. cbn [matches]. destruct (runs_whole p a r Ha Hr) as [l ->].
  cbn [filter]. rewrite length_app.
  replace (n <=? length a + length r - length r)%nat with true
    by (symmetry; apply Nat.leb_le; lia).
  cbn [map]. eauto.
Qed.

Lemma atleast_none (n : nat) (p : code_unit -> bool) (s : jsstring)
    (c : captures) :
  (1 <= n)%nat -> not_leading p s -> matches (AtLeast n p) s c = [].
Proof.
  intros Hn Hs. cbn [matches]. destruct s as [|x s]; cbn [runs].
  - cbn [filter]. rewrite Nat.sub_diag.
    replace (n <=? 0)%nat with false by (symmetry; apply Nat.leb_gt; lia).
    reflexivity.
  - cbn in Hs. rewrite Hs. cbn [filter]. rewrite Nat.sub_diag.
    replace (n <=? 0)%nat with false by (symmetry; apply Nat.leb_gt; lia).
    reflexivity.
Qed.

Lemma matches_Opt (a : regex) (s : jsstring) (c : captures) :
  matches (Opt a) s c = matches a s c ++ [(c, s)].
Proof. reflexivity. Qed.

Lemma matches_Alt (a b : regex) (s : jsstring) (c : captures) :
  matches (Alt a b) s c = matches a s c ++ matches b s c.
Proof. reflexivity. Qed.

(** The first match of a sequence, from the first matches of its parts. *)
Lemma first_of_Seq (a b : regex) (s s1 : jsstring) (c c1 : captures)
    (y : captures * jsstring) :
  hd_error (matches a s c) = Some (c1, s1) ->
  hd_error (matches b s1 c1) = Some y ->
  hd_error (matches (Seq a b) s c) = Some y.
Proof.
  rewrite matches_Seq. intros Ha Hb.
  destruct (matches a s c) as [|m l]; [discriminate|].
  injection Ha as ->. cbn [flat_map fst snd].
  destruct (matches b s1 c1) as [|y' l']; [discriminate|].
  injection Hb as ->. reflexivity.
Qed.

Lemma backticks_run (n : nat) : Forall (fun x => backtick x = true) (backticks n).
Proof. induction n; cbn; constructor; auto. Qed.

Lemma length_backticks (n : nat) : length (backticks n) = n.
Proof. apply repeat_length. Qed.

(** The opening run is read whole. *)
Lemma opening_run (n : nat) (r : jsstring) (c : captures) :
  not_leading backtick r ->
  hd_error (matches (AtLeast 3 backtick) (backticks (3 + n) ++ r) c)
  = Some (c, r).
Proof.
  intros Hr.
  destruct (atleast_whole 3 backtick (backticks (3 + n)) r c) as [l ->];
    [rewrite length_backticks; lia | apply backticks_run | exact Hr|].
  reflexivity.
Qed.

(** The tag: the first capture is the tag, and undefined without one. *)
Lemma optional_tag (tag r : jsstring) (c : captures) :
  Forall (fun x => word x = true) tag ->
  hd_error (matches (Opt (Group 1 (AtLeast 1 word))) (tag ++ LF :: r) c)
  = Some (match tag with [] => c | _ :: _ => (1%nat, tag) :: c end, LF :: r).
Proof.
  intros Ht. rewrite matches_Opt, matches_Group.
  destruct tag as [|x tag].
  - cbn [app]. rewrite atleast_none; [reflexivity | lia | reflexivity].
  - destruct (atleast_whole 1 word (x :: tag) (LF :: r) c) as [l ->];
      [cbn; lia | exact Ht | reflexivity|].
    cbn [map fst snd]. rewrite consumed_app. reflexivity.
Qed.

Lemma lazy_skips (X : Type) (g : jsstring -> list X) (code r : jsstring) :
  (forall x s, backtick x = false -> g (x :: s) = []) ->
  plain code ->
  flat_map g (rev (runs any (code ++ r))) = flat_map g (rev (runs any r)).
Proof.
  intros Hg Hc. induction Hc as [|x code Hx Hc IH]; [reflexivity|].
  cbn [app runs]. change (any x) with true. cbn iota.
  rewrite rev_app_distr. cbn [rev app flat_map].
  rewrite (Hg x _ Hx). exact IH.
Qed.

Lemma closing_none (x : code_unit) (s : jsstring) (c : captures) :
  backtick x = false ->
  matches (Group 3 (Alt (AtLeast 3 backtick) EndOfInput)) (x :: s) c = [].
Proof.
  intros Hx. rewrite matches_Group, matches_Alt.
  rewrite atleast_none; [reflexivity | lia | exact Hx].
Qed.

(** The body is read up to the closing run, which is read whole. *)
Lemma body_and_closing (code r : jsstring) (m : nat) (c : captures) :
  plain code -> not_leading backtick r ->
  hd_error (matches (Seq (Group 2 (LazyStar any))
                         (Group 3 (Alt (AtLeast 3 backtick) EndOfInput)))
                    (code ++ backticks (3 + m) ++ r) c)
  = Some ((3%nat, backticks (3 + m)) :: (2%nat, code) :: c, r).
Proof.
  intros Hc Hr. rewrite matches_Seq, matches_Group.
  change (matches (LazyStar any) ?s c) with (map (pair c) (rev (runs any s))).
  rewrite map_map. cbn [fst snd].
  set (s0 := code ++ backticks (3 + m) ++ r).
  set (g := fun s' : jsstring =>
              matches (Group 3 (Alt (AtLeast 3 backtick) EndOfInput)) s'
                      ((2%nat, consumed s0 s') :: c)).
  assert (E : flat_map (fun m0 => matches (Group 3 (Alt (AtLeast 3 backtick) EndOfInput))
                                          (snd m0) (fst m0))
                (map (fun x => ((2%nat, consumed s0 x) :: c, x))
                     (rev (runs any s0)))
              = flat_map g (rev (runs any s0))).
  { induction (rev (runs any s0)) as [|y l IH]; [reflexivity|].
    cbn [map flat_map fst snd]. rewrite IH. reflexivity. }
  rewrite E. unfold s0 at 1.
  rewrite (lazy_skips _ g code _); [|intros x s Hx; apply closing_none, Hx | exact Hc].
  change (backticks (3 + m)) with (96 :: backticks (2 + m)) at 1.
  cbn [app runs]. change (any 96) with true. cbn iota.
  rewrite rev_app_distr. cbn [rev app flat_map].
  change (96 :: backticks (2 + m) ++ r) with (backticks (3 + m) ++ r).
  unfold g at 1. rewrite matches_Group, matches_Alt.
  assert (Ec : consumed s0 (backticks (3 + m) ++ r) = code)
    by apply consumed_app.
  rewrite Ec.
  destruct (atleast_whole 3 backtick (backticks (3 + m)) r ((2%nat, code) :: c))
    as [l ->]; [rewrite length_backticks; lia | apply backticks_run | exact Hr|].
  rewrite <- app_comm_cons. cbn [map fst snd]. rewrite consumed_app.
  reflexivity.
Qed.

(** The first match of the fence pattern at a fence. *)
Lemma fence_first_match (n m : nat) (tag code r : jsstring) :
  Forall (fun x => word x = true) tag -> plain code ->
  not_leading backtick r ->
  hd_error (matches codeBlockRegex
              (backticks (3 + n) ++ tag ++ LF :: code ++ backticks (3 + m) ++ r)
              [])
  = Some ((3%nat, backticks (3 + m)) :: (2%nat, code)
            :: match tag with [] => [] | _ :: _ => [(1%nat, tag)] end, r).
Proof.
  intros Ht Hc Hr. unfold codeBlockRegex.
  assert (Hw : not_leading backtick
                 (tag ++ LF :: code ++ backticks (3 + m) ++ r)).
  { destruct Ht as [|x tag Hx Ht]; [reflexivity|]. cbn.
    unfold word, backtick, is_digit in *.
    destruct (x =? 96) eqn:E; [|reflexivity].
    apply N.eqb_eq in E. subst x. discriminate Hx. }
  eapply first_of_Seq; [apply opening_run, Hw|].
  eapply first_of_Seq; [apply optional_tag, Ht|].
  eapply first_of_Seq; [reflexivity|].
  apply body_and_closing; assumption.
Qed.

Lemma exec_after_plain (pre s s' : jsstring) (c : captures) (offset : nat) :
  plain pre ->
  hd_error (matches codeBlockRegex s []) = Some (c, s') ->
  exec codeBlockRegex (pre ++ s) offset = Some ((offset + length pre)%nat, c, s').
Proof.
  intros Hp Hs. revert offset.
  induction Hp as [|x pre Hx Hp IH]; intros offset.
  - cbn [app length]. rewrite Nat.add_0_r.
    destruct s; cbn [exec]; rewrite Hs; reflexivity.
  - cbn [app exec]. rewrite no_fence_here by exact Hx. cbn [hd_error].
    rewrite IH. cbn [length]. f_equal. f_equal. f_equal. lia.
Qed.

Lemma not_leading_plain (s r : jsstring) :
  plain s -> (s = [] -> not_leading backtick r) ->
  not_leading backtick (s ++ r).
Proof.
  intros Hs Hr. destruct Hs as [|x s Hx Hs]; [apply Hr; reflexivity|].
  exact Hx.
Qed.

Lemma fence_text_app (f : Fence) (r : jsstring) :
  fence_text f ++ r
  = fence_before f
    ++ (backticks (3 + fence_opening f) ++ fence_tag f
        ++ LF :: fence_body f ++ backticks (3 + fence_closing f) ++ r).
Proof.
  unfold fence_text. rewrite <- (app_assoc (fence_before f)).
  rewrite <- (app_assoc (backticks (3 + fence_opening f))).
  rewrite <- (app_assoc (fence_tag f)).
  rewrite <- app_comm_cons, <- (app_assoc (fence_body f)). reflexivity.
Qed.

Lemma length_fence_text (f : Fence) : (7 <= length (fence_text f))%nat.
Proof.
  unfold fence_text. rewrite !length_app. cbn [length].
  rewrite !length_app, !length_backticks. lia.
Qed.

(** One pass of the loop at a fence. *)
Lemma parse_fence (highlight : jsstring -> jsstring -> jsstring)
    (fuel : nat) (f : Fence) (r : jsstring) :
  fence_ok f -> not_leading backtick r ->
  parse_loop highlight (S fuel) (fence_text f ++ r)
  = match parse_loop highlight fuel r with
    | Some blocks => Some (fence_blocks highlight f ++ blocks)
    | None => None
    end.
Proof.
  intros (Hb & Ht & Hc) Hr. rewrite fence_text_app. cbn [parse_loop].
  rewrite (exec_after_plain (fence_before f) _ r _ 0 Hb
             (fence_first_match _ _ _ _ r Ht Hc Hr)).
  cbn [capture Nat.eqb Nat.add].
  rewrite firstn_prefix.
  unfold fence_blocks.
  destruct (fence_tag f) as [|x tag]; cbn [capture Nat.eqb];
    destruct (parse_loop highlight fuel r); reflexivity.
Qed.

Lemma fenced_cons (f : Fence) (fences : list Fence) (last : jsstring) :
  fenced (f :: fences) last = fence_text f ++ fenced fences last.
Proof. unfold fenced. cbn [map concat]. rewrite <- app_assoc. reflexivity. Qed.

Lemma fenced_not_leading (fences : list Fence) (last : jsstring) :
  Forall fence_ok fences -> Forall (fun f => fence_before f <> []) fences ->
  plain last ->
  not_leading backtick (fenced fences last).
Proof.
  intros Hok Hne Hl. destruct Hok as [|f fences Hf Hok].
  - destruct Hl as [|x last Hx Hl]; [exact I | exact Hx].
  - rewrite fenced_cons, fence_text_app. destruct Hf as (Hb & _).
    inversion Hne as [|? ? H _]; subst.
    destruct (fence_before f) as [|x b]; [elim H; reflexivity|].
    inversion Hb; subst. assumption.
Qed.

Lemma parse_fenced (highlight : jsstring -> jsstring -> jsstring)
    (fences : list Fence) (last : jsstring) (fuel : nat) :
  Forall fence_ok fences ->
  Forall (fun f => fence_before f <> []) (tl fences) ->
  plain last ->
  (length (fenced fences last) < fuel)%nat ->
  parse_loop highlight fuel (fenced fences last)
  = Some (flat_map (fence_blocks highlight) fences
          ++ match last with [] => [] | _ :: _ => [TextBlock last] end).
Proof.
  intros Hok. revert fuel.
  induction Hok as [|f fences Hf Hok IH]; intros fuel Hne Hl Hlen.
  - destruct fuel as [|fuel]; [lia|]. unfold fenced. cbn [map concat app].
    cbn [parse_loop flat_map app]. rewrite exec_no_backtick by exact Hl.
    reflexivity.
  - destruct fuel as [|fuel]; [lia|]. cbn [tl] in Hne.
    rewrite fenced_cons in *.
    rewrite parse_fence;
      [|exact Hf | apply fenced_not_leading; assumption].
    rewrite IH.
    + cbn [flat_map]. rewrite <- app_assoc. reflexivity.
    + destruct Hne as [|g fences Hg Hne]; [constructor|].
      cbn [tl]. inversion Hok; subst. exact Hne.
    + exact Hl.
    + rewrite length_app in Hlen. pose proof (length_fence_text f). lia.
Qed.

(** The opening run and the missing tag of a fence whose body is any
    text: the first capture is undefined. *)
Lemma untagged_fence_at (n : nat) (body : jsstring) :
  exists m3 m2 s',
    hd_error (matches codeBlockRegex (backticks (3 + n) ++ LF :: body) [])
    = Some ([(3%nat, m3); (2%nat, m2)], s').
Proof.
  assert (H : exists y, hd_error
                (matches (Seq (Group 2 (LazyStar any))
                              (Group 3 (Alt (AtLeast 3 backtick) EndOfInput)))
                         body []) = Some y
              /\ exists m3 m2, fst y = [(3%nat, m3); (2%nat, m2)]).
  { rewrite matches_Seq.
    destruct (hd_flat_map
                (fun m => matches (Group 3 (Alt (AtLeast 3 backtick) EndOfInput))
                                  (snd m) (fst m))
                (matches (Group 2 (LazyStar any)) body [])
                ([(2%nat, consumed body [])], [])
                ([(3%nat, []); (2%nat, consumed body [])], []))
      as (x' & y' & Hh & Hx & Hy).
    - rewrite matches_Group, in_map_iff. exists ([], []). split; [reflexivity|].
      change (matches (LazyStar any) body [])
        with (map (pair (@nil (nat * jsstring))) (rev (runs any body))).
      apply in_map, in_rev. rewrite rev_involutive.
      apply runs_end. reflexivity.
    - cbn [fst snd]. rewrite matches_Group, matches_Alt.
      apply in_map_iff. exists ([(2%nat, consumed body [])], []).
      split; [reflexivity|]. apply in_or_app. right. left. reflexivity.
    - exists y'. split; [exact Hh|].
      rewrite matches_Group, in_map_iff in Hx.
      destruct Hx as ([c5 s5] & <- & Hx). cbn [fst snd] in Hy.
      change (matches (LazyStar any) body [])
        with (map (pair (@nil (nat * jsstring))) (rev (runs any body))) in Hx.
      rewrite in_map_iff in Hx. destruct Hx as (x & E & _).
      injection E as <- <-.
      rewrite matches_Group, in_map_iff in Hy.
      destruct Hy as ([c6 s6] & <- & Hy). cbn [fst snd].
      apply closing_captures in Hy. subst c6. eauto. }
  destruct H as ([c s'] & Hy & m3 & m2 & E). cbn [fst] in E. subst c.
  exists m3, m2, s'. unfold codeBlockRegex.
  eapply first_of_Seq; [apply opening_run; reflexivity|].
  eapply first_of_Seq; [apply (optional_tag [] body []); constructor|].
  eapply first_of_Seq; [reflexivity|]. exact Hy.
Qed.

(** *** Every match of the fence pattern *)

Lemma runs_split (p : code_unit -> bool) (s s1 : jsstring) :
  In s1 (runs p s) ->
  exists a, s = a ++ s1 /\ Forall (fun x => p x = true) a.
Proof.
  induction s as [|x s IH]; cbn [runs].
  - intros [<-|[]]. exists []. split; [reflexivity | constructor].
  - destruct (p x) eqn:E.
    + intros H. apply in_app_or in H. destruct H as [H|[<-|[]]].
      * destruct (IH H) as (a & -> & Ha). exists (x :: a).
        split; [reflexivity | constructor; assumption].
      * exists []. split; [reflexivity | constructor].
    + intros [<-|[]]. exists []. split; [reflexivity | constructor].
Qed.

Lemma atleast_split (n : nat) (p : code_unit -> bool) (s s1 : jsstring)
    (c c1 : captures) :
  In (c1, s1) (matches (AtLeast n p) s c) ->
  c1 = c
  /\ exists a, s = a ++ s1 /\ Forall (fun x => p x = true) a
               /\ (n <= length a)%nat.
Proof.
  cbn [matches]. rewrite in_map_iff. intros (x & E & H). injection E as <- <-.
  apply filter_In in H. destruct H as [H Hn]. apply Nat.leb_le in Hn.
  destruct (runs_split p s x H) as (a & -> & Ha).
  split; [reflexivity|]. exists a. rewrite length_app in Hn.
  repeat split; [exact Ha | lia].
Qed.

Lemma backticks_all (a : jsstring) :
  Forall (fun x => backtick x = true) a -> a = backticks (length a).
Proof.
  induction 1 as [|x a Hx Ha IH]; [reflexivity|].
  apply N.eqb_eq in Hx. subst x. cbn [length backticks repeat].
  f_equal. exact IH.
Qed.

Lemma lazystar_split (s s1 : jsstring) (c c1 : captures) :
  In (c1, s1) (matches (LazyStar any) s c) ->
  c1 = c /\ exists q, s = q ++ s1.
Proof.
  cbn [matches]. rewrite in_map_iff. intros (x & E & H). injection E as <- <-.
  apply in_rev in H. destruct (runs_split any s x H) as (q & -> & _). eauto.
Qed.

Lemma closing_split (s s1 : jsstring) (c c1 : captures) :
  In (c1, s1) (matches (Alt (AtLeast 3 backtick) EndOfInput) s c) ->
  exists q, s = q ++ s1.
Proof.
  rewrite matches_Alt. intros H. apply in_app_or in H. destruct H as [H|H].
  - apply atleast_split in H. destruct H as (_ & a & -> & _). eauto.
  - cbn [matches] in H. destruct s; [|destruct H].
    destruct H as [E|[]]. injection E as <- <-. exists []. reflexivity.
Qed.

(** What a match of the fence pattern has read: a run of three or more
    backticks, a tag of word characters that is the first capture, or no
    tag and no first capture, and a line feed. *)
Lemma fence_match_shape (s s' : jsstring) (c' : captures) :
  In (c', s') (matches codeBlockRegex s []) ->
  exists k tag more q,
    s = backticks (3 + k) ++ tag ++ LF :: more
    /\ Forall (fun x => word x = true) tag
    /\ capture 1 c' = match tag with [] => None | _ :: _ => Some tag end
    /\ more = q ++ s'.
Proof.
  unfold codeBlockRegex.
  rewrite matches_Seq, in_flat_map. intros ([c1 s1] & H1 & H).
  cbn [fst snd] in H. apply atleast_split in H1.
  destruct H1 as (-> & a & -> & Ha & Hn).
  rewrite matches_Seq, in_flat_map in H. destruct H as ([c2 s2] & H2 & H).
  cbn [fst snd] in H.
  rewrite matches_Seq, in_flat_map in H. destruct H as ([c3 s3] & H3 & H).
  cbn [fst snd] in H.
  rewrite matches_Seq, in_flat_map in H. destruct H as ([c4 s4] & H4 & H).
  cbn [fst snd] in H.
  rewrite matches_Group, in_map_iff in H4. destruct H4 as ([c5 s5] & E & H4).
  cbn [fst snd] in E. injection E as <- <-.
  apply lazystar_split in H4. destruct H4 as (-> & q & ->).
  rewrite matches_Group, in_map_iff in H. destruct H as ([c6 s6] & E & H).
  cbn [fst snd] in E. injection E as <- <-.
  pose proof (closing_captures _ _ _ _ H) as ->.
  apply closing_split in H. destruct H as (q' & ->).
  assert (Hlf : c3 = c2 /\ s2 = LF :: q ++ q' ++ s6).
  { cbn [matches] in H3. destruct s2 as [|x s2]; [destruct H3|].
    destruct (line_feed x) eqn:El; [|destruct H3].
    destruct H3 as [E|[]]. injection E as <- <-.
    apply N.eqb_eq in El. subst x. auto. }
  destruct Hlf as [-> ->]. clear H3.
  rewrite (backticks_all a Ha).
  replace (length a) with (3 + (length a - 3))%nat by lia.
  cbn [capture Nat.eqb].
  rewrite matches_Opt in H2. apply in_app_or in H2.
  destruct H2 as [H2|[E|[]]].
  - rewrite matches_Group, in_map_iff in H2.
    destruct H2 as ([c7 s7] & E & H2). cbn [fst snd] in E.
    injection E as <- E7. subst s7.
    apply atleast_split in H2. destruct H2 as (-> & w & -> & Hw & Hl).
    exists (length a - 3)%nat, w, (q ++ q' ++ s6), (q ++ q').
    rewrite consumed_app. rewrite <- !app_assoc. cbn [capture Nat.eqb].
    repeat split; [exact Hw|].
    destruct w as [|x w]; [cbn in Hl; lia | reflexivity].
  - injection E as <- ->.
    exists (length a - 3)%nat, [], (q ++ q' ++ s6), (q ++ q').
    rewrite <- !app_assoc. repeat split. constructor.
Qed.

Lemma exec_shape (s : jsstring) (offset index : nat) (c : captures)
    (s' : jsstring) :
  exec codeBlockRegex s offset = Some (index, c, s') ->
  exists pre s0,
    s = pre ++ s0 /\ index = (offset + length pre)%nat
    /\ In (c, s') (matches codeBlockRegex s0 []).
Proof.
  revert offset; induction s as [|x s IH]; intros offset; cbn [exec].
  - destruct (matches codeBlockRegex [] []) as [|[c1 s1] l] eqn:E;
      [discriminate|].
    cbn [hd_error]. intros H. injection H as <- <- <-.
    exists [], []. rewrite E. cbn [length]. rewrite Nat.add_0_r.
    repeat split. left. reflexivity.
  - destruct (matches codeBlockRegex (x :: s) []) as [|[c1 s1] l] eqn:E;
      cbn [hd_error].
    + intros H. apply IH in H. destruct H as (pre & s0 & -> & -> & H).
      exists (x :: pre), s0. cbn [length app].
      repeat split; [lia | exact H].
    + intros H. injection H as <- <- <-.
      exists [], (x :: s). rewrite E. cbn [length]. rewrite Nat.add_0_r.
      repeat split. left. reflexivity.
Qed.

(** The result of the loop does not depend on the fuel that is left,
    once it is more than the length of the text. *)
Lemma parse_loop_fuel (highlight : jsstring -> jsstring -> jsstring)
    (f1 f2 : nat) (s : jsstring) :
  (length s < f1)%nat -> (length s < f2)%nat ->
  parse_loop highlight f1 s = parse_loop highlight f2 s.
Proof.
  revert f2 s; induction f1 as [|f1 IH]; intros f2 s H1 H2; [lia|].
  destruct f2 as [|f2]; [lia|]. cbn [parse_loop].
  destruct (exec codeBlockRegex s 0) as [[[index c] s']|] eqn:E;
    [|reflexivity].
  apply exec_fence in E. destruct E as [Hl _].
  rewrite (IH f2 s'); [reflexivity | lia | lia].
Qed.

(** C9: the sample text gives three segments: the text before the fence
    with its line feed, the code with its language tag, the text after.
    A fence with no language tag gives a code segment of language
    typescript, wherever it stands. After any text without a backtick,
    an untagged fence gives it, whatever follows its line feed. A text
    made of fences closed by their runs of backticks, each after a text
    without a backtick, gives for each fence the text before it and its
    code, in the language of its tag or in typescript. And in every
    text, a text block followed by a code block stands for a fence of the
    text: after the text of the text block come three or more backticks,
    a tag of word characters and a line feed; the language is the tag,
    or typescript when the tag is empty; and the blocks that follow are
    the result of the parser on what the match left of the text. *)
Theorem fence_parser (highlight : jsstring -> jsstring -> jsstring) :
  parseAndHighlightCodeBlocks highlight
    (lit "a" ++ LF :: lit "```js" ++ LF :: lit "console.log(1)" ++ LF
       :: lit "```" ++ LF :: lit "b")
  = Some [TextBlock (lit "a" ++ [LF]);
          CodeBlock (highlight (lit "console.log(1)") (lit "js"))
                    (lit "console.log(1)") (lit "js");
          TextBlock (LF :: lit "b")]
  /\ (forall before n body,
        plain before ->
        exists code rest,
          parseAndHighlightCodeBlocks highlight
            (before ++ backticks (3 + n) ++ LF :: body)
          = Some (TextBlock before
                  :: CodeBlock (highlight code (lit "typescript")) code
                               (lit "typescript")
                  :: rest))
  /\ (forall fences last,
        Forall fence_ok fences ->
        Forall (fun f => fence_before f <> []) (tl fences) ->
        plain last ->
        parseAndHighlightCodeBlocks highlight (fenced fences last)
        = Some (flat_map (fence_blocks highlight) fences
                ++ match last with [] => [] | _ :: _ => [TextBlock last] end))
  /\ (forall text before content code language rest,
        parseAndHighlightCodeBlocks highlight text
        = Some (TextBlock before :: CodeBlock content code language :: rest) ->
        exists n tag more skipped left,
          text = before ++ backticks (3 + n) ++ tag ++ LF :: more
          /\ Forall (fun x => word x = true) tag
          /\ language = match tag with
                        | [] => lit "typescript"
                        | _ :: _ => tag
                        end
          /\ content = highlight code language
          /\ more = skipped ++ left
          /\ parseAndHighlightCodeBlocks highlight left = Some rest).
Proof.
  split; [vm_compute; reflexivity|]. split.
  - intros before n body Hb. unfold parseAndHighlightCodeBlocks.
    cbn [parse_loop].
    destruct (untagged_fence_at n body) as (m3 & m2 & s' & Hh).
    pose proof (exec_after_plain before _ s' _ 0 Hb Hh) as He.
    rewrite He. cbn [capture Nat.eqb].
    destruct (parse_loop_total highlight
                (length (before ++ backticks (3 + n) ++ LF :: body)) s')
      as [blocks ->].
    { apply exec_fence in He. tauto. }
    exists (trim m2), blocks.
    change (0 + length before)%nat with (length before).
    rewrite firstn_prefix. reflexivity.
  - split; [intros fences last Hok Hne Hl; apply parse_fenced; auto|].
    intros text before content code language rest H.
    unfold parseAndHighlightCodeBlocks in H. cbn [parse_loop] in H.
    destruct (exec codeBlockRegex text 0) as [[[index c] s']|] eqn:E;
      [|destruct text; discriminate].
    destruct (capture 2 c) as [m2|]; [|discriminate].
    destruct (parse_loop highlight (length text) s') as [blocks|] eqn:Ep;
      [|discriminate].
    injection H as <- <- <- <- <-.
    pose proof (exec_fence _ _ _ _ _ E) as [Hlen _].
    apply exec_shape in E. destruct E as (pre & s0 & -> & -> & Hin).
    apply fence_match_shape in Hin.
    destruct Hin as (n & tag & more & q & -> & Ht & Hc & ->).
    exists n, tag, (q ++ s'), q, s'. cbn [Nat.add]. rewrite firstn_prefix.
    rewrite Hc. unfold parseAndHighlightCodeBlocks.
    rewrite (parse_loop_fuel highlight (S (length s')) _ s' (Nat.lt_succ_diag_r _) Hlen).
    rewrite Ep.
    repeat split; try assumption; destruct tag; reflexivity.
Qed.

Lemma fence_parser_witness :
  parseAndHighlightCodeBlocks (fun code language => code)
    (fenced [mkFence (lit "a") 0 (lit "js") (lit "x") 0;
             mkFence (LF :: lit "b") 1 [] (lit " y ") 0]
            (lit "c"))
  = Some [TextBlock (lit "a");
          CodeBlock (lit "x") (lit "x") (lit "js");
          TextBlock (LF :: lit "b");
          CodeBlock (lit "y") (lit "y") (lit "typescript");
          TextBlock (lit "c")].
Proof.
  apply (proj1 (proj2 (proj2 (fence_parser (fun code language => code))))
           [mkFence (lit "a") 0 (lit "js") (lit "x") 0;
            mkFence (LF :: lit "b") 1 [] (lit " y ") 0]
           (lit "c")).
  - repeat constructor.
  - repeat constructor. discriminate.
  - repeat constructor.
Defined.

(* ------------------------------------------------------------------ *)
(** ** The ChatMessage component *)

(** X2: The model label is stable: shortening a shortened name changes
    nothing, and a name of neither family is shown as it is. *)
Theorem prettyModel_idempotent (model : jsstring) :
  Render.prettyModel (Render.prettyModel model) = Render.prettyModel model
  /\ (startsWith model (lit "gpt-4") = false ->
      startsWith model (lit "gpt-3.5-turbo") = false ->
      Render.prettyModel model = model).
Proof.
  unfold Render.prettyModel at 2 3 4.
  destruct (startsWith model (lit "gpt-4")) eqn:E4.
  - split; [reflexivity | discriminate].
  - destruct (startsWith model (lit "gpt-3.5-turbo")) eqn:E3.
    + split; [reflexivity | discriminate].
    + split; [|reflexivity]. unfold Render.prettyModel. rewrite E4, E3. reflexivity.
Qed.

Lemma split_lines_nonempty (s : jsstring) : Render.split_lines s <> [].
Proof.
  destruct s as [|c r]; cbn [Render.split_lines]; [discriminate|].
  destruct (c =? 10); [discriminate|].
  destruct (Render.split_lines r); discriminate.
Qed.

(** Splitting into lines and joining them again gives the text back. *)
Lemma join_split_lines (s : jsstring) :
  Render.join_lines (Render.split_lines s) = s.
Proof.
  induction s as [|c r IH]; [reflexivity|]. cbn [Render.split_lines].
  pose proof (split_lines_nonempty r) as Hne.
  destruct (Render.split_lines r) as [|l ls] eqn:Er; [congruence|].
  destruct (c =? 10) eqn:E.
  - apply N.eqb_eq in E. subst c.
    change (Render.join_lines ([] :: l :: ls))
      with (LF :: Render.join_lines (l :: ls)).
    rewrite IH. reflexivity.
  - destruct ls as [|l' ls].
    + cbn [Render.join_lines] in *. rewrite IH. reflexivity.
    + change (Render.join_lines ((c :: l) :: l' :: ls))
        with (c :: Render.join_lines (l :: l' :: ls)).
      rewrite IH. reflexivity.
Qed.

Lemma split_lines_no_LF (s : jsstring) :
  Forall (fun line => ~ In LF line) (Render.split_lines s).
Proof.
  induction s as [|c r IH]; cbn [Render.split_lines].
  - repeat constructor. intros [].
  - destruct (c =? 10) eqn:E.
    + constructor; [intros [] | exact IH].
    + apply N.eqb_neq in E.
      destruct (Render.split_lines r) as [|l ls].
      * repeat constructor. intros [H|[]]. unfold LF in H. congruence.
      * inversion IH as [|x y Hx Hy]; subst. constructor; [|exact Hy].
        intros [H|H]; [unfold LF in H; congruence | contradiction].
Qed.

Lemma join_lines_app (a b : list jsstring) :
  a <> [] -> b <> [] ->
  Render.join_lines (a ++ b)
  = Render.join_lines a ++ LF :: Render.join_lines b.
Proof.
  intros Ha Hb. induction a as [|x a IH]; [congruence|].
  destruct a as [|y a].
  - destruct b as [|z b]; [congruence|]. reflexivity.
  - change ((x :: y :: a) ++ b) with (x :: (y :: a) ++ b).
    change (Render.join_lines (x :: (y :: a) ++ b))
      with (x ++ LF :: Render.join_lines ((y :: a) ++ b)).
    rewrite IH by discriminate.
    change (Render.join_lines (x :: y :: a))
      with (x ++ LF :: Render.join_lines (y :: a)).
    rewrite <- app_assoc. reflexivity.
Qed.

Lemma count_LF_join (lines : list jsstring) :
  Forall (fun line => ~ In LF line) lines ->
  count_occ N.eq_dec (Render.join_lines lines) LF = pred (length lines).
Proof.
  induction 1 as [|l ls Hl Hls IH]; [reflexivity|].
  destruct ls as [|l' ls].
  - cbn [Render.join_lines length pred]. apply count_occ_not_In. exact Hl.
  - change (Render.join_lines (l :: l' :: ls))
      with (l ++ LF :: Render.join_lines (l' :: ls)).
    rewrite count_occ_app, count_occ_cons_eq by reflexivity.
    unfold jsstring, code_unit in *.
    rewrite IH. rewrite (proj1 (count_occ_not_In N.eq_dec l LF) Hl).
    reflexivity.
Qed.

(** X3: Only a user message that is not expanded and has more than ten lines
    is collapsed; the collapsed text is the first ten lines: it holds
    nine line feeds and the message text continues it with a line feed.
    Any other message is shown whole. *)
Theorem collapse_first_ten_lines (forceExpanded : bool) (message : UiMessage) :
  let shown := fst (Render.collapse forceExpanded message) in
  let isCollapsed := snd (Render.collapse forceExpanded message) in
  (isCollapsed = false -> shown = text message)
  /\ (isCollapsed = true ->
      role message = user /\ forceExpanded = false
      /\ count_occ N.eq_dec shown LF = 9%nat
      /\ exists rest, text message = shown ++ LF :: rest)
  /\ (role message <> user -> isCollapsed = false)
  /\ ((length (Render.split_lines (text message)) <= 10)%nat ->
      isCollapsed = false).
Proof.
  cbv zeta. unfold Render.collapse.
  destruct (role message) eqn:Hr; cbn [fst snd];
    try (repeat split; try reflexivity; try discriminate; congruence).
  destruct forceExpanded; cbn [negb fst snd];
    [repeat split; try reflexivity; try discriminate; congruence|].
  destruct (10 <? length (Render.split_lines (text message)))%nat eqn:E;
    cbn [fst snd].
  - apply Nat.ltb_lt in E. rewrite slice_prefix by lia.
    change (Z.to_nat 10) with 10%nat.
    split; [discriminate|]. split; [|split; [congruence | intros; lia]].
    intros _. split; [reflexivity|]. split; [reflexivity|]. split.
    + rewrite count_LF_join.
      * rewrite length_firstn. lia.
      * pose proof (split_lines_no_LF (text message)) as Hno.
        rewrite Forall_forall in *. intros x Hx. apply Hno.
        apply (In_firstn 10). exact Hx.
    + exists (Render.join_lines (skipn 10 (Render.split_lines (text message)))).
      rewrite <- join_lines_app.
      * rewrite firstn_skipn, join_split_lines. reflexivity.
      * intros Hnil. apply (f_equal (@length _)) in Hnil.
        rewrite length_firstn in Hnil. cbn [length] in Hnil. lia.
      * intros Hnil. apply (f_equal (@length _)) in Hnil.
        rewrite length_skipn in Hnil. cbn [length] in Hnil. lia.
  - repeat split; try reflexivity; try discriminate; congruence.
Qed.

(** X4: Every error message of the relay, shown as an assistant message, gets
    the danger background; so does the body of every 400 answer of the
    handler. *)
Theorem relay_errors_are_highlighted
    (number_text : bool -> N -> Z -> jsstring) (res : Relay.Response)
    (input : Chat.ChatApiInput) (env : option jsstring)
    (uid body : jsstring) :
  Render.background
    (createUiMessage uid assistant (Relay.error_message number_text res))
  = Render.danger_softBg
  /\ (Chat.handler input env = Chat.BadRequest body ->
      Render.background (createUiMessage uid assistant body)
      = Render.danger_softBg).
Proof.
  split; [reflexivity|]. unfold Chat.handler. cbv zeta.
  destruct (negb _); [|discriminate].
  intros E. injection E as <-. reflexivity.
Qed.

(** X5: The label of a history entry is the entry when it has at most sixty
    code units, and else its first 58 followed by three dots; it never
    exceeds 61 code units. *)
Theorem history_label_bounded (text : jsstring) :
  (length (HistoryMenu.label text) <= 61)%nat
  /\ ((length text <= 60)%nat -> HistoryMenu.label text = text)
  /\ ((60 < length text)%nat ->
      HistoryMenu.label text = firstn 58 text ++ lit "...").
Proof.
  unfold HistoryMenu.label.
  destruct (60 <? length text)%nat eqn:E.
  - apply Nat.ltb_lt in E. rewrite slice_prefix by lia.
    change (Z.to_nat 58) with 58%nat.
    split; [|split; [intros; lia | reflexivity]].
    rewrite length_app, length_firstn.
    change (length (lit "...")) with 3%nat. lia.
  - apply Nat.ltb_ge in E.
    split; [lia | split; [reflexivity | intros; lia]].
Qed.

(* ------------------------------------------------------------------ *)
(** ** The settings *)

(** X6: Storing and loading round trip: the key read back is the key stored
    (the empty key removes the item and reads back empty), the model read
    back is the model stored, or the fallback when it is empty; and
    neither store touches the other item. *)
Theorem settings_round_trip (k m fallback : jsstring)
    (oldKey oldModel : option jsstring) :
  let ls := Settings.Items oldKey oldModel in
  Settings.loadOpenAIApiKey (Settings.storeOpenAIApiKey k ls) = k
  /\ Settings.loadGptModel fallback (Settings.storeGptModel m ls)
     = match m with [] => fallback | _ => m end
  /\ Settings.loadGptModel fallback (Settings.storeOpenAIApiKey k ls)
     = Settings.loadGptModel fallback ls
  /\ Settings.loadOpenAIApiKey (Settings.storeGptModel m ls)
     = Settings.loadOpenAIApiKey ls.
Proof.
  cbv zeta. destruct k, m; repeat split; reflexivity.
Qed.

Lemma step_model_nonempty (d : Settings.Dialog) (e : Settings.event) :
  Settings.gptModel d <> [] -> Settings.gptModel (Settings.step d e) <> [].
Proof.
  intros Hd. destruct e as [v|[[|c s]|]|k|]; unfold Settings.step.
  - exact Hd.
  - cbn. discriminate.
  - cbn. discriminate.
  - cbn. discriminate.
  - destruct (str_eqb k (lit "Enter")); exact Hd.
  - destruct (Settings.isValidOpenAIApiKey (Settings.apiKey d)); exact Hd.
Qed.

Lemma step_storage_items (d : Settings.Dialog) (e : Settings.event) :
  (exists k m, Settings.storage d = Settings.Items k m) ->
  exists k m, Settings.storage (Settings.step d e) = Settings.Items k m.
Proof.
  intros (k & m & H).
  assert (Hsave : exists k' m', Settings.storage (Settings.handleSaveClicked d)
                                = Settings.Items k' m').
  { unfold Settings.handleSaveClicked. cbn [Settings.storage]. rewrite H.
    destruct (Settings.apiKey d), (Settings.gptModel d); cbn; eauto. }
  destruct e as [v|v|key|]; unfold Settings.step.
  - cbn [Settings.storage]. eauto.
  - cbn [Settings.storage]. eauto.
  - destruct (str_eqb key (lit "Enter")); eauto.
  - destruct (Settings.isValidOpenAIApiKey (Settings.apiKey d)); eauto.
Qed.

Lemma dialog_model_nonempty (evs : list Settings.event) (d : Settings.Dialog) :
  Settings.gptModel d <> [] ->
  Settings.gptModel (Settings.run d evs) <> [].
Proof.
  revert d; induction evs as [|e evs IH]; intros d Hd; [exact Hd|].
  apply IH, step_model_nonempty, Hd.
Qed.

Lemma dialog_storage_items (evs : list Settings.event) (d : Settings.Dialog) :
  (exists k m, Settings.storage d = Settings.Items k m) ->
  exists k m, Settings.storage (Settings.run d evs) = Settings.Items k m.
Proof.
  revert d; induction evs as [|e evs IH]; intros d Hd; [exact Hd|].
  apply IH, step_storage_items, Hd.
Qed.

Lemma mount_model_nonempty (ls : Settings.localStorage) (shown : bool) :
  Settings.gptModel (Settings.mount ls shown) <> [].
Proof.
  destruct ls as [|k [[|c s]|]]; cbn; discriminate.
Qed.


(* ------------------------------------------------------------------ *)
(** ** More on the send history *)

(** X8: Sending the same text again leaves the stored history as the first
    send left it, whatever was stored before. *)
Theorem history_resend (T : jsstring) (stored : option (list jsstring)) :
  appendMessageToHistory T defaultMaxMessages
    (appendMessageToHistory T defaultMaxMessages (Item stored))
  = appendMessageToHistory T defaultMaxMessages (Item stored).
Proof.
  assert (E : forall st, appendMessageToHistory T defaultMaxMessages (Item st)
                         = Item (Some (firstn 20 (T :: filter (differs (trim T))
                                   (loadMessagesFromHistory (Item st)))))).
  { intros st. unfold appendMessageToHistory.
    rewrite slice_prefix by (unfold defaultMaxMessages; lia). reflexivity. }
  rewrite (E stored), E.
  set (F := filter (differs (trim T)) (loadMessagesFromHistory (Item stored))).
  change (loadMessagesFromHistory (Item (Some (firstn 20 (T :: F)))))
    with (T :: firstn 19 F).
  cbn [filter]. unfold differs at 1. rewrite str_eqb_refl. cbn [negb].
  rewrite filter_differs_absent.
  - rewrite !(firstn_cons 19), firstn_firstn. reflexivity.
  - intros Hin. rewrite in_map_iff in Hin. destruct Hin as (m & Hm & Hin).
    apply In_firstn in Hin. apply filter_In in Hin. destruct Hin as [_ Hd].
    unfold differs in Hd. rewrite Hm, str_eqb_refl in Hd. discriminate.
Qed.

Lemma append_keeps_history_ok (T : jsstring) (stored : option (list jsstring)) :
  history_ok (loadMessagesFromHistory (Item stored)) ->
  history_ok (loadMessagesFromHistory
                (appendMessageToHistory T defaultMaxMessages (Item stored)))
  /\ hd_error (loadMessagesFromHistory
                 (appendMessageToHistory T defaultMaxMessages (Item stored)))
     = Some T.
Proof.
  intros [Hnd _]. rewrite appended_history. split; [split|reflexivity].
  - rewrite <- firstn_map. apply NoDup_firstn. cbn [map]. constructor.
    + apply filter_differs_trims.
    + apply filter_keeps_distinct. exact Hnd.
  - rewrite length_firstn. lia.
Qed.

(** X9: Over any series of sends, from an absent item or from a history that
    is deduplicated and within the bound, the stored history stays
    deduplicated by trimmed text and within twenty entries, and its first
    entry is the text sent last. *)
Theorem history_after_sends (texts : list jsstring) (T : jsstring)
    (stored : option (list jsstring)) :
  history_ok (loadMessagesFromHistory (Item stored)) ->
  let h := loadMessagesFromHistory (history_after (texts ++ [T]) (Item stored)) in
  history_ok h /\ hd_error h = Some T.
Proof.
  intros Hok. cbv zeta. unfold history_after. rewrite fold_left_app. cbn [fold_left].
  fold (history_after texts (Item stored)).
  assert (H : exists st, history_after texts (Item stored) = Item st
                         /\ history_ok (loadMessagesFromHistory (Item st))).
  { clear T. revert stored Hok.
    induction texts as [|T texts IH]; intros stored Hok; [cbn; eauto|].
    cbn [history_after fold_left].
    fold (history_after texts (appendMessageToHistory T defaultMaxMessages (Item stored))).
    destruct (append_keeps_history_ok T stored Hok) as [Hok' _].
    assert (E : exists s', appendMessageToHistory T defaultMaxMessages (Item stored)
                           = Item s') by (cbn; eauto).
    destruct E as [s' E]. rewrite E in *. apply IH. exact Hok'. }
  destruct H as (st & -> & Hst).
  apply append_keeps_history_ok. exact Hst.
Qed.

Lemma history_after_sends_witness :
  let h := loadMessagesFromHistory
             (history_after ([lit "a"; lit "b"; lit " a "] ++ [lit "b"])
                            (Item None)) in
  history_ok h /\ hd_error h = Some (lit "b").
Proof.
  apply (history_after_sends [lit "a"; lit "b"; lit " a "] (lit "b") None).
  split; [constructor | cbn; lia].
Defined.

(* ------------------------------------------------------------------ *)
(** ** More on the fence parser *)

Lemma parse_loop_shape (highlight : jsstring -> jsstring -> jsstring)
    (fuel : nat) (rest : jsstring) (blocks : list MessageBlock) :
  parse_loop highlight fuel rest = Some blocks ->
  alternating blocks = true /\ Forall (highlighted highlight) blocks.
Proof.
  revert rest blocks; induction fuel as [|f IH]; intros rest blocks;
    [discriminate|].
  cbn [parse_loop].
  destruct (exec codeBlockRegex rest 0) as [[[index c] rest']|].
  - destruct (capture 2 c) as [m2|]; [|discriminate].
    destruct (parse_loop highlight f rest') as [tail|] eqn:E; [|discriminate].
    intros H. injection H as <-. destruct (IH _ _ E) as [Ha Hh].
    split.
    + destruct (capture 1 c) as [[|x l]|]; exact Ha.
    + constructor; [exact I|]. constructor; [|exact Hh].
      split; [reflexivity | exists m2; reflexivity].
  - intros H. injection H as <-. destruct rest; split; repeat constructor.
Qed.


(** X10: A text without a backtick is one text segment, the text itself; the
    empty text gives no segment. *)
Theorem text_without_backtick (highlight : jsstring -> jsstring -> jsstring)
    (text : jsstring) :
  Forall (fun x => backtick x = false) text ->
  parseAndHighlightCodeBlocks highlight text
  = Some (match text with [] => [] | _ :: _ => [TextBlock text] end).
Proof.
  intros H. unfold parseAndHighlightCodeBlocks. cbn [parse_loop].
  rewrite (exec_no_backtick text 0 H). reflexivity.
Qed.

Lemma text_without_backtick_witness :
  parseAndHighlightCodeBlocks (fun code _ => code) (lit "no code here")
  = Some [TextBlock (lit "no code here")].
Proof.
  apply (text_without_backtick (fun code _ => code) (lit "no code here")).
  repeat constructor.
Defined.

(* ------------------------------------------------------------------ *)
(** ** More on the page *)

(** X11: The passes change the text and the model of the pending message and
    nothing else of it. *)
Theorem receive_all_frame (chunks : list (list byte)) (m : UiMessage) :
  let m' := fst (receive_all m chunks) in
  uid m' = uid m /\ sender m' = sender m /\ role m' = role m
  /\ avatar m' = avatar m.
Proof.
  cbv zeta. revert m; induction chunks as [|value chunks IH]; intros m.
  - cbn. auto.
  - rewrite fst_receive_all_cons.
    destruct (IH (fst (receive m value))) as (H1 & H2 & H3 & H4).
    rewrite H1, H2, H3, H4. rewrite receive_eq. cbn zeta.
    destruct (truthy (model m)); [cbn; auto|].
    destruct (preamble _); [|cbn; auto].
    destruct (metadata _) as [[v r]|]; cbn; auto.
Qed.

Lemma locked_step (st : App) (e : event) :
  locked st ->
  locked (step st e) /\ posted (step st e) = posted st
  /\ heap (step st e) = heap st.
Proof.
  intros [Hp Hd].
  destruct e as [v|u|k sh u| |i b u|i v|i|i]; cbn [step];
    rewrite ?Hd, ?Hp; cbn [negb];
    try (destruct i; cbn; repeat split; assumption);
    try (repeat split; assumption).
  destruct (str_eqb k (lit "Enter") && negb sh); repeat split; assumption.
Qed.

(** X12: When the pending request is rejected (the fetch or a read fails), no
    handler runs: sending stays disabled with no request pending, and it
    stays so under every later event; no further message is posted. *)
Theorem rejection_locks_the_composer (ls : localStorage)
    (evs later : list event) (q : request) :
  let st := run (init ls) evs in
  pending st = [q] ->
  let st' := run (step st (Rejected 0)) later in
  pending st' = [] /\ disableCompose st' = true /\ posted st' = posted st.
Proof.
  intros st Hp st'.
  assert (S : single_flight st) by (apply run_single_flight; left; reflexivity).
  assert (Hd : disableCompose st = true).
  { destruct S as [E|[_ E]]; [congruence | exact E]. }
  assert (L : locked (step st (Rejected 0))).
  { split; cbn; [rewrite Hp; reflexivity | exact Hd]. }
  assert (G : forall l s, locked s ->
                locked (run s l) /\ posted (run s l) = posted s).
  { induction l as [|e l IH]; intros s Ls; [auto|].
    destruct (locked_step s e Ls) as (L1 & P1 & _).
    destruct (IH _ L1) as [L2 P2]. split; [exact L2|].
    change (run s (e :: l)) with (run (step s e) l). congruence. }
  destruct (G later _ L) as [[Hp' Hd'] Hpost].
  repeat split; assumption.
Qed.

Lemma rejection_locks_the_composer_witness :
  let st := run (init (Item None)) [Change (lit "hi"); ClickSend (lit "u0")] in
  let st' := run (step st (Rejected 0))
                 [Change (lit "again"); ClickSend (lit "u2");
                  KeyDown (lit "Enter") false (lit "u3")] in
  pending st' = [] /\ disableCompose st' = true /\ posted st' = posted st.
Proof.
  exact (rejection_locks_the_composer (Item None)
           [Change (lit "hi"); ClickSend (lit "u0")]
           [Change (lit "again"); ClickSend (lit "u2");
            KeyDown (lit "Enter") false (lit "u3")]
           Fetching eq_refl).
Defined.

Lemma shown_grow (st : App) (x : UiMessage) :
  well_formed st ->
  flat_map (deref (heap st ++ [x])) (messages st ++ [length (heap st)])
  = view st ++ [x].
Proof.
  intros W. apply (view_grow st x true [] W).
Qed.

Lemma send_effect (st : App) (uid : jsstring) (c : code_unit) (t : jsstring) :
  well_formed st -> pending st = [] -> disableCompose st = false ->
  trim (composeText st) = c :: t ->
  step st (ClickSend uid)
  = mkApp (heap st ++ [createUiMessage uid user (c :: t)])
          (messages st ++ [length (heap st)]) true []
          (appendMessageToHistory (c :: t) defaultMaxMessages (storage st))
          (posted st ++ [view st ++ [createUiMessage uid user (c :: t)]])
          [Fetching].
Proof.
  intros W Hp Hd Ht. cbn [step]. rewrite Hd. unfold handleSendClicked.
  rewrite Ht. unfold handleComposerSendMessage.
  cbn [heap messages disableCompose composeText storage posted pending].
  rewrite Hp. cbn [app].
  pose proof (view_grow st (createUiMessage uid user (c :: t)) true [] W) as Hv.
  unfold view in Hv. cbn [heap messages] in Hv. rewrite Hv. reflexivity.
Qed.

Lemma idle_no_pending (st : App) :
  single_flight st -> disableCompose st = false -> pending st = [].
Proof. intros [H|[_ H]] Hd; [exact H | congruence]. Qed.

(** X13: A send of a non-blank text from an idle page: the conversation gains
    the user message with the trimmed text; the request posted carries
    the whole conversation shown, that message included; the compose text
    is cleared, the trimmed text goes to the history, sending is disabled
    and one request is pending. *)
Theorem send_posts_conversation (ls : localStorage) (evs : list event)
    (uid : jsstring) (c : code_unit) (t : jsstring) :
  let st := run (init ls) evs in
  fresh_run (init ls) evs ->
  disableCompose st = false ->
  trim (composeText st) = c :: t ->
  let st' := step st (ClickSend uid) in
  view st' = view st ++ [createUiMessage uid user (c :: t)]
  /\ posted st' = posted st ++ [view st']
  /\ composeText st' = []
  /\ storage st'
     = appendMessageToHistory (c :: t) defaultMaxMessages (storage st)
  /\ disableCompose st' = true
  /\ pending st' = [Fetching].
Proof.
  intros st Hf Hd Ht st'.
  assert (W : well_formed st)
    by (apply run_well_formed; [apply init_well_formed | exact Hf]).
  assert (Hp : pending st = []).
  { apply idle_no_pending; [|exact Hd]. apply run_single_flight. left. reflexivity. }
  pose proof (send_effect st uid c t W Hp Hd Ht) as E. fold st' in E.
  assert (Hv : view st' = view st ++ [createUiMessage uid user (c :: t)]).
  { rewrite E. unfold view at 1. cbn [heap messages]. apply shown_grow. exact W. }
  split; [exact Hv|]. rewrite Hv. rewrite E. repeat split.
Qed.

Lemma send_posts_conversation_witness :
  let st := run (init (Item None)) [Change (lit " hi ")] in
  let st' := step st (ClickSend (lit "u0")) in
  view st' = view st ++ [createUiMessage (lit "u0") user (lit "hi")]
  /\ posted st' = posted st ++ [view st']
  /\ composeText st' = []
  /\ storage st'
     = appendMessageToHistory (lit "hi") defaultMaxMessages (storage st)
  /\ disableCompose st' = true
  /\ pending st' = [Fetching].
Proof.
  exact (send_posts_conversation (Item None) [Change (lit " hi ")] (lit "u0")
           104 (lit "i") (conj I I) eq_refl eq_refl).
Defined.

(** A send followed by the whole stream of the answer, the stream being
    an object text P followed by T as in [preamble_exact], P parsing to
    an object with a truthy model member, the reads decoding to the
    pieces of the text, and the two uids drawn being new: the
    conversation gains the user message and the assistant message with
    P's model and the text T, and sending is enabled again. *)
Lemma send_then_stream_general (st : App) (u0 u1 : jsstring) (c : code_unit)
    (t : jsstring) (chunks : list (list byte)) (P T : jsstring)
    (props : list (jsstring * json)) :
  well_formed st -> pending st = [] -> disableCompose st = false ->
  trim (composeText st) = c :: t ->
  ~ In u0 (map uid (heap st)) -> ~ In u1 (map uid (heap st)) -> u1 <> u0 ->
  decoded chunks = P ++ T ->
  startsWith P (lit "{") = true ->
  indexOf P 125 = (Z.of_nat (length P) - 1)%Z ->
  JSON_parse P = Some (JObj props) ->
  truthy (get_own (lit "model") props) = true ->
  let st' := run st (ClickSend u0 :: FetchResolved 0 true u1
                       :: map (ReadValue 0) chunks ++ [ReadDone 0]) in
  view st' = view st ++ [createUiMessage u0 user (c :: t);
                         set_model (createUiMessage u1 assistant T)
                                   (get_own (lit "model") props)]
  /\ disableCompose st' = false /\ pending st' = [] /\ composeText st' = [].
Proof.
  intros W Hp Hd Ht Hu0 Hu1 Hne Hdec Hs Hk Hparse Hv st'.
  pose proof (send_effect st u0 c t W Hp Hd Ht) as E1.
  assert (W1 : well_formed (step st (ClickSend u0))).
  { apply step_well_formed; [exact W | exact Hu0]. }
  assert (Hmd : metadata (decoded chunks) = Some (get_own (lit "model") props, T)).
  { rewrite Hdec. unfold metadata. rewrite (preamble_exact P T Hs Hk), Hparse.
    reflexivity. }
  destruct (receive_all_parsed chunks (createUiMessage u1 assistant [])
              (get_own (lit "model") props) T) as [Efst _]; auto.
  destruct chunks as [|value rest].
  { exfalso. change (decoded []) with (@nil code_unit) in Hdec.
    destruct P; [discriminate Hs | discriminate Hdec]. }
  assert (E2 : st' = run (step st (ClickSend u0))
                         (FetchResolved 0 true u1
                            :: map (ReadValue 0) (value :: rest) ++ [ReadDone 0]))
    by reflexivity.
  rewrite run_stream in E2; [|exact W1 | rewrite E1; reflexivity|].
  - rewrite Efst in E2. rewrite E1 in E2.
    cbn [heap messages composeText storage posted] in E2.
    rewrite E2. repeat split.
    unfold view at 1. cbn [heap messages].
    pose proof (shown_grow (step st (ClickSend u0))
                  (set_text (set_model (createUiMessage u1 assistant [])
                                       (get_own (lit "model") props)) T) W1)
      as Hv2.
    rewrite E1 in Hv2 at 1 2 3. cbn [heap messages] in Hv2. rewrite Hv2.
    rewrite E1. unfold view at 1. cbn [heap messages].
    rewrite (shown_grow st _ W), <- app_assoc. reflexivity.
  - rewrite E1. cbn [heap]. rewrite map_app. cbn [map].
    intros Hin. apply in_app_or in Hin. destruct Hin as [Hin|[Hin|[]]];
      [contradiction | cbn in Hin; congruence].
Qed.



Lemma preamble_not_open (t : jsstring) :
  startsWith t (lit "{") = false -> preamble t = None.
Proof. intros H. unfold preamble. rewrite H. reflexivity. Qed.

(** A text whose cut parses to a falsy model, the text after the cut not
    opening with a brace: one parse, the model set to that value, the
    text after the cut kept. *)
Lemma receive_all_parsed_falsy (chunks : list (list byte)) (m : UiMessage)
    (v : jsvalue) (rest : jsstring) :
  truthy (model m) = false ->
  preamble (text m) = None ->
  metadata (text m ++ decoded chunks) = Some (v, rest) ->
  truthy v = false ->
  startsWith rest (lit "{") = false ->
  fst (receive_all m chunks) = set_text (set_model m v) rest.
Proof.
  revert m; induction chunks as [|value chunks IH]; intros m Hm Hp Hmd Hv Hr.
  - unfold decoded in Hmd. simpl in Hmd. rewrite app_nil_r in Hmd.
    apply metadata_preamble in Hmd. destruct Hmd as [p Hmd]. congruence.
  - rewrite decoded_cons, app_assoc in Hmd.
    rewrite fst_receive_all_cons, receive_eq. cbn zeta. rewrite Hm.
    destruct (preamble (text m ++ TextDecoder_decode value)) as [[p r]|] eqn:Hp1.
    + rewrite (metadata_app _ _ _ _ Hp1) in Hmd.
      destruct (metadata (text m ++ TextDecoder_decode value)) as [[v' r']|];
        [|discriminate].
      injection Hmd as -> <-. cbn [fst].
      rewrite receive_all_plain; cbn [text model set_text set_model fst].
      * reflexivity.
      * exact Hv.
      * apply preamble_not_open. exact Hr.
    + cbn [fst].
      apply (IH (set_text m (text m ++ TextDecoder_decode value)));
        cbn [text model set_text]; auto.
Qed.



Lemma unparsed_stream_is_content_witness :
  fst (receive_all (createUiMessage (lit "u1") assistant [])
         [TextEncoder_encode (lit "{not json} H");
          TextEncoder_encode (lit "ello")])
    = createUiMessage (lit "u1") assistant (lit "{not json} Hello")
  /\ forallb (fun a => negb (is_parsed a))
             (snd (receive_all (createUiMessage (lit "u1") assistant [])
                     [TextEncoder_encode (lit "{not json} H");
                      TextEncoder_encode (lit "ello")])) = true.
Proof.
  apply (unparsed_stream_is_content (lit "u1")
           [TextEncoder_encode (lit "{not json} H");
            TextEncoder_encode (lit "ello")]); reflexivity.
Defined.

(* ------------------------------------------------------------------ *)
(** ** The relay's re-streaming *)

Section RestreamFacts.

Variable number_text : bool -> N -> Z -> jsstring.
Variable number_string : bool -> N -> Z -> jsstring.

Local Abbreviation transmit := (Chat.transmit number_text number_string).
Local Abbreviation callback := (Chat.callback number_text number_string).
Local Abbreviation feed := (Chat.feed number_text number_string).
Local Abbreviation restream := (Chat.restream number_text number_string).
Local Abbreviation first_packet_first := (Chat.first_packet_first number_text).
Local Abbreviation relay_ok := (Chat.relay_ok number_text).
Local Abbreviation DONE := (Chat.Upstream (Chat.Event (lit "[DONE]"))).

(** *** The operations of the controller *)

Lemma enqueue_Some (chunk : list byte) (c c' : Chat.controller) :
  Chat.enqueue chunk c = Some c' ->
  Chat.canCloseOrEnqueue c = true
  /\ Chat.canCloseOrEnqueue c' = true
  /\ Chat.accepted c' = Chat.accepted c ++ [chunk]
  /\ Chat.state c' = Chat.state c
  /\ Chat.closeRequested c' = Chat.closeRequested c.
Proof.
  unfold Chat.enqueue. destruct (Chat.canCloseOrEnqueue c) eqn:E; [|discriminate].
  intros H. injection H as <-. split; [reflexivity|].
  unfold Chat.canCloseOrEnqueue in *.
  destruct (Chat.readRequests c); cbn; auto.
Qed.

Lemma enqueue_None (chunk : list byte) (c : Chat.controller) :
  Chat.enqueue chunk c = None <-> Chat.canCloseOrEnqueue c = false.
Proof.
  unfold Chat.enqueue. destruct (Chat.canCloseOrEnqueue c);
    split; congruence.
Qed.

Lemma close_Some (c c' : Chat.controller) :
  Chat.close c = Some c' ->
  Chat.canCloseOrEnqueue c = true
  /\ Chat.closeRequested c' = true
  /\ Chat.accepted c' = Chat.accepted c
  /\ Chat.delivered c' = Chat.delivered c
  /\ Chat.queue c' = Chat.queue c
  /\ Chat.state c' = match Chat.queue c with
                     | [] => Chat.Closed
                     | _ :: _ => Chat.Readable
                     end.
Proof.
  unfold Chat.close. destruct (Chat.canCloseOrEnqueue c) eqn:E; [|discriminate].
  intros H. injection H as <-. split; [reflexivity|].
  unfold Chat.canCloseOrEnqueue in E. apply andb_true_iff in E.
  destruct E as [_ E]. destruct (Chat.state c) eqn:Es; try discriminate.
  destruct (Chat.queue c) eqn:Eq; cbn; rewrite ?Es; auto.
Qed.

Lemma close_None (c : Chat.controller) :
  Chat.close c = None <-> Chat.canCloseOrEnqueue c = false.
Proof.
  unfold Chat.close. destruct (Chat.canCloseOrEnqueue c); split; congruence.
Qed.

Lemma not_readable_sealed (c : Chat.controller) :
  Chat.state c <> Chat.Readable -> Chat.canCloseOrEnqueue c = false.
Proof.
  unfold Chat.canCloseOrEnqueue. destruct (Chat.state c);
    [congruence | |]; intros _; apply andb_false_r.
Qed.

Lemma error_not_readable (c : Chat.controller) :
  Chat.state c <> Chat.Readable -> Chat.error c = c.
Proof. unfold Chat.error. destruct (Chat.state c); congruence. Qed.

Lemma error_state (c : Chat.controller) :
  Chat.state (Chat.error c) <> Chat.Readable.
Proof.
  unfold Chat.error. destruct (Chat.state c) eqn:E; cbn; rewrite ?E;
    discriminate.
Qed.

Lemma error_accepted (c : Chat.controller) :
  Chat.accepted (Chat.error c) = Chat.accepted c
  /\ Chat.delivered (Chat.error c) = Chat.delivered c
  /\ Chat.closeRequested (Chat.error c) = Chat.closeRequested c.
Proof. unfold Chat.error. destruct (Chat.state c); cbn; auto. Qed.

Lemma read_not_readable (c : Chat.controller) :
  Chat.state c <> Chat.Readable -> Chat.read c = c.
Proof. unfold Chat.read. destruct (Chat.state c); congruence. Qed.

Lemma read_accepted (c : Chat.controller) :
  Chat.accepted (Chat.read c) = Chat.accepted c
  /\ Chat.closeRequested (Chat.read c) = Chat.closeRequested c.
Proof.
  unfold Chat.read. destruct (Chat.state c); cbn; auto.
  destruct (Chat.queue c); cbn; auto.
Qed.

Lemma read_sealed (c : Chat.controller) :
  Chat.canCloseOrEnqueue c = false -> Chat.canCloseOrEnqueue (Chat.read c) = false.
Proof.
  destruct c as [acc del q rr cr st].
  unfold Chat.canCloseOrEnqueue, Chat.read. cbn.
  destruct st, cr, q as [|x [|y q]]; cbn; auto.
Qed.

(** *** What the callback preserves

    A property of the stream that every operation of the controller
    keeps is kept by the callback and by a whole schedule; [close] is
    called for the [DONE] event only. *)

Section Preserved.

Variable P : Chat.controller -> Prop.
Hypothesis P_enqueue :
  forall chunk c c', Chat.enqueue chunk c = Some c' -> P c -> P c'.
Hypothesis P_error : forall c, P c -> P (Chat.error c).

Lemma transmit_preserves (json : JS.json) (r : Chat.relay) :
  P (Chat.ctl r) -> P (Chat.ctl (fst (transmit json r))).
Proof.
  intros H. unfold Chat.transmit.
  destruct (Chat.delta_of json) as [delta|]; [|exact H].
  destruct (truthy _); [exact H|].
  destruct (Chat.sentFirstPacket r).
  - destruct (if truthy _ then _ else _) as [t|]; [|exact H].
    destruct (Chat.enqueue _ (Chat.ctl r)) as [c2|] eqn:E2; [|exact H].
    exact (P_enqueue _ _ _ E2 H).
  - destruct (Chat.enqueue _ (Chat.ctl r)) as [c1|] eqn:E1; [|exact H].
    pose proof (P_enqueue _ _ _ E1 H) as H1.
    destruct (if truthy _ then _ else _) as [t|]; [|exact H1].
    destruct (Chat.enqueue _ c1) as [c2|] eqn:E2; [|exact H1].
    exact (P_enqueue _ _ _ E2 H1).
Qed.

Lemma callback_preserves (r : Chat.relay) (e : Chat.sse_event) :
  (e = Chat.Event (lit "[DONE]") ->
   forall c', Chat.close (Chat.ctl r) = Some c' -> P c') ->
  P (Chat.ctl r) -> P (Chat.ctl (fst (callback r e))).
Proof.
  intros Hclose H. destruct e as [data|]; [|exact H]. unfold Chat.callback.
  destruct (str_eqb data (lit "[DONE]")) eqn:Ed.
  - apply str_eqb_eq in Ed. subst data.
    destruct (Chat.close (Chat.ctl r)) as [c|] eqn:Ec; [|exact H].
    exact (Hclose eq_refl c eq_refl).
  - destruct (JSON_parse data) as [json|]; [|apply P_error; exact H].
    pose proof (transmit_preserves json r H) as Ht.
    destruct (transmit json r) as [r' [|]]; cbn [fst Chat.ctl] in *;
      [exact Ht | apply P_error; exact Ht].
Qed.

End Preserved.

Lemma callback_throws (r r' : Chat.relay) (e : Chat.sse_event) :
  callback r e = (r', false) ->
  r' = r /\ e = Chat.Event (lit "[DONE]")
  /\ Chat.canCloseOrEnqueue (Chat.ctl r) = false.
Proof.
  destruct e as [data|]; unfold Chat.callback; [|discriminate].
  destruct (str_eqb data (lit "[DONE]")) eqn:Ed.
  - apply str_eqb_eq in Ed. subst data.
    destruct (Chat.close (Chat.ctl r)) eqn:E; [discriminate|].
    apply close_None in E. intros H. injection H as <-. auto.
  - destruct (JSON_parse data); [|discriminate].
    destruct (transmit _ r) as [r1 [|]]; discriminate.
Qed.

(** Once the stream takes no more chunks, no event adds one, and it
    stays so. *)
Lemma callback_sealed (r : Chat.relay) (e : Chat.sse_event) :
  Chat.canCloseOrEnqueue (Chat.ctl r) = false ->
  Chat.ctl (fst (callback r e)) = Chat.ctl r
  \/ Chat.ctl (fst (callback r e)) = Chat.error (Chat.ctl r).
Proof.
  intros H.
  apply (callback_preserves
           (fun c => c = Chat.ctl r \/ c = Chat.error (Chat.ctl r))).
  - intros chunk c c' E [->| ->].
    + apply enqueue_Some in E. destruct E as [E _]. congruence.
    + apply enqueue_Some in E. destruct E as [E _].
      rewrite (not_readable_sealed _ (error_state _)) in E. discriminate.
  - intros c [->| ->]; [right; reflexivity|].
    right. apply error_not_readable, error_state.
  - intros _ c' E. apply close_Some in E. destruct E as [E _]. congruence.
  - left. reflexivity.
Qed.

Lemma feed_not_readable (schedule : list Chat.action) (r : Chat.relay) :
  Chat.state (Chat.ctl r) <> Chat.Readable ->
  Chat.ctl (feed r schedule) = Chat.ctl r.
Proof.
  revert r; induction schedule as [|[e|] schedule IH]; intros r H;
    [reflexivity| |].
  - cbn [Chat.feed].
    assert (E : Chat.ctl (fst (callback r e)) = Chat.ctl r).
    { destruct (callback_sealed r e (not_readable_sealed _ H)) as [E|E];
        rewrite E; [reflexivity | apply error_not_readable, H]. }
    destruct (callback r e) as [r' [|]]; cbn [fst] in E.
    + rewrite IH; [exact E | rewrite E; exact H].
    + cbn [Chat.ctl]. rewrite E. apply error_not_readable, H.
  - cbn [Chat.feed]. rewrite IH; cbn [Chat.ctl];
      rewrite (read_not_readable _ H); [reflexivity | exact H].
Qed.

Lemma feed_app (a b : list Chat.action) (r : Chat.relay) :
  Chat.ctl (feed r (a ++ b)) = Chat.ctl (feed (feed r a) b).
Proof.
  revert r; induction a as [|[e|] a IH]; intros r; [reflexivity| |].
  - cbn [app Chat.feed].
    destruct (callback r e) as [r' [|]] eqn:E; [apply IH|].
    rewrite feed_not_readable; [reflexivity | apply error_state].
  - cbn [app Chat.feed]. apply IH.
Qed.

Lemma feed_preserves (P : Chat.controller -> Prop)
    (schedule : list Chat.action) (r : Chat.relay) :
  (forall chunk c c', Chat.enqueue chunk c = Some c' -> P c -> P c') ->
  (forall c, P c -> P (Chat.error c)) ->
  (forall c, P c -> P (Chat.read c)) ->
  (In DONE schedule -> forall c c', Chat.close c = Some c' -> P c -> P c') ->
  P (Chat.ctl r) -> P (Chat.ctl (feed r schedule)).
Proof.
  intros He Hx Hr. revert r.
  induction schedule as [|[e|] schedule IH]; intros r Hc H; [exact H| |].
  - cbn [Chat.feed].
    assert (H1 : P (Chat.ctl (fst (callback r e)))).
    { apply callback_preserves; auto.
      intros -> c' E. apply (Hc (or_introl eq_refl) _ _ E H). }
    destruct (callback r e) as [r' [|]]; cbn [fst] in H1.
    + apply IH; [|exact H1]. intros Hin. apply Hc. right. exact Hin.
    + cbn [Chat.ctl]. apply Hx. exact H1.
  - cbn [Chat.feed]. apply IH.
    + intros Hin. apply Hc. right. exact Hin.
    + cbn [Chat.ctl]. apply Hr. exact H.
Qed.

Lemma feed_reads (P : Chat.controller -> Prop)
    (schedule : list Chat.action) (r : Chat.relay) :
  (forall c, P c -> P (Chat.read c)) ->
  Forall (fun a => a = Chat.ReaderRead) schedule ->
  P (Chat.ctl r) -> P (Chat.ctl (feed r schedule)).
Proof.
  intros Hr Hs. revert r. induction Hs as [|a schedule -> Hs IH]; intros r H;
    [exact H|].
  cbn [Chat.feed]. apply IH. cbn [Chat.ctl]. apply Hr. exact H.
Qed.

(** *** The traces *)

Lemma stream_ok_enqueue (chunk : list byte) (c c' : Chat.controller) :
  Chat.enqueue chunk c = Some c' -> Chat.stream_ok c -> Chat.stream_ok c'.
Proof.
  destruct c as [acc del q rr cr st].
  unfold Chat.enqueue, Chat.canCloseOrEnqueue, Chat.stream_ok. cbn.
  destruct cr, st; cbn; try discriminate.
  intros E ((dropped & Ha & Hd) & Hq).
  rewrite (Hd ltac:(discriminate)), app_nil_r in Ha. subst acc.
  destruct rr as [|n]; injection E as <-; cbn.
  - split; [|reflexivity]. exists []. rewrite app_nil_r, app_assoc. auto.
  - destruct q as [|x q]; [|specialize (Hq ltac:(discriminate)); discriminate].
    split; [|congruence]. exists []. rewrite !app_nil_r. auto.
Qed.

Lemma stream_ok_close (c c' : Chat.controller) :
  Chat.close c = Some c' -> Chat.stream_ok c -> Chat.stream_ok c'.
Proof.
  destruct c as [acc del q rr cr st].
  unfold Chat.close, Chat.canCloseOrEnqueue, Chat.stream_ok. cbn.
  destruct cr, st; cbn; try discriminate.
  intros E ((dropped & Ha & Hd) & Hq).
  rewrite (Hd ltac:(discriminate)) in Ha.
  destruct q as [|x q]; injection E as <-; cbn.
  - split; [|congruence]. exists []. auto.
  - split; [|exact Hq]. exists []. auto.
Qed.

Lemma stream_ok_error (c : Chat.controller) :
  Chat.stream_ok c -> Chat.stream_ok (Chat.error c).
Proof.
  destruct c as [acc del q rr cr st].
  unfold Chat.error, Chat.stream_ok. cbn.
  destruct st; cbn; auto.
  intros ((dropped & Ha & Hd) & Hq). split; [|congruence].
  exists (q ++ dropped). split; [exact Ha | congruence].
Qed.

Lemma stream_ok_read (c : Chat.controller) :
  Chat.stream_ok c -> Chat.stream_ok (Chat.read c).
Proof.
  destruct c as [acc del q rr cr st].
  unfold Chat.read, Chat.stream_ok. cbn.
  destruct st; cbn; auto.
  intros ((dropped & Ha & Hd) & Hq).
  rewrite (Hd ltac:(discriminate)) in Ha.
  destruct q as [|x q]; cbn.
  - split; [|congruence]. exists []. auto.
  - split.
    + exists []. rewrite <- app_assoc. cbn [app]. split; [exact Ha | reflexivity].
    + intros _. apply Hq. discriminate.
Qed.

Lemma restream_ok (schedule : list Chat.action) :
  Chat.stream_ok (restream schedule).
Proof.
  unfold Chat.restream. apply feed_preserves.
  - exact stream_ok_enqueue.
  - exact stream_ok_error.
  - exact stream_ok_read.
  - intros _. exact stream_ok_close.
  - split; [exists []; split; reflexivity | reflexivity].
Qed.

(** *** The first packet *)

Lemma first_packet_snoc (q : list (list byte)) (t : jsstring) :
  q <> [] -> first_packet_first q ->
  first_packet_first (q ++ [TextEncoder_encode t]).
Proof.
  intros Hne [H|(model & texts & H)]; [congruence|].
  right. exists model, (texts ++ [t]). rewrite H, map_app. reflexivity.
Qed.

Lemma relay_ok_true (c : Chat.controller) :
  first_packet_first (Chat.accepted c) ->
  (Chat.canCloseOrEnqueue c = true -> Chat.accepted c <> []) ->
  relay_ok (Chat.mkRelay true c).
Proof.
  intros H1 H2. split; [discriminate|]. split; [intros _; exact H2 | exact H1].
Qed.

Lemma relay_ok_error (s : bool) (c : Chat.controller) :
  relay_ok (Chat.mkRelay s c) -> relay_ok (Chat.mkRelay s (Chat.error c)).
Proof.
  intros (H1 & H2 & H3). unfold Chat.relay_ok.
  cbn [Chat.sentFirstPacket Chat.ctl] in *.
  destruct (error_accepted c) as (-> & _ & _).
  rewrite (not_readable_sealed _ (error_state c)).
  split; [exact H1|]. split; [discriminate | exact H3].
Qed.

Lemma relay_ok_seal (s : bool) (c : Chat.controller) :
  relay_ok (Chat.mkRelay s c) -> Chat.canCloseOrEnqueue c = false ->
  relay_ok (Chat.mkRelay true c).
Proof.
  intros (_ & _ & H3) Hs. apply relay_ok_true; [exact H3 | congruence].
Qed.

Lemma transmit_ok (json : JS.json) (r : Chat.relay) :
  relay_ok r ->
  relay_ok (Chat.mkRelay (Chat.sentFirstPacket (fst (transmit json r)))
                         (if snd (transmit json r)
                          then Chat.ctl (fst (transmit json r))
                          else Chat.error (Chat.ctl (fst (transmit json r))))).
Proof.
  intros Hok. destruct r as [sent c]. unfold Chat.transmit.
  cbn [Chat.sentFirstPacket Chat.ctl].
  destruct (Chat.delta_of json) as [delta|];
    [|cbn [fst snd Chat.sentFirstPacket Chat.ctl]; apply relay_ok_error; exact Hok].
  destruct (truthy _); [cbn [fst snd Chat.sentFirstPacket Chat.ctl]; exact Hok|].
  set (text := if truthy _ then _ else _).
  set (packet := TextEncoder_encode (Chat.firstPacket _ _)).
  assert (Hp : first_packet_first [packet]).
  { right. exists (Chat.optional_member (lit "model") (Some json)), []. reflexivity. }
  assert (Hsnoc : forall t c1 c2,
             Chat.enqueue (TextEncoder_encode t) c1 = Some c2 ->
             Chat.accepted c1 <> [] -> first_packet_first (Chat.accepted c1) ->
             relay_ok (Chat.mkRelay true c2)).
  { intros t c1 c2 E Hne Hf. apply enqueue_Some in E.
    destruct E as (_ & _ & Ea & _). apply relay_ok_true; rewrite Ea.
    - apply first_packet_snoc; assumption.
    - intros _ E. apply app_eq_nil in E. destruct E; discriminate. }
  destruct sent.
  - (* the first packet was sent *)
    destruct text as [t|];
      [|cbn [fst snd Chat.sentFirstPacket Chat.ctl]; apply relay_ok_error; exact Hok].
    destruct (Chat.enqueue _ c) as [c2|] eqn:E2;
      cbn [fst snd Chat.sentFirstPacket Chat.ctl];
      [|apply relay_ok_error; exact Hok].
    destruct Hok as (_ & H2 & H3). cbn [Chat.sentFirstPacket Chat.ctl] in *.
    apply (Hsnoc t c c2 E2); [|exact H3].
    apply H2; [reflexivity|]. apply enqueue_Some in E2. tauto.
  - (* the first packet is due *)
    destruct (Chat.enqueue packet c) as [c1|] eqn:E1.
    + pose proof (enqueue_Some _ _ _ E1) as (_ & _ & Ea & _).
      destruct Hok as (H1 & _ & _). cbn [Chat.sentFirstPacket Chat.ctl] in *.
      rewrite (H1 eq_refl) in Ea. cbn [app] in Ea.
      assert (Hok1 : relay_ok (Chat.mkRelay true c1)).
      { apply relay_ok_true; rewrite Ea; [exact Hp | discriminate]. }
      destruct text as [t|];
        [|cbn [fst snd Chat.sentFirstPacket Chat.ctl]; apply relay_ok_error;
          exact Hok1].
      destruct (Chat.enqueue _ c1) as [c2|] eqn:E2;
        cbn [fst snd Chat.sentFirstPacket Chat.ctl];
        [|apply relay_ok_error; exact Hok1].
      apply (Hsnoc t c1 c2 E2); rewrite Ea; [discriminate | exact Hp].
    + cbn [fst snd Chat.sentFirstPacket Chat.ctl].
      apply relay_ok_error. apply (relay_ok_seal false); [exact Hok|].
      apply enqueue_None in E1. exact E1.
Qed.

Lemma callback_ok (r : Chat.relay) (e : Chat.sse_event) :
  relay_ok r -> relay_ok (fst (callback r e)).
Proof.
  intros Hok. destruct e as [data|]; [|exact Hok]. unfold Chat.callback.
  destruct (str_eqb data (lit "[DONE]")).
  - destruct (Chat.close (Chat.ctl r)) as [c|] eqn:Ec; cbn [fst]; [|exact Hok].
    apply close_Some in Ec. destruct Ec as (_ & Er & Ea & _).
    destruct Hok as (H1 & H2 & H3). unfold Chat.relay_ok.
    cbn [Chat.sentFirstPacket Chat.ctl]. rewrite Ea.
    split; [exact H1|]. split; [|exact H3].
    unfold Chat.canCloseOrEnqueue. rewrite Er. discriminate.
  - destruct (JSON_parse data) as [json|].
    + pose proof (transmit_ok json r Hok) as H.
      destruct (transmit json r) as [r' [|]]; cbn [fst snd] in *.
      * destruct r'; exact H.
      * exact H.
    + cbn [fst]. destruct r as [s c]. apply relay_ok_error. exact Hok.
Qed.

Lemma feed_ok (schedule : list Chat.action) (r : Chat.relay) :
  relay_ok r -> relay_ok (feed r schedule).
Proof.
  revert r; induction schedule as [|[e|] schedule IH]; intros r Hok;
    [exact Hok| |].
  - cbn [Chat.feed]. pose proof (callback_ok r e Hok) as H.
    destruct (callback r e) as [r' [|]]; cbn [fst] in H; [apply IH; exact H|].
    destruct r'. apply relay_ok_error. exact H.
  - cbn [Chat.feed]. apply IH. destruct Hok as (H1 & H2 & H3).
    unfold Chat.relay_ok. cbn [Chat.sentFirstPacket Chat.ctl].
    destruct (read_accepted (Chat.ctl r)) as [-> _].
    split; [exact H1|]. split; [|exact H3].
    intros Hs Hc. apply H2; [exact Hs|].
    destruct (Chat.canCloseOrEnqueue (Chat.ctl r)) eqn:E; [reflexivity|].
    rewrite (read_sealed _ E) in Hc. discriminate.
Qed.


(** *** The end of the stream *)


Lemma done_requests_close (r : Chat.relay) :
  Chat.canCloseOrEnqueue (Chat.ctl r) = true ->
  exists c,
    Chat.close (Chat.ctl r) = Some c
    /\ feed r [DONE] = Chat.mkRelay (Chat.sentFirstPacket r) c.
Proof.
  intros H. destruct (Chat.close (Chat.ctl r)) as [c|] eqn:E.
  - exists c. split; [reflexivity|]. cbn [Chat.feed Chat.callback].
    change (str_eqb (lit "[DONE]") (lit "[DONE]")) with true. cbn iota.
    rewrite E. reflexivity.
  - apply close_None in E. congruence.
Qed.

Lemma feed_sealed (schedule : list Chat.action) (r : Chat.relay) :
  Chat.canCloseOrEnqueue (Chat.ctl r) = false ->
  Chat.canCloseOrEnqueue (Chat.ctl (feed r schedule)) = false
  /\ Chat.accepted (Chat.ctl (feed r schedule)) = Chat.accepted (Chat.ctl r).
Proof.
  intros H.
  apply (feed_preserves
           (fun c => Chat.canCloseOrEnqueue c = false
                     /\ Chat.accepted c = Chat.accepted (Chat.ctl r))).
  - intros chunk c c' E [Hs _]. apply enqueue_Some in E. destruct E as [E _].
    congruence.
  - intros c [_ Ha]. destruct (error_accepted c) as (-> & _).
    split; [apply not_readable_sealed, error_state | exact Ha].
  - intros c [Hs Ha]. destruct (read_accepted c) as [-> _].
    split; [apply read_sealed, Hs | exact Ha].
  - intros _ c c' E [Hs _]. apply close_Some in E. destruct E as [E _].
    congruence.
  - split; [exact H | reflexivity].
Qed.

(** After the close was requested, reads hand the waiting chunks over
    and close the stream with the last one. *)
Lemma read_closing (all : list (list byte)) (c : Chat.controller) :
  Chat.closeRequested c = true
  /\ Chat.delivered c ++ Chat.queue c = all
  /\ Chat.state c = match Chat.queue c with
                    | [] => Chat.Closed
                    | _ :: _ => Chat.Readable
                    end ->
  Chat.closeRequested (Chat.read c) = true
  /\ Chat.delivered (Chat.read c) ++ Chat.queue (Chat.read c) = all
  /\ Chat.state (Chat.read c) = match Chat.queue (Chat.read c) with
                                | [] => Chat.Closed
                                | _ :: _ => Chat.Readable
                                end.
Proof.
  destruct c as [acc del q rr cr st]. unfold Chat.read. cbn.
  intros (-> & <- & ->). destruct q as [|x [|y q]]; cbn;
    rewrite <- ?app_assoc; auto.
Qed.

(** An event that comes when the stream takes no more chunks: a role
    update is skipped as ever, and every other event errors the stream
    if it is still readable. *)
Lemma event_on_sealed (r : Chat.relay) (data : jsstring) :
  Chat.canCloseOrEnqueue (Chat.ctl r) = false ->
  Chat.ctl (feed r [Chat.Upstream (Chat.Event data)]) = Chat.error (Chat.ctl r)
  \/ Chat.ctl (feed r [Chat.Upstream (Chat.Event data)]) = Chat.ctl r
     /\ exists json delta,
          JSON_parse data = Some json
          /\ Chat.delta_of json = Some delta
          /\ truthy (Chat.optional_member (lit "role") delta) = true.
Proof.
  intros H. cbn [Chat.feed Chat.callback].
  destruct (str_eqb data (lit "[DONE]")).
  - rewrite (proj2 (close_None _) H). left. reflexivity.
  - destruct (JSON_parse data) as [json|] eqn:Ej; [|left; reflexivity].
    unfold Chat.transmit.
    destruct (Chat.delta_of json) as [delta|] eqn:Ed; [|left; reflexivity].
    destruct (truthy (Chat.optional_member (lit "role") delta)) eqn:Er.
    + right. split; [reflexivity|]. exists json, delta. auto.
    + left. destruct (Chat.sentFirstPacket r).
      * destruct (if truthy _ then _ else _) as [t|]; [|reflexivity].
        rewrite (proj2 (enqueue_None _ _) H). reflexivity.
      * rewrite (proj2 (enqueue_None _ _) H). reflexivity.
Qed.


End RestreamFacts.




(* ------------------------------------------------------------------ *)
(** ** From the relay to the page: the first packet is read back *)

Lemma ascii_cases (P : code_unit -> Prop) :
  Forall P (map N.of_nat (seq 0 128)) -> forall c, c < 128 -> P c.
Proof.
  intros H c Hc. rewrite Forall_forall in H. apply H.
  rewrite <- (N2Nat.id c). apply in_map. apply in_seq. lia.
Qed.

Ltac for_each_ascii c Hc tac :=
  pattern c; apply ascii_cases; [clear c Hc|exact Hc];
  let l := eval vm_compute in (map N.of_nat (seq 0 128)) in
  change (map N.of_nat (seq 0 128)) with l;
  repeat (apply Forall_cons; [tac|]); apply Forall_nil.

Lemma quote_chars_cons (c : code_unit) :
  c < 128 -> forall r, quote_chars (c :: r) = quote_chars [c] ++ quote_chars r.
Proof. intros Hc. for_each_ascii c Hc ltac:(intros r; reflexivity). Qed.

Lemma parse_quoted_char (c : code_unit) :
  c < 128 ->
  forall rest, parse_chars (quote_chars [c] ++ rest) = cons_char c (parse_chars rest).
Proof. intros Hc. for_each_ascii c Hc ltac:(intros rest; reflexivity). Qed.

Lemma quoted_char_ascii (c : code_unit) :
  c < 128 -> forallb (fun x => x <? 128) (quote_chars [c]) = true.
Proof. intros Hc. for_each_ascii c Hc ltac:(vm_compute; reflexivity). Qed.

Lemma quoted_char_no_brace (c : code_unit) :
  c < 128 ->
  c = 125 \/ forallb (fun x => negb (x =? 125)) (quote_chars [c]) = true.
Proof.
  intros Hc.
  for_each_ascii c Hc ltac:(first [right; vm_compute; reflexivity | left; reflexivity]).
Qed.

(** JSON.parse reads back the string JSON.stringify wrote. *)
Lemma parse_quote_chars (s rest : jsstring) :
  ascii_text s -> parse_chars (quote_chars s ++ 34 :: rest) = Some (s, rest).
Proof.
  induction 1 as [|c s Hc Hs IH]; [reflexivity|].
  rewrite (quote_chars_cons c Hc), <- app_assoc, (parse_quoted_char c Hc), IH.
  reflexivity.
Qed.

Lemma quote_chars_ascii (s : jsstring) :
  ascii_text s -> ascii_text (quote_chars s).
Proof.
  induction 1 as [|c s Hc Hs IH]; [constructor|].
  rewrite (quote_chars_cons c Hc). apply Forall_app. split; [|exact IH].
  apply ascii_text_forallb, quoted_char_ascii, Hc.
Qed.

Lemma quote_chars_no_brace (s : jsstring) :
  ascii_text s -> ~ In 125 s -> ~ In 125 (quote_chars s).
Proof.
  induction 1 as [|c s Hc Hs IH]; intros Hn; [exact Hn|].
  rewrite (quote_chars_cons c Hc). intros Hin. apply in_app_or in Hin.
  destruct Hin as [Hin|Hin].
  - destruct (quoted_char_no_brace c Hc) as [E|E].
    + apply Hn. left. exact E.
    + rewrite forallb_forall in E. specialize (E _ Hin).
      rewrite N.eqb_refl in E. discriminate.
  - apply IH; [|exact Hin]. intros H. apply Hn. right. exact H.
Qed.

Lemma indexOf_first (a b : jsstring) (c : code_unit) :
  ~ In c a -> indexOf (a ++ c :: b) c = Z.of_nat (length a).
Proof.
  induction a as [|x a IH]; intros Hn.
  - cbn [app indexOf length]. rewrite N.eqb_refl. reflexivity.
  - cbn [app indexOf length].
    destruct (x =? c) eqn:E; [apply N.eqb_eq in E; elim Hn; left; exact E|].
    rewrite IH by (intros H; apply Hn; right; exact H).
    replace (Z.of_nat (length a) <? 0)%Z with false by (symmetry; apply Z.ltb_ge; lia).
    lia.
Qed.

Lemma parse_model_object (fuel : nat) (name : jsstring) :
  ascii_text name ->
  parse_value (S (S (S fuel)))
    (123 :: 34 :: 109 :: 111 :: 100 :: 101 :: 108 :: 34 :: 58 :: 34
         :: quote_chars name ++ [34; 125])
  = Some (JObj [(lit "model", JStr name)], []).
Proof.
  intros Hn. simpl. rewrite (parse_quote_chars name [125] Hn). reflexivity.
Qed.

Section FirstPacket.

Variable number_text : bool -> N -> Z -> jsstring.
Variable name : jsstring.
Hypothesis name_ascii : ascii_text name.

Local Abbreviation packet := (Chat.firstPacket number_text (Some (JStr name))).

Lemma firstPacket_text :
  packet = jlit "{'model':'" ++ quote_chars name ++ [34; 125].
Proof.
  unfold Chat.firstPacket.
  cbn [JSON_stringify map join_comma fst snd].
  unfold quote at 2. change (quote (lit "model")) with (jlit "'model'").
  change (jlit "'model'") with [34; 109; 111; 100; 101; 108; 34].
  change (jlit "{'model':'") with [123; 34; 109; 111; 100; 101; 108; 34; 58; 34].
  cbn [app]. rewrite <- app_assoc. reflexivity.
Qed.

Lemma firstPacket_ascii : ascii_text packet.
Proof.
  rewrite firstPacket_text. unfold ascii_text.
  apply Forall_app. split; [|apply Forall_app; split].
  - apply ascii_text_forallb. reflexivity.
  - apply quote_chars_ascii, name_ascii.
  - apply ascii_text_forallb. reflexivity.
Qed.

Lemma firstPacket_parses :
  JSON_parse packet = Some (JObj [(lit "model", JStr name)]).
Proof.
  rewrite firstPacket_text. unfold JSON_parse.
  change (jlit "{'model':'") with [123; 34; 109; 111; 100; 101; 108; 34; 58; 34].
  cbn [app length].
  rewrite length_app. cbn [length]. rewrite Nat.add_comm. cbn [Nat.add].
  rewrite (parse_model_object _ name name_ascii). reflexivity.
Qed.

Lemma firstPacket_cut (T : jsstring) :
  ~ In 125 name -> preamble (packet ++ T) = Some (packet, T).
Proof.
  intros Hn. apply preamble_exact.
  - rewrite firstPacket_text. reflexivity.
  - rewrite firstPacket_text.
    change (quote_chars name ++ [34; 125])
      with (quote_chars name ++ [34] ++ 125 :: []).
    rewrite !app_assoc, indexOf_first.
    + rewrite !length_app. cbn [length]. lia.
    + intros Hin. apply in_app_or in Hin. destruct Hin as [Hin|Hin].
      * apply in_app_or in Hin. destruct Hin as [Hin|Hin].
        -- vm_compute in Hin. intuition discriminate.
        -- exact (quote_chars_no_brace name name_ascii Hn Hin).
      * destruct Hin as [E|[]]. discriminate E.
Qed.

Lemma firstPacket_metadata (T : jsstring) :
  ~ In 125 name -> metadata (packet ++ T) = Some (Some (JStr name), T).
Proof.
  intros Hn. unfold metadata.
  rewrite (firstPacket_cut T Hn), firstPacket_parses. reflexivity.
Qed.

End FirstPacket.

Lemma decode_encode_ascii (s : jsstring) :
  ascii_text s -> TextDecoder_decode (TextEncoder_encode s) = s.
Proof.
  intros Hs.
  pose proof (decoded_encode_ascii s [TextEncoder_encode s] Hs) as H.
  unfold decoded in H. cbn [map concat] in H. rewrite !app_nil_r in H.
  apply H. reflexivity.
Qed.

Lemma decoded_map_encode (texts : list jsstring) :
  Forall ascii_text texts ->
  decoded (map TextEncoder_encode texts) = concat texts.
Proof.
  induction 1 as [|t texts Ht Hts IH]; [reflexivity|].
  cbn [map concat]. rewrite decoded_cons, IH, (decode_encode_ascii t Ht).
  reflexivity.
Qed.

(** X19: The page reads back what the relay wrote. When the chunks of the
    stream are the relay's, the first packet with a non-empty ASCII model
    name that holds no closing brace and then ASCII texts, the message
    ends with that model and with the texts joined, the packet removed. *)
Theorem first_packet_is_read_back
    (number_text : bool -> N -> Z -> jsstring)
    (name : jsstring) (texts : list jsstring) (m : UiMessage) :
  ascii_text name -> name <> [] -> ~ In 125 name ->
  Forall ascii_text texts ->
  truthy (model m) = false -> text m = [] ->
  fst (receive_all m
         (TextEncoder_encode (Chat.firstPacket number_text (Some (JStr name)))
          :: map TextEncoder_encode texts))
  = set_text (set_model m (Some (JStr name))) (concat texts).
Proof.
  intros Ha Hne Hb Hts Hm Ht.
  apply (receive_all_parsed _ m (Some (JStr name)) (concat texts)).
  - exact Hm.
  - rewrite Ht. reflexivity.
  - rewrite Ht. cbn [app].
    rewrite decoded_cons, (decoded_map_encode texts Hts),
      (decode_encode_ascii _ (firstPacket_ascii number_text name Ha)).
    apply firstPacket_metadata; assumption.
  - destruct name; [congruence | reflexivity].
Qed.

Lemma first_packet_is_read_back_witness :
  fst (receive_all (createUiMessage (lit "u") assistant [])
         (TextEncoder_encode
            (Chat.firstPacket (fun _ _ _ => []) (Some (JStr (lit "gpt-4"))))
          :: map TextEncoder_encode [lit "Hel"; lit "lo {}"]))
  = set_text (set_model (createUiMessage (lit "u") assistant [])
                        (Some (JStr (lit "gpt-4"))))
             (concat [lit "Hel"; lit "lo {}"]).
Proof.
  apply (first_packet_is_read_back (fun _ _ _ => []) (lit "gpt-4")
           [lit "Hel"; lit "lo {}"] (createUiMessage (lit "u") assistant [])).
  - apply ascii_text_forallb. reflexivity.
  - discriminate.
  - vm_compute. intuition discriminate.
  - repeat constructor; apply ascii_text_forallb; reflexivity.
  - reflexivity.
  - reflexivity.
Defined.

(* ------------------------------------------------------------------ *)
(** ** pages/api/chat.ts: the handler *)

(** X20: The key policy of the handler. It answers 400 exactly when the client
    sent no usable key and the server has none; otherwise it calls the
    upstream with a truthy key, the client's own whenever that one is
    truthy and else the server's, and with the messages of the request in
    order, each with its role and its text as content. *)
Theorem handler_key_policy (input : Chat.ChatApiInput) (env : option jsstring) :
  match Chat.handler input env with
  | Chat.BadRequest body =>
      body = Chat.missing_key
      /\ truthy (Chat.apiKey input) = false
      /\ (env = None \/ env = Some [])
  | Chat.Stream key _ msgs _ _ =>
      truthy (Some key) = true
      /\ (truthy (Chat.apiKey input) = true -> Chat.apiKey input = Some key)
      /\ (truthy (Chat.apiKey input) = false ->
          exists k, env = Some k /\ key = JStr k)
      /\ map Chat.role msgs = map ChatMessage.role (Chat.messages input)
      /\ map Chat.content msgs = map text (Chat.messages input)
  end.
Proof.
  unfold Chat.handler.
  destruct (truthy (Chat.apiKey input)) eqn:Ek.
  - destruct (Chat.apiKey input) as [key|] eqn:Ei; [|discriminate Ek].
    cbn [Chat.or_default]. rewrite Ek. cbn [negb].
    rewrite !map_map. cbn [Chat.role Chat.content].
    repeat split; try reflexivity; try discriminate; exact Ek.
  - destruct env as [[|c k]|]; cbn [negb truthy str_eqb];
      try (repeat split; auto; fail).
    rewrite !map_map. cbn [Chat.role Chat.content].
    repeat split; try reflexivity; try discriminate.
    intros _. exists (c :: k). split; reflexivity.
Qed.

(* ------------------------------------------------------------------ *)
(** ** The blocks of a message *)

(** X21: on every text the parser returns blocks that alternate: a text
    block and a code block for each fence, the code block with a language
    that is not empty, with its code trimmed and its content the
    highlighted code; then at most one text block, not empty. *)
Theorem blocks_alternate (highlight : jsstring -> jsstring -> jsstring)
    (text : jsstring) :
  exists blocks,
    parseAndHighlightCodeBlocks highlight text = Some blocks
    /\ alternating blocks = true
    /\ Forall (highlighted highlight) blocks.
Proof.
  unfold parseAndHighlightCodeBlocks.
  destruct (parse_loop_total highlight (S (length text)) text) as [blocks E];
    [lia|].
  exists blocks. split; [exact E|].
  exact (parse_loop_shape highlight _ _ _ E).
Qed.

(* ------------------------------------------------------------------ *)
(** ** Clearing the send history *)

(** X22: clearing empties the stored history whatever it held, and the
    next send leaves exactly the text sent; without a storage, clearing
    and sending leave nothing to load. *)
Theorem clear_then_send (T : jsstring) (stored : option (list jsstring)) :
  loadMessagesFromHistory (clearMessageHistory (Item stored)) = []
  /\ loadMessagesFromHistory
       (appendMessageToHistory T defaultMaxMessages
          (clearMessageHistory (Item stored))) = [T]
  /\ loadMessagesFromHistory
       (appendMessageToHistory T defaultMaxMessages
          (clearMessageHistory Undefined)) = [].
Proof.
  split; [reflexivity|]. split; [|reflexivity].
  cbn [clearMessageHistory]. rewrite appended_history. reflexivity.
Qed.
